(** * Event-siting pipeline: areal reaggregation, composite scoring, grid
    construction and CRS normalisation.

    Shallow embedding of [src/utils/geo.py], [src/utils/scoring.py] and
    the methods of [EventSitingModel] in [src/event-siting.py] that the
    properties below speak about.

    Numbers.  pandas columns are IEEE-754 doubles.  They are modelled
    here by exact real arithmetic extended with the three special values
    of IEEE-754 ([PInf], [NInf], [NaN]): no rounding, no overflow, no
    signed zero.  Properties stated "within floating tolerance" therefore
    read as exact equalities.  Where rounding decides what the code
    returns (the mean of a constant column, the floor of a scaled
    coordinate) a statement is made for whole numbers of bounded size,
    on which the double arithmetic of the code is exact and agrees with
    the model. *)

From Stdlib Require Import Reals Lra Lia ZArith String List.
From Stdlib Require Import Zfloor.
From Stdlib Require QArith.
From Stdlib Require Import Field.
From stdpp Require Import base list strings gmap.

Open Scope R_scope.

(* ===================================================================== *)
(** ** Floating-point cells *)
(* ===================================================================== *)

Module Float.

Inductive float64 : Type :=
| Fin (r : R)
| PInf
| NInf
| NaN.

(** Sign of a real: the case analysis every IEEE operation on a special
    value needs. *)
Definition Rsign (r : R) : comparison :=
  match total_order_T r 0 with
  | inleft (left _) => Lt
  | inleft (right _) => Eq
  | inright _ => Gt
  end.

Definition isnan (a : float64) : bool :=
  match a with NaN => true | _ => false end.

Definition notna (a : float64) : bool := negb (isnan a).

Definition is_finite (a : float64) : Prop :=
  match a with Fin _ => True | _ => False end.

(** [-a] *)
Definition fneg (a : float64) : float64 :=
  match a with
  | Fin r => Fin (- r)
  | PInf => NInf
  | NInf => PInf
  | NaN => NaN
  end.

(** [a + b] *)
Definition fadd (a b : float64) : float64 :=
  match a, b with
  | NaN, _ | _, NaN => NaN
  | Fin x, Fin y => Fin (x + y)
  | PInf, NInf | NInf, PInf => NaN
  | PInf, _ | _, PInf => PInf
  | NInf, _ | _, NInf => NInf
  end.

(** [a - b] *)
Definition fsub (a b : float64) : float64 := fadd a (fneg b).

(** An infinity with the sign of [c] ([NaN] for a zero factor). *)
Definition inf_of_sign (c : comparison) : float64 :=
  match c with Gt => PInf | Lt => NInf | Eq => NaN end.

(** [a * b] *)
Definition fmul (a b : float64) : float64 :=
  match a, b with
  | NaN, _ | _, NaN => NaN
  | Fin x, Fin y => Fin (x * y)
  | Fin x, PInf | PInf, Fin x => inf_of_sign (Rsign x)
  | Fin x, NInf | NInf, Fin x => inf_of_sign (CompOpp (Rsign x))
  | PInf, PInf | NInf, NInf => PInf
  | PInf, NInf | NInf, PInf => NInf
  end.

(** [a / b]: a finite value over zero is an infinity of the sign of the
    numerator, and [0 / 0] is [NaN]; numpy and pandas raise nothing. *)
Definition fdiv (a b : float64) : float64 :=
  match a, b with
  | NaN, _ | _, NaN => NaN
  | Fin x, Fin y =>
      match Rsign y with
      | Eq => inf_of_sign (Rsign x)
      | _ => Fin (x / y)
      end
  | Fin _, _ => Fin 0
  | PInf, Fin y => match Rsign y with Lt => NInf | _ => PInf end
  | NInf, Fin y => match Rsign y with Lt => PInf | _ => NInf end
  | _, _ => NaN
  end.

(** [sqrt a] *)
Definition fsqrt (a : float64) : float64 :=
  match a with
  | Fin x => match Rsign x with Lt => NaN | _ => Fin (sqrt x) end
  | PInf => PInf
  | _ => NaN
  end.

(** [a > b]; every comparison with [NaN] is false. *)
Definition fgt (a b : float64) : bool :=
  match a, b with
  | NaN, _ | _, NaN => false
  | Fin x, Fin y => match Rsign (x - y) with Gt => true | _ => false end
  | PInf, PInf => false
  | PInf, _ => true
  | Fin _, NInf => true
  | _, _ => false
  end.


(** [a == b] on cells, as pandas compares keys: [NaN] never equals. *)
Definition feqb (a b : float64) : bool :=
  match a, b with
  | Fin x, Fin y => match Rsign (x - y) with Eq => true | _ => false end
  | PInf, PInf | NInf, NInf => true
  | _, _ => false
  end.

End Float.
Export Float.

(* ===================================================================== *)
(** ** pandas Series of doubles *)
(* ===================================================================== *)

Module Pandas.

(** A numeric column.  A missing value is [NaN]. *)
Abbreviation Series := (list float64) (only parsing).

Definition dropna (ds : Series) : Series := List.filter notna ds.

(** [ds.count()]: number of non-missing cells. *)
Definition count (ds : Series) : nat := length (dropna ds).

(** [ds.sum()]: missing cells are skipped, the empty sum is [0]. *)
Definition sum (ds : Series) : float64 := foldr fadd (Fin 0) (dropna ds).

(** [ds.mean()]: missing cells are skipped; no cell at all gives [0/0]. *)
Definition mean (ds : Series) : float64 := fdiv (sum ds) (Fin (IZR (Z.of_nat (count ds)))).

(** [ds - c], [ds / c], [ds * other], [-ds], elementwise. *)
Definition sub_scalar (ds : Series) (c : float64) : Series := map (fun x => fsub x c) ds.
Definition div_scalar (ds : Series) (c : float64) : Series := map (fun x => fdiv x c) ds.
Definition neg (ds : Series) : Series := map fneg ds.

Fixpoint mul (a b : Series) : Series :=
  match a, b with
  | x :: a', y :: b' => fmul x y :: mul a' b'
  | _, _ => []
  end.

Fixpoint div (a b : Series) : Series :=
  match a, b with
  | x :: a', y :: b' => fdiv x y :: div a' b'
  | _, _ => []
  end.

(** [ds.std()]: sample standard deviation ([ddof = 1]) of the non-missing
    cells; fewer than two of them give [NaN]. *)
Definition std (ds : Series) : float64 :=
  let n := count ds in
  if (n <=? 1)%nat then NaN
  else
    let m := mean ds in
    let sq := map (fun x => fmul (fsub x m) (fsub x m)) (dropna ds) in
    fsqrt (fdiv (foldr fadd (Fin 0) sq) (Fin (IZR (Z.of_nat (n - 1))))).

(** The smaller and the larger of two non-missing cells. *)
Definition fmin (a b : float64) : float64 := if fgt a b then b else a.
Definition fmax (a b : float64) : float64 := if fgt b a then b else a.

(** [ds.min()], [ds.max()]: over the non-missing cells, [NaN] if none. *)
Definition min (ds : Series) : float64 :=
  match dropna ds with
  | [] => NaN
  | x :: xs => foldl fmin x xs
  end.

Definition max (ds : Series) : float64 :=
  match dropna ds with
  | [] => NaN
  | x :: xs => foldl fmax x xs
  end.

End Pandas.

(* ===================================================================== *)
(** ** utils/scoring.py: standardisation functions *)
(* ===================================================================== *)

(** [return (ds - ds.mean()) / ds.std()] *)
Definition standardize (ds : Pandas.Series) : Pandas.Series :=
  Pandas.div_scalar (Pandas.sub_scalar ds (Pandas.mean ds)) (Pandas.std ds).

(** [return (ds - ds.min()) / (ds.max() - ds.min())] *)
Definition normalize (ds : Pandas.Series) : Pandas.Series :=
  Pandas.div_scalar (Pandas.sub_scalar ds (Pandas.min ds))
                    (fsub (Pandas.max ds) (Pandas.min ds)).

(** [std_func_all = {"standardize": standardize, "normalize": normalize}] *)
Definition std_func_all (key : string) : option (Pandas.Series -> Pandas.Series) :=
  if String.eqb key "standardize" then Some standardize
  else if String.eqb key "normalize" then Some normalize
  else None.

(* ===================================================================== *)
(** ** Data frames, object store and exceptions *)
(* ===================================================================== *)

(** [x in l] for a list of names. *)
Definition str_in (x : string) (l : list string) : bool := existsb (String.eqb x) l.

(** Equality of two CRSs, each an EPSG code or [None]. *)
Definition crs_eqb (a b : option Z) : bool :=
  match a, b with
  | Some x, Some y => (x =? y)%Z
  | None, None => true
  | _, _ => false
  end.

Definition is_some {A} (o : option A) : bool :=
  match o with Some _ => true | None => false end.

(** Columns in their order; a name is looked up from the left. *)
Abbreviation Columns := (list (string * Pandas.Series)) (only parsing).

Fixpoint col_lookup (name : string) (cs : Columns) : option Pandas.Series :=
  match cs with
  | [] => None
  | (k, v) :: cs' => if String.eqb k name then Some v else col_lookup name cs'
  end.

(** [df[name] = v]: an existing column is overwritten in place, a new
    one is appended on the right. *)
Fixpoint col_set (name : string) (v : Pandas.Series) (cs : Columns) : Columns :=
  match cs with
  | [] => [(name, v)]
  | (k, w) :: cs' =>
      if String.eqb k name then (k, v) :: cs' else (k, w) :: col_set name v cs'
  end.

(** A GeoDataFrame: a CRS (EPSG code, [None] for a naive layer), the
    geometry column and the numeric columns.  The number of records is
    the length of the geometry column. *)
Record GeoDataFrame (geom : Type) : Type := mkGDF {
  crs : option Z;
  geometry : list geom;
  columns : Columns
}.
Arguments mkGDF {geom} _ _ _.
Arguments crs {geom} _.
Arguments geometry {geom} _.
Arguments columns {geom} _.

Definition nrows {geom} (df : GeoDataFrame geom) : nat := length (geometry df).

Definition df_set {geom} (name : string) (v : Pandas.Series)
    (df : GeoDataFrame geom) : GeoDataFrame geom :=
  mkGDF (crs df) (geometry df) (col_set name v (columns df)).

(** [df[names].mean(axis=1)] on the selected columns: one mean per
    record, missing cells skipped. *)
Definition mean_axis1 (n : nat) (cols : list Pandas.Series) : Pandas.Series :=
  map (fun i => Pandas.mean (map (fun c => default NaN (c !! i)) cols)) (seq 0 n).

Inductive exn : Type :=
| KeyError (key : string)
| ValueError (msg : string)
| AssertionError (msg : string)
| NameError.

Inductive result (A : Type) : Type :=
| Ok (a : A)
| Raise (e : exn).
Arguments Ok {A} _.
Arguments Raise {A} _.

(** Python objects live in a store; a variable holds a reference.  Two
    variables holding the same reference see each other's updates. *)
Abbreviation loc := nat (only parsing).
Abbreviation heap geom := (list (GeoDataFrame geom)) (only parsing).

(** Computations that read and update the store and may raise; the store
    reached when an exception is raised is kept. *)
Definition M (geom A : Type) : Type := heap geom -> result A * heap geom.

Definition raise {geom A} (e : exn) : M geom A := fun h => (Raise e, h).

#[global] Instance M_ret {geom} : MRet (M geom) :=
  fun A (a : A) h => (Ok a, h).

#[global] Instance M_bind {geom} : MBind (M geom) :=
  fun A B (k : A -> M geom B) (m : M geom A) h =>
    match m h with
    | (Ok a, h') => k a h'
    | (Raise e, h') => (Raise e, h')
    end.

Definition load {geom} (l : loc) : M geom (GeoDataFrame geom) :=
  fun h => match h !! l with
           | Some df => (Ok df, h)
           | None => (Raise NameError, h)
           end.

Definition store {geom} (l : loc) (df : GeoDataFrame geom) : M geom unit :=
  fun h => (Ok tt, <[l := df]> h).

(** A constructor or a library call that returns a new object. *)
Definition alloc {geom} (df : GeoDataFrame geom) : M geom loc :=
  fun h => (Ok (length h), h ++ [df]).

(** [df[name]] *)
Definition getitem {geom} (l : loc) (name : string) : M geom Pandas.Series :=
  df ← load l;
  match col_lookup name (columns df) with
  | Some v => mret v
  | None => raise (KeyError name)
  end.

(** [df[name] = v]: updates the object [l] refers to. *)
Definition setitem {geom} (l : loc) (name : string) (v : Pandas.Series) : M geom unit :=
  df ← load l;
  store l (df_set name v df).

(** [df[names]]: the listed columns in the listed order. *)
Fixpoint getitems {geom} (l : loc) (names : list string) : M geom (list Pandas.Series) :=
  match names with
  | [] => mret []
  | name :: rest =>
      v ← getitem l name;
      vs ← getitems l rest;
      mret (v :: vs)
  end.

(* ===================================================================== *)
(** ** utils/scoring.py: generate_index_score *)
(* ===================================================================== *)

(** The loop
    [for var in all_vars:
         df[var] = std_func(df[var])
         if var in neg_vars: df[var] = -df[var]] *)
Fixpoint standardize_vars {geom} (std_func : Pandas.Series -> Pandas.Series)
    (df : loc) (neg_vars : list string) (vars : list string) : M geom unit :=
  match vars with
  | [] => mret tt
  | var :: rest =>
      v ← getitem df var;
      setitem df var (std_func v) ;;
      (if str_in var neg_vars
       then (w ← getitem df var; setitem df var (Pandas.neg w))
       else mret tt) ;;
      standardize_vars std_func df neg_vars rest
  end.

Definition generate_index_score {geom} (df : loc) (pos_vars neg_vars : list string)
    (std_method : string) : M geom Pandas.Series :=
  match std_func_all std_method with
  | None => raise (KeyError std_method)
  | Some std_func =>
      let all_vars := pos_vars ++ neg_vars in
      standardize_vars std_func df neg_vars all_vars ;;
      sel ← getitems df all_vars;
      d ← load df;
      mret (mean_axis1 (nrows d) sel)
  end.

(* ===================================================================== *)
(** ** Table operations of pandas and geopandas used by utils/geo.py *)
(* ===================================================================== *)

#[global] Instance result_ret : MRet result := fun A (a : A) => Ok a.

#[global] Instance result_bind : MBind result :=
  fun A B (k : A -> result B) (m : result A) =>
    match m with
    | Ok a => k a
    | Raise e => Raise e
    end.

(** Runs a computation that touches no object of the store. *)
Definition lift {geom A} (r : result A) : M geom A := fun h => (r, h).

Module Table.

(** [l[mask]]: the records whose mask bit is set. *)
Fixpoint mask_filter {A} (mask : list bool) (l : list A) : list A :=
  match mask, l with
  | b :: mask', x :: l' => if b then x :: mask_filter mask' l' else mask_filter mask' l'
  | _, _ => []
  end.

Definition col_get (name : string) (cs : Columns) : result Pandas.Series :=
  match col_lookup name cs with
  | Some v => Ok v
  | None => Raise (KeyError name)
  end.

Definition has_col (name : string) (cs : Columns) : bool :=
  match col_lookup name cs with Some _ => true | None => false end.

(** Column names that occur on both sides get a suffix on each side. *)
Definition suffixed (sfx : string) (other : Columns) (cs : Columns) : Columns :=
  map (fun '(k, v) => (if has_col k other then k +:+ sfx else k, v)) cs.

(** The cell of record [i], missing when there is no such record. *)
Definition cell (s : Pandas.Series) (i : nat) : float64 := default NaN (s !! i).

(** The cell of the record an optional parent index points to. *)
Definition parent_cell (s : Pandas.Series) (oi : option nat) : float64 :=
  match oi with Some i => cell s i | None => NaN end.

(** Position of the first key equal to [k]; [NaN] equals nothing. *)
Fixpoint key_index (k : float64) (keys : Pandas.Series) : option nat :=
  match keys with
  | [] => None
  | k' :: keys' => if feqb k' k then Some O else S <$> key_index k keys'
  end.

Definition key_mem (k : float64) (keys : Pandas.Series) : bool :=
  match key_index k keys with Some _ => true | None => false end.

(** The distinct non-missing keys of a column: the groups of
    [groupby(key)].  pandas orders the groups by key; they are listed
    here by first occurrence, which no caller below can observe since
    grouped tables are only joined back on the key. *)
Fixpoint group_keys (key : Pandas.Series) : Pandas.Series :=
  match key with
  | [] => []
  | k :: key' =>
      let rest := List.filter (fun k' => negb (feqb k k')) (group_keys key') in
      if notna k then k :: rest else rest
  end.

(** The cells of [s] on the records whose key is [k]. *)
Definition group_cells (key : Pandas.Series) (k : float64) (s : Pandas.Series) : Pandas.Series :=
  mask_filter (map (fun k' => feqb k' k) key) s.

(** [df.groupby(key).sum().reset_index()]: the group keys and one summed
    column per column other than the key. *)
Definition groupby_sum (key : string) (cs : Columns) : result (Pandas.Series * Columns) :=
  kcol ← col_get key cs;
  let ks := group_keys kcol in
  let values := List.filter (fun '(name, _) => negb (String.eqb name key)) cs in
  mret (ks, map (fun '(name, s) => (name, map (fun k => Pandas.sum (group_cells kcol k s)) ks))
                values).

(** [left.merge(right, on=key, how=...)] for a right table whose keys are
    distinct: every left record meets at most one right record.  [how]
    is [true] for a left join (unmatched records are kept, with missing
    cells) and [false] for an inner join (they are dropped).  Returns
    the mask of the left records kept and the joined columns. *)
Definition merge (how_left : bool) (left : Columns) (key : string)
    (right_keys : Pandas.Series) (right : Columns) : result (list bool * Columns) :=
  lk ← col_get key left;
  let hits := map (fun k => key_index k right_keys) lk in
  let keep := map (fun m => how_left || is_some m) hits in
  let lcols :=
    map (fun '(k, v) => (if negb (String.eqb k key) && has_col k right then k +:+ "_x" else k,
                         mask_filter keep v)) left in
  let rcols :=
    map (fun '(k, v) => (if has_col k left then k +:+ "_y" else k,
                         map (parent_cell v) (mask_filter keep hits))) right in
  mret (keep, lcols ++ rcols).

End Table.

(* ===================================================================== *)
(** ** Geometry backend *)
(* ===================================================================== *)

Definition point : Type := R * R.

(** EPSG:3857, the working projection of utils/geo.py. *)
Definition EPSG_3857 : Z := 3857%Z.

(** The operations of pyproj, shapely and geopandas the code calls.  They
    are third-party code and enter as interfaces. *)

(** Reprojection of a geometry between two EPSG codes. *)
Class Projection (geom : Type) : Type := {
  transform : Z -> Z -> geom -> geom
}.

(** Construction and measurement of shapes, as [create_grid] needs them. *)
Class Shapes (geom : Type) : Type := {
  (** [shapely.geometry.Polygon(ring)] *)
  Polygon : list point -> geom;
  (** [total_bounds]: min x, min y, max x, max y *)
  total_bounds : list geom -> float64 * float64 * float64 * float64;
  (** [unary_union]; what it gives for no geometry at all depends on the
      installed shapely, hence the option *)
  unary_union : list geom -> option geom;
  (** the [intersects] predicate of [sjoin] *)
  intersects : geom -> geom -> bool
}.

(** [buffer(distance)], as [create_buffer] needs it. *)
Class Buffering (geom : Type) : Type := {
  buffer : R -> geom -> geom
}.

(** Planar overlay, as [reaggregate] needs it. *)
Class Overlay (geom : Type) : Type := {
  (** [intersection] of two geometries *)
  intersection : geom -> geom -> geom;
  (** [difference] of a geometry and the union of others *)
  difference : geom -> list geom -> geom;
  (** non-empty and of polygon type: what [overlay] keeps *)
  polygonal : geom -> bool;
  (** [area] of a geometry given in EPSG:3857 *)
  area : geom -> R
}.

(** [gdf.to_crs(target)]: a new layer; a naive layer cannot be
    reprojected. *)
Definition to_crs {geom} `{Projection geom} (df : GeoDataFrame geom) (target : option Z)
    : result (GeoDataFrame geom) :=
  match crs df, target with
  | Some c, Some t => Ok (mkGDF (Some t) (map (transform c t) (geometry df)) (columns df))
  | None, _ => Raise (ValueError "Cannot transform naive geometries")
  | _, None => Raise (ValueError "Must pass either crs or epsg")
  end.

(* ===================================================================== *)
(** ** utils/geo.py *)
(* ===================================================================== *)

Section Geo.
Context {geom : Type} `{Projection geom} `{Shapes geom} `{Buffering geom} `{Overlay geom}.

(** [gpd.GeoSeries(g)]: one record for a geometry, none for [None]. *)
Definition GeoSeries (g : option geom) : list geom :=
  match g with Some x => [x] | None => [] end.

(** [create_buffer(gdf, size_in_meters)] *)
Definition create_buffer (gdf : loc) (size_in_meters : Z) : M geom loc :=
  df ← load gdf;
  let src_crs := crs df in
  projected ← lift (to_crs df (Some EPSG_3857));
  let buffer_poly := unary_union (map (buffer (IZR size_in_meters)) (geometry projected)) in
  out ← lift (to_crs (mkGDF (Some EPSG_3857) (GeoSeries buffer_poly) []) src_crs);
  alloc out.

(** [np.floor] and [np.ceil] *)
Definition ffloor (a : float64) : float64 :=
  match a with Fin r => Fin (IZR (Zfloor r)) | _ => a end.

Definition fceil (a : float64) : float64 :=
  match a with Fin r => Fin (IZR (Zceil r)) | _ => a end.

(** [np.arange(start, stop, step)]: [ceil((stop - start) / step)] values
    [start + i * step]; a length that is not a number is an error. *)
Definition arange (start stop : float64) (step : Z) : result (list R) :=
  match start, stop with
  | Fin a, Fin b =>
      if (step =? 0)%Z then Raise (ValueError "arange: cannot compute length")
      else
        let n := Z.to_nat (Zceil ((b - a) / IZR step)) in
        Ok (map (fun i => a + IZR (Z.of_nat i) * IZR step) (seq 0 n))
  | _, _ => Raise (ValueError "arange: cannot compute length")
  end.

(** [_create_grid_coords_1d(start, end, size, decimals=2)] *)
Definition _create_grid_coords_1d (start end_ : float64) (size : Z) (decimals : nat)
    : result (list R) :=
  let rounding_factor := Fin (IZR (10 ^ Z.of_nat decimals)) in
  let start_rounded := fdiv (ffloor (fmul start rounding_factor)) rounding_factor in
  let end_rounded := fdiv (fceil (fmul end_ rounding_factor)) rounding_factor in
  arange start_rounded end_rounded size.

(** The ring of the cell whose top-left corner is [(x, y)]. *)
Definition cell_ring (size : Z) (x y : R) : list point :=
  [(x, y); (x + IZR size, y); (x + IZR size, y - IZR size); (x, y - IZR size)].

(** [grid.index]: [0 .. n-1] *)
Definition range_index (n : nat) : Pandas.Series :=
  map (fun i => Fin (IZR (Z.of_nat i))) (seq 0 n).

(** [create_grid(gdf, size_in_meters, filter=True)] *)
Definition create_grid (gdf : loc) (size_in_meters : Z) (filter : bool) : M geom loc :=
  df ← load gdf;
  let src_crs := crs df in
  projected ← lift (to_crs df (Some EPSG_3857));
  let '(min_x, min_y, max_x, max_y) := total_bounds (geometry projected) in
  cols ← lift (_create_grid_coords_1d min_x max_x size_in_meters 2);
  rows ← lift (_create_grid_coords_1d min_y max_y size_in_meters 2);
  let rows := rev rows in
  let polygons :=
    flat_map (fun x => map (fun y => Polygon (cell_ring size_in_meters x y)) rows) cols in
  grid ← lift (to_crs (mkGDF (Some EPSG_3857) polygons []) src_crs);
  let grid := df_set "cell_id" (range_index (nrows grid)) grid in
  let grid :=
    if filter then
      let dissolved := GeoSeries (unary_union (geometry df)) in
      let keep := map (fun g => existsb (intersects g) dissolved) (geometry grid) in
      mkGDF (crs grid) (Table.mask_filter keep (geometry grid))
            (map (fun '(k, v) => (k, Table.mask_filter keep v)) (columns grid))
    else grid in
  alloc grid.

(** A list with the position of each element. *)
Definition enumerate {A} (l : list A) : list (nat * A) := zip (seq 0 (length l)) l.

(** [dst.overlay(src, how="union")], as the parents and the geometry of
    each fragment: the polygonal intersections of a destination and a
    source record, then what is left of each destination record, then
    what is left of each source record. *)
Definition overlay_parents (dst src : list geom) : list (option nat * option nat * geom) :=
  flat_map (fun '(i, g) =>
      flat_map (fun '(j, s) =>
          let x := intersection g s in
          if polygonal x then [(Some i, Some j, x)] else [])
        (enumerate src))
    (enumerate dst)
  ++ flat_map (fun '(i, g) =>
        let x := difference g src in
        if polygonal x then [(Some i, None, x)] else [])
      (enumerate dst)
  ++ flat_map (fun '(j, s) =>
        let x := difference s dst in
        if polygonal x then [(None, Some j, x)] else [])
      (enumerate src).

(** The fragment table: every column of both layers, filled from the
    parent record and missing where there is no parent. *)
Definition overlay_union (dst src : GeoDataFrame geom) : GeoDataFrame geom :=
  let parents := overlay_parents (geometry dst) (geometry src) in
  let dcols := map (fun '(k, v) => (k, map (fun p => Table.parent_cell v p.1.1) parents))
                   (columns dst) in
  let scols := map (fun '(k, v) => (k, map (fun p => Table.parent_cell v p.1.2) parents))
                   (columns src) in
  mkGDF (crs dst) (map snd parents)
        (Table.suffixed "_1" scols dcols ++ Table.suffixed "_2" dcols scols).

(** [rename(columns={"fragment_area": "dst_unit_area"})] gives the table
    of unit areas two columns of one label when the identifier column is
    itself called [dst_unit_area]; pandas refuses to merge on it. *)
Definition unique_label (dst_id : string) : result unit :=
  if String.eqb dst_id "dst_unit_area"
  then Raise (ValueError "The column label 'dst_unit_area' is not unique")
  else Ok tt.

(** Lines 136-149 of [reaggregate]: the fragments with their
    [fragment_area], [dst_unit_area] and [fragment_area_pct]. *)
Definition weighted_fragments (src dst : GeoDataFrame geom) (dst_id : string)
    : result (GeoDataFrame geom) :=
  let fragment_df := overlay_union dst src in
  projected ← to_crs fragment_df (Some EPSG_3857);
  let fragment_df :=
    df_set "fragment_area" (map (fun g => Fin (area g)) (geometry projected)) fragment_df in
  '(keys, sums) ← Table.groupby_sum dst_id (columns fragment_df);
  fragment_area ← Table.col_get "fragment_area" sums;
  let dst_unit_areas := [("dst_unit_area"%string, fragment_area)] in
  unique_label dst_id;;
  '(keep, cs) ← Table.merge false (columns fragment_df) dst_id keys dst_unit_areas;
  let fragment_df := mkGDF (crs fragment_df) (Table.mask_filter keep (geometry fragment_df)) cs in
  a ← Table.col_get "fragment_area" (columns fragment_df);
  u ← Table.col_get "dst_unit_area" (columns fragment_df);
  mret (df_set "fragment_area_pct" (Pandas.div a u) fragment_df).

(** [for var in agg_vars: fragment_df[var] *= fragment_df["fragment_area_pct"]] *)
Fixpoint redistribute (agg_vars : list string) (fragment_df : GeoDataFrame geom)
    : result (GeoDataFrame geom) :=
  match agg_vars with
  | [] => mret fragment_df
  | var :: rest =>
      v ← Table.col_get var (columns fragment_df);
      pct ← Table.col_get "fragment_area_pct" (columns fragment_df);
      redistribute rest (df_set var (Pandas.mul v pct) fragment_df)
  end.

(** [cs[names]]: the listed columns in the listed order. *)
Fixpoint select (names : list string) (cs : Columns) : result Columns :=
  match names with
  | [] => mret []
  | name :: rest =>
      v ← Table.col_get name cs;
      vs ← select rest cs;
      mret ((name, v) :: vs)
  end.

(** Lines 155-156: the sums per destination identifier, joined back onto
    the destination layer. *)
Definition aggregate (dst fragment_df : GeoDataFrame geom) (dst_id : string)
    (agg_vars : list string) : result (GeoDataFrame geom) :=
  sel ← select (agg_vars ++ [dst_id]) (columns fragment_df);
  if str_in dst_id agg_vars
  then Raise (ValueError "Grouper not 1-dimensional")
  else
    '(keys, agg_df) ← Table.groupby_sum dst_id sel;
    '(keep, cs) ← Table.merge true (columns dst) dst_id keys agg_df;
    mret (mkGDF (crs dst) (Table.mask_filter keep (geometry dst)) cs).

(** [reaggregate(src_gdf, dst_gdf, dst_id, agg_vars)] *)
Definition reaggregate (src_gdf dst_gdf : loc) (dst_id : string) (agg_vars : list string)
    : M geom loc :=
  src ← load src_gdf;
  dst ← load dst_gdf;
  src ← (if negb (crs_eqb (crs dst) (crs src)) then lift (to_crs src (crs dst)) else mret src);
  fragment_df ← lift (weighted_fragments src dst dst_id);
  fragment_df ← lift (redistribute agg_vars fragment_df);
  out_gdf ← lift (aggregate dst fragment_df dst_id agg_vars);
  alloc out_gdf.

End Geo.

(* ===================================================================== *)
(** ** event-siting.py: EventSitingModel *)
(* ===================================================================== *)

(** The attributes of the model the methods below read.  Layers are
    references into the store. *)
Record EventSitingModel : Type := mkModel {
  tracts : loc;
  tract_data : loc;
  pois : loc;
  grid : loc;
  _housing_loss_varname : string;
  _grid_id_varname : string;
  tract_positive_vars : list string;
  tract_negative_vars : list string
}.

Section Model.
Context {geom : Type} `{Projection geom} `{Overlay geom}.

(** The body of the loop of [_standardize_projections]:
    [src_crs = gdf.crs
     if src_crs != target_epsg: gdf = gdf.to_crs(target_epsg)].
    [to_crs] builds a new layer, which the assignment binds to the loop
    variable [gdf]; the value returned is that final binding. *)
Definition standardize_projection (target_epsg : Z) (gdf : loc) : M geom loc :=
  df ← load gdf;
  let src_crs := crs df in
  if negb (crs_eqb src_crs (Some target_epsg))
  then (projected ← lift (to_crs df (Some target_epsg)); alloc projected)
  else mret gdf.

(** [for gdf in [...]: ...] *)
Fixpoint for_each {A} (body : A -> M geom loc) (l : list A) : M geom unit :=
  match l with
  | [] => mret tt
  | x :: rest => body x ;; for_each body rest
  end.

(** [_standardize_projections(self, target_epsg=4326)] *)
Definition _standardize_projections (self : EventSitingModel) (target_epsg : Z) : M geom unit :=
  for_each (standardize_projection target_epsg) [tracts self; pois self; grid self].

(** [df[mask]] with a boolean column: a new layer of the selected records. *)
Definition df_mask (mask : list bool) (df : GeoDataFrame geom) : GeoDataFrame geom :=
  mkGDF (crs df) (Table.mask_filter mask (geometry df))
        (map (fun '(k, v) => (k, Table.mask_filter mask v)) (columns df)).

(** [df[b]] with a single boolean [b]: pandas reads a scalar as a column
    label, and no column is labelled [True] or [False]. *)
Definition getitem_scalar (b : bool) : M geom loc :=
  raise (KeyError (if b then "True" else "False")).

(** [_get_tracts_of_interest(self, min_mean_ratio=None, min_zscore=None)] *)
Definition _get_tracts_of_interest (self : EventSitingModel)
    (min_mean_ratio min_zscore : option float64) : M geom loc :=
  let neither_provided := negb (is_some min_mean_ratio) && negb (is_some min_zscore) in
  let both_provided := is_some min_mean_ratio && is_some min_zscore in
  if neither_provided || both_provided
  then raise (ValueError "Please provide either min_mean_ratio or min_zscore.")
  else
    hloss ← getitem (tract_data self) (_housing_loss_varname self);
    let hloss_mean := Pandas.mean hloss in
    match min_mean_ratio, min_zscore with
    | Some k, _ =>
        let mean_ratio := Pandas.div_scalar hloss hloss_mean in
        df ← load (tract_data self);
        alloc (df_mask (map (fun x => fgt x k) mean_ratio) df)
    | None, Some z =>
        let hloss_std := Pandas.std hloss in
        let zscore := fdiv hloss_mean hloss_std in
        getitem_scalar (fgt zscore z)
    | None, None => raise (ValueError "unreachable")
    end.

(** [for var in all_vars: assert var in self.tract_data.columns] *)
Fixpoint assert_columns (vars : list string) (cs : Columns) : result unit :=
  match vars with
  | [] => mret tt
  | var :: rest =>
      if Table.has_col var cs then assert_columns rest cs
      else Raise (AssertionError (var +:+ " not found in data"))
  end.

(** [_get_cell_event_scores(self)] *)
Definition _get_cell_event_scores (self : EventSitingModel) : M geom loc :=
  let all_vars := tract_positive_vars self ++ tract_negative_vars self in
  td ← load (tract_data self);
  lift (assert_columns all_vars (columns td)) ;;
  indicators_by_cell ← reaggregate (tract_data self) (grid self) (_grid_id_varname self) all_vars;
  g ← load (grid self);
  event_scores ← alloc g;
  score ← generate_index_score indicators_by_cell
             (tract_positive_vars self) (tract_negative_vars self) "standardize";
  setitem event_scores "event_score" score ;;
  mret event_scores.

End Model.

(* ===================================================================== *)
(** ** utils/parse_address.py *)
(* ===================================================================== *)

(** A Python dict with string keys, in insertion order.  [d[k]] finds
    the value of [k]; [d[k] = v] overwrites the value of an existing key
    in place and appends a new key at the end. *)
Fixpoint dict_get {V} (k : string) (d : list (string * V)) : option V :=
  match d with
  | [] => None
  | (k', v) :: d' => if String.eqb k' k then Some v else dict_get k d'
  end.

Fixpoint dict_set {V} (k : string) (v : V) (d : list (string * V)) : list (string * V) :=
  match d with
  | [] => [(k, v)]
  | (k', w) :: d' => if String.eqb k' k then (k', v) :: d' else (k', w) :: dict_set k v d'
  end.

(** [FEAT_CROSSWALK]: from the required FEAT address fields to the tags
    of usaddress. *)
Definition FEAT_CROSSWALK : list (string * list string) :=
  [("Street_Address_1",
    ["USPSBoxGroupType"; "USPSBoxGroupID"; "USPSBoxType"; "USPSBoxID";
     "AddressNumberPrefix"; "AddressNumber"; "AddressNumberSuffix";
     "StreetNamePreDirectional"; "StreetNamePreType"; "StreetNamePreModifier";
     "StreetName"; "StreetNamePostModifier"; "StreetNamePostType";
     "StreetNamePostDirectional"]);
   ("Street_Address_2",
    ["OccupancyType"; "OccupancyIdentifier"; "SubaddressType"; "SubaddressIdentifier"]);
   ("City", ["PlaceName"]);
   ("State", ["StateName"]);
   ("Zip", ["ZipCode"; "ZipPlus4"]);
   ("Country", ["CountryName"]);
   ("_other",
    ["Recipient"; "BuildingName"; "CornerOf"; "IntersectionSeparator"; "LandmarkName";
     "NotAddress"])]%string.

Module AddressParser.

(** [address.replace] of every comma by the empty string *)
Fixpoint remove_commas (s : string) : string :=
  match s with
  | EmptyString => EmptyString
  | String c s' => if String.eqb (String c EmptyString) "," then remove_commas s' else String c (remove_commas s')
  end.

(** [_merge_tuples_by_key(tups)]: [itertools.groupby] on the first
    component: one pair per run of consecutive equal keys, with the
    values of the run in order. *)
Fixpoint _merge_tuples_by_key {V} (tups : list (string * V)) : list (string * list V) :=
  match tups with
  | [] => []
  | (k, v) :: rest =>
      match _merge_tuples_by_key rest with
      | (k', vs) :: groups =>
          if String.eqb k k' then (k, v :: vs) :: groups else (k, [v]) :: (k', vs) :: groups
      | [] => [(k, [v])]
      end
  end.

(** [_reverse_crosswalk(crosswalk)]: the dict of a [ChainMap] over one
    dict [{i: k for i in v}] per item [k, v] of the crosswalk.  The
    pairs are listed in the priority order of the [ChainMap]: a lookup
    finds the first, as the [ChainMap] does. *)
Definition _reverse_crosswalk (crosswalk : list (string * list string)) : list (string * string) :=
  flat_map (fun '(k, v) => map (fun i => (i, k)) v) crosswalk.

(** [_tuple_with_list_to_dict(tup)]:
    a dict comprehension over [tup] that joins the flattened lists of
    each pair with a space; a key met again overwrites its value. *)
Definition _tuple_with_list_to_dict (tup : list (string * list (list string)))
    : list (string * string) :=
  foldl (fun d '(k, v) => dict_set k (String.concat " " (concat v)) d) [] tup.

(** [_enforce_crosswalk_keys(out_dict, crosswalk, verbose)] *)
Definition _enforce_crosswalk_keys (out_dict : list (string * option string))
    (crosswalk : list (string * list string)) : list (string * option string) :=
  foldl (fun d i =>
           if negb (is_some (dict_get i d)) && negb (String.eqb i "_other")
           then dict_set i None d else d)
        out_dict (map fst crosswalk).

(** [[(reverse_crosswalk[x], y) for x, y in combined_by_tag]] *)
Fixpoint replace_tags {V} (reverse_crosswalk : list (string * string))
    (combined_by_tag : list (string * V)) : result (list (string * V)) :=
  match combined_by_tag with
  | [] => Ok []
  | (x, y) :: rest =>
      match dict_get x reverse_crosswalk with
      | None => Raise (KeyError x)
      | Some c =>
          match replace_tags reverse_crosswalk rest with
          | Ok l => Ok ((c, y) :: l)
          | Raise e => Raise e
          end
      end
  end.

Section Parse.

(** [usaddress.parse]: the tokens of an address, each with its tag. *)
Variable usaddress_parse : string -> list (string * string).

(** [parse(address, crosswalk)] *)
Definition parse (address : string) (crosswalk : list (string * list string))
    : result (list (string * option string)) :=
  let tagged := usaddress_parse (remove_commas address) in
  let reverse := map (fun '(x, y) => (y, x)) tagged in
  let combined_by_tag := _merge_tuples_by_key reverse in
  let reverse_crosswalk := _reverse_crosswalk crosswalk in
  match replace_tags reverse_crosswalk combined_by_tag with
  | Raise e => Raise e
  | Ok replaced =>
      let merged := _merge_tuples_by_key replaced in
      let parsed := _tuple_with_list_to_dict merged in
      Ok (_enforce_crosswalk_keys (map (fun '(k, v) => (k, Some v)) parsed) crosswalk)
  end.

(** [col.fillna] with the empty string: a cell of a Series of addresses
    is a string or missing ([None]). *)
Definition fillna_empty (col : list (option string)) : list (option string) :=
  map (fun x => Some (default EmptyString x)) col.

(** [col.map(f)]: [f] on every cell in order; the first exception ends
    the call. *)
Fixpoint series_map {A B} (f : A -> result B) (col : list A) : result (list B) :=
  match col with
  | [] => Ok []
  | x :: rest =>
      match f x with
      | Raise e => Raise e
      | Ok y =>
          match series_map f rest with
          | Raise e => Raise e
          | Ok ys => Ok (y :: ys)
          end
      end
  end.

(** What [usaddress.parse] does with a missing value. *)
Variable usaddress_parse_nan : result (list (string * string)).

Definition usaddress_parse_cell (x : option string) : result (list (string * string)) :=
  match x with
  | Some s => Ok (usaddress_parse s)
  | None => usaddress_parse_nan
  end.

(** [get_unique_tags(col, fillna)] *)
Definition get_unique_tags (col : list (option string)) (fillna : bool)
    : result (gset string) :=
  let col := if fillna then fillna_empty col else col in
  match series_map usaddress_parse_cell col with
  | Raise e => Raise e
  | Ok parsed => Ok (list_to_set (map snd (concat parsed)))
  end.

(** [list_uncategorized_tags(col, crosswalk)] *)
Definition list_uncategorized_tags (col : list (option string))
    (crosswalk : list (string * list string)) : result (gset string) :=
  match get_unique_tags col true with
  | Raise e => Raise e
  | Ok all_tags =>
      let categorized : gset string := list_to_set (concat (map snd crosswalk)) in
      Ok (all_tags ∖ categorized)
  end.

End Parse.

End AddressParser.

(* ===================================================================== *)
(** ** Two small geometry backends, to run the code on concrete layers *)
(* ===================================================================== *)

(** A planar subdivision: a geometry is the list of the faces it covers,
    a face being an identifier with its area in square metres.  Any
    finite family of polygons can be read this way on their common
    refinement.  A degenerate polygon (one without interior) covers no
    face: its geometry is the empty list, which the overlay drops.  A
    face of area [0] is a proper polygon so small that its area, as a
    double, is [0]; the overlay keeps it. *)
Module Faces.

Definition face : Type := Z * N.
Definition geom : Type := list face.

Definition face_eqb (f g : face) : bool := (f.1 =? g.1)%Z && (f.2 =? g.2)%N.

Definition covers (g : geom) (f : face) : bool := existsb (face_eqb f) g.

#[global] Instance projection : Projection geom := {|
  transform := fun _ _ g => g
|}.

#[global] Instance overlay : Overlay geom := {|
  intersection := fun a b => List.filter (covers b) a;
  difference := fun a bs => List.filter (fun f => negb (existsb (fun b => covers b f) bs)) a;
  polygonal := fun g => match g with [] => false | _ => true end;
  area := fun g => IZR (Z.of_N (foldr N.add 0%N (map snd g)))
|}.

End Faces.

(** Axis-parallel rectangles given by their rings; a geometry is a list
    of them. *)
Module Boxes.

Definition geom : Type := list (list point).

Definition bounds_of (pts : list point) : float64 * float64 * float64 * float64 :=
  match pts with
  | [] => (NaN, NaN, NaN, NaN)
  | p :: ps =>
      (Fin (foldr Rmin p.1 (map fst ps)), Fin (foldr Rmin p.2 (map snd ps)),
       Fin (foldr Rmax p.1 (map fst ps)), Fin (foldr Rmax p.2 (map snd ps)))
  end.

Definition ring_intersects (r1 r2 : list point) : bool :=
  match r1, r2 with
  | [], _ | _, [] => false
  | _, _ =>
      let '(ax, ay, bx, by_) := bounds_of r1 in
      let '(cx, cy, dx, dy) := bounds_of r2 in
      negb (fgt ax dx) && negb (fgt cx bx) && negb (fgt ay dy) && negb (fgt cy by_)
  end.

#[global] Instance projection : Projection geom := {|
  transform := fun _ _ g => g
|}.

#[global] Instance shapes : Shapes geom := {|
  Polygon := fun ring => [ring];
  total_bounds := fun gs => bounds_of (concat (concat gs));
  unary_union := fun gs => match gs with [] => None | _ => Some (concat gs) end;
  intersects := fun g1 g2 => existsb (fun r1 => existsb (ring_intersects r1) g2) g1
|}.

(** A square buffer: each ring grows to its bounding box widened by the
    distance on every side. *)
Definition grow (d : R) (ring : list point) : list point :=
  match bounds_of ring with
  | (Fin a, Fin b, Fin c, Fin e) =>
      [(a - d, b - d); (c + d, b - d); (c + d, e + d); (a - d, e + d)]
  | _ => ring
  end.

#[global] Instance buffering : Buffering geom := {|
  buffer := fun d g => map (grow d) g
|}.

End Boxes.

(* ===================================================================== *)
(** ** Vocabulary of the statements *)
(* ===================================================================== *)

(** The column updates of the loop of [generate_index_score], on the
    columns alone: the outcome and the columns reached. *)
Fixpoint loop_columns (std_func : Pandas.Series -> Pandas.Series) (neg_vars vars : list string)
    (cs : Columns) : result unit * Columns :=
  match vars with
  | [] => (Ok tt, cs)
  | var :: rest =>
      match col_lookup var cs with
      | None => (Raise (KeyError var), cs)
      | Some v =>
          let w := if str_in var neg_vars then Pandas.neg (std_func v) else std_func v in
          loop_columns std_func neg_vars rest (col_set var w cs)
      end
  end.

Definition with_columns {geom} (df : GeoDataFrame geom) (cs : Columns) : GeoDataFrame geom :=
  mkGDF (crs df) (geometry df) cs.

(** The selection the documentation of [_get_tracts_of_interest]
    describes for [min_zscore]: the tracts whose own z-score,
    [(value - mean) / std] over the tract values, exceeds the threshold. *)
Definition individual_zscore_mask (values : Pandas.Series) (min_zscore : float64) : list bool :=
  map (fun z => fgt z min_zscore) (standardize values).

(** A column of missing values only. *)
Definition all_nan (ds : Pandas.Series) : Prop := Forall (fun x => x = NaN) ds.

(** A column without signal: constant, or already missing throughout. *)
Definition no_signal (c : list float64) : Prop := Pandas.std c = Fin 0 \/ all_nan c.

(** Every object the store held before is still there, unchanged. *)
Definition preserves {geom} (h h' : heap geom) : Prop :=
  forall l df, h !! l = Some df -> h' !! l = Some df.

(** [df[names]] on the columns alone. *)
Fixpoint lookup_all (names : list string) (cs : Columns) : result (list Pandas.Series) :=
  match names with
  | [] => Ok []
  | name :: rest =>
      match col_lookup name cs with
      | None => Raise (KeyError name)
      | Some v =>
          match lookup_all rest cs with
          | Ok vs => Ok (v :: vs)
          | Raise e => Raise e
          end
      end
  end.

(** What a computation guarantees from every store satisfying [P]: [Q]
    of its value and final store when it returns, [E] of the store it
    leaves when it raises. *)
Definition triple {geom A} (P : heap geom -> Prop) (m : M geom A)
    (Q : A -> heap geom -> Prop) (E : heap geom -> Prop) : Prop :=
  forall h, P h ->
    match m h with
    | (Ok a, h') => Q a h'
    | (Raise _, h') => E h'
    end.

(** A reference that did not exist in the store [h0]. *)
Definition fresh_for {geom} (h0 : heap geom) (l : loc) : Prop := (length h0 <= l)%nat.

(* ===================================================================== *)
(** ** Concrete layers used in the examples *)
(* ===================================================================== *)

Module Examples.

(** A layer of three records with one column [a = 1, 2, 3]. *)
Definition three_cells : list Faces.geom := [[(1%Z, 1%N)]; [(2%Z, 1%N)]; [(3%Z, 1%N)]].

Definition df_abc : GeoDataFrame Faces.geom :=
  mkGDF None three_cells [("a"%string, [Fin 1; Fin 2; Fin 3])].


(** A layer whose column [a] is constant. *)
Definition df_const : GeoDataFrame Faces.geom :=
  mkGDF None three_cells [("a"%string, [Fin 5; Fin 5; Fin 5])].

(** Three layers in three different CRSs, and a model holding them. *)
Definition layer (epsg : Z) (g : Faces.geom) : GeoDataFrame Faces.geom :=
  mkGDF (Some epsg) [g] [].

Definition three_layers : list (GeoDataFrame Faces.geom) :=
  [layer 3857 [(1%Z, 4%N)]; layer 4326 [(2%Z, 1%N)]; layer 2263 [(3%Z, 2%N)]].

Definition model : EventSitingModel :=
  mkModel 0%nat 0%nat 1%nat 2%nat "hloss" "cell_id" [] [].

(** Four tracts with housing-loss values [1, 1, 1, 10]: mean [3.25],
    sample standard deviation [4.5]. *)
Definition four_cells : list Faces.geom :=
  [[(1%Z, 1%N)]; [(2%Z, 1%N)]; [(3%Z, 1%N)]; [(4%Z, 1%N)]].

Definition hloss : list float64 := [Fin 1; Fin 1; Fin 1; Fin 10].

Definition tract_layer : GeoDataFrame Faces.geom :=
  mkGDF (Some 4326%Z) four_cells [("hloss"%string, hloss)].


(** The rectangle x in [0, 2000], y in [0, 1000], in EPSG:3857. *)
Definition reference_ring : list point := [(0, 0); (2000, 0); (2000, 1000); (0, 1000)].

Definition reference_layer : GeoDataFrame Boxes.geom :=
  mkGDF (Some EPSG_3857) [[reference_ring]] [].

(** One source polygon with [pop = 100] that covers two destination
    cells of equal area exactly. *)
Definition county : GeoDataFrame Faces.geom :=
  mkGDF (Some EPSG_3857) [[(1%Z, 1%N); (2%Z, 1%N)]] [("pop"%string, [Fin 100])].

Definition two_cells : GeoDataFrame Faces.geom :=
  mkGDF (Some EPSG_3857) [[(1%Z, 1%N)]; [(2%Z, 1%N)]] [("cell_id"%string, [Fin 0; Fin 1])].

(** The layer [reaggregate] returns for them. *)
Definition two_cells_pop : GeoDataFrame Faces.geom :=
  mkGDF (Some EPSG_3857) [[(1%Z, 1%N)]; [(2%Z, 1%N)]]
        [("cell_id"%string, [Fin 0; Fin 1]); ("pop"%string, [Fin 100; Fin 100])].

(** Three destination cells under one source polygon with [pop = 7]:
    the first cell is a proper polygon whose area is [0] as a double,
    the second has area [1], the third is degenerate and covers no
    face. *)
Definition thin_county : GeoDataFrame Faces.geom :=
  mkGDF (Some EPSG_3857) [[(1%Z, 0%N); (2%Z, 1%N)]] [("pop"%string, [Fin 7])].

Definition thin_cells : GeoDataFrame Faces.geom :=
  mkGDF (Some EPSG_3857) [[(1%Z, 0%N)]; [(2%Z, 1%N)]; []]
        [("cell_id"%string, [Fin 0; Fin 1; Fin 2])].

(** The fragment tables lines 136-149 build for these pairs. *)
Definition county_fragments : GeoDataFrame Faces.geom :=
  mkGDF (Some EPSG_3857) [[(1%Z, 1%N)]; [(2%Z, 1%N)]]
        [("cell_id"%string, [Fin 0; Fin 1]); ("pop"%string, [Fin 100; Fin 100]);
         ("fragment_area"%string, [Fin 1; Fin 1]);
         ("dst_unit_area"%string, [Fin 1; Fin 1]);
         ("fragment_area_pct"%string, [Fin 1; Fin 1])].

Definition thin_fragments : GeoDataFrame Faces.geom :=
  mkGDF (Some EPSG_3857) [[(1%Z, 0%N)]; [(2%Z, 1%N)]]
        [("cell_id"%string, [Fin 0; Fin 1]); ("pop"%string, [Fin 7; Fin 7]);
         ("fragment_area"%string, [Fin 0; Fin 1]);
         ("dst_unit_area"%string, [Fin 0; Fin 1]);
         ("fragment_area_pct"%string, [NaN; Fin 1])].

(** The layer [reaggregate] returns for the three cells. *)
Definition thin_cells_pop : GeoDataFrame Faces.geom :=
  mkGDF (Some EPSG_3857) [[(1%Z, 0%N)]; [(2%Z, 1%N)]; []]
        [("cell_id"%string, [Fin 0; Fin 1; Fin 2]); ("pop"%string, [Fin 0; Fin 7; NaN])].

(** Layers without a CRS. *)
Definition naive_layer : GeoDataFrame Boxes.geom := mkGDF None [[reference_ring]] [].

Definition naive_cells : GeoDataFrame Faces.geom :=
  mkGDF None [[(1%Z, 1%N)]] [("cell_id"%string, [Fin 0])].

(** A source polygon with [pop = 100] that covers the first of the two
    cells only. *)
Definition west_county : GeoDataFrame Faces.geom :=
  mkGDF (Some EPSG_3857) [[(1%Z, 1%N)]] [("pop"%string, [Fin 100])].

(** A model whose tract data is the first and whose grid is the second
    object of the store, scoring the given variables. *)
Definition scoring_model (vars : list string) : EventSitingModel :=
  mkModel 0%nat 0%nat 0%nat 1%nat "hloss" "cell_id" vars [].

End Examples.

(** A table given by its records and, for each column, the function that
    reads the cell of a record: the row-wise view of a column table. *)
Definition materialize {X} (rows : list X) (rc : list (string * (X -> float64))) : Columns :=
  map (fun '(k, g) => (k, map g rows)) rc.

Fixpoint rc_lookup {X} (name : string) (rc : list (string * (X -> float64)))
    : option (X -> float64) :=
  match rc with
  | [] => None
  | (k, g) :: rc' => if String.eqb k name then Some g else rc_lookup name rc'
  end.

Fixpoint rc_set {X} (name : string) (g : X -> float64) (rc : list (string * (X -> float64)))
    : list (string * (X -> float64)) :=
  match rc with
  | [] => [(name, g)]
  | (k, w) :: rc' =>
      if String.eqb k name then (k, g) :: rc' else (k, w) :: rc_set name g rc'
  end.

(** A fragment with the positions of its parent records. *)
Abbreviation frow geom := (option nat * option nat * geom)%type (only parsing).

Section FragmentView.
Context {geom : Type} `{Projection geom} `{Overlay geom}.

(** The identifier of the destination record a fragment lies in. *)
Definition frag_key (ids : list float64) (p : frow geom) : float64 := Table.parent_cell ids p.1.1.

(** The value a fragment inherits from its source record. *)
Definition frag_src (v : list float64) (p : frow geom) : float64 := Table.parent_cell v p.1.2.

(** [fragment_area]: the area of the fragment once projected from the
    CRS [c] of the overlay to EPSG:3857. *)
Definition frag_area (c : Z) (p : frow geom) : float64 := Fin (area (transform c EPSG_3857 p.2)).

(** The fragments of the destination record with identifier [k]. *)
Definition fragments_in (ids : list float64) (k : float64) (parents : list (frow geom)) : list (frow geom) :=
  List.filter (fun p => feqb (frag_key ids p) k) parents.

(** [dst_unit_area] of identifier [k]: the summed area of its fragments. *)
Definition dst_unit_area (c : Z) (ids : list float64) (parents : list (frow geom)) (k : float64)
    : float64 :=
  Pandas.sum (map (frag_area c) (fragments_in ids k parents)).

(** [fragment_area_pct] of a fragment. *)
Definition frag_pct (c : Z) (ids : list float64) (parents : list (frow geom)) (p : frow geom) : float64 :=
  fdiv (frag_area c p) (dst_unit_area c ids parents (frag_key ids p)).

(** The fragments that lie in a destination record with an identifier:
    the rows of the fragment table after the inner merge. *)
Definition kept (ids : list float64) (parents : list (frow geom)) : list (frow geom) :=
  List.filter (fun p => notna (frag_key ids p)) parents.

(** The columns each layer contributes to the fragment table. *)
Definition dst_rc (dst : GeoDataFrame geom) : list (string * (frow geom -> float64)) :=
  map (fun '(k, v) => (k, frag_key v)) (columns dst).

Definition src_rc (src : GeoDataFrame geom) : list (string * (frow geom -> float64)) :=
  map (fun '(k, v) => (k, frag_src v)) (columns src).

(** The fragment table of lines 136-149, row by row. *)
Definition fragment_rc (c : Z) (ids : list float64) (dst src : GeoDataFrame geom)
    (parents : list (frow geom)) : list (string * (frow geom -> float64)) :=
  rc_set "fragment_area_pct" (frag_pct c ids parents)
    (rc_set "fragment_area" (frag_area c) (dst_rc dst ++ src_rc src)
     ++ [("dst_unit_area"%string, fun p => dst_unit_area c ids parents (frag_key ids p))]).

(** The layers [reaggregate] is meant for: the destination layer has
    the identifier column, the two layers share no column name, none of
    their columns is called [dst_unit_area], and the identifier column is
    not called like one of the three working columns. *)
Definition compatible_layers (dst src : GeoDataFrame geom) (dst_id : string)
    (ids : list float64) : Prop :=
  col_lookup dst_id (columns dst) = Some ids
  /\ (forall k, Table.has_col k (columns dst) = true -> col_lookup k (columns src) = None)
  /\ col_lookup "dst_unit_area" (columns dst) = None
  /\ col_lookup "dst_unit_area" (columns src) = None
  /\ dst_id <> "fragment_area"%string
  /\ dst_id <> "dst_unit_area"%string
  /\ dst_id <> "fragment_area_pct"%string.

End FragmentView.

(** The sum of a real quantity over a list of records. *)
Definition Rsum {X} (f : X -> R) (l : list X) : R := foldr (fun x acc => f x + acc) 0 l.

(** The numbers a column holds, in order: missing and infinite cells are
    left out. *)
Definition values (c : Pandas.Series) : list R :=
  omap (fun x => match x with Fin r => Some r | _ => None end) c.

Definition no_infinite (c : Pandas.Series) : Prop :=
  Forall (fun x => x <> PInf /\ x <> NInf) c.


(** Mean, sum of squared deviations and sample standard deviation of a
    list of reals. *)
Definition Rmean (ys : list R) : R := Rsum (fun y => y) ys / IZR (Z.of_nat (length ys)).

Definition Rssd (ys : list R) : R := Rsum (fun y => (y - Rmean ys) * (y - Rmean ys)) ys.

Definition Rstd (ys : list R) : R := sqrt (Rssd ys / IZR (Z.of_nat (length ys - 1))).


(** [b] is not above [a]: as numbers [b <= a]; if either is missing or
    infinite, they are the same value. *)
Definition not_above (b a : float64) : Prop :=
  match b, a with Fin x, Fin y => x <= y | _, _ => b = a end.

Section Areas.
Context {geom : Type} `{Projection geom} `{Overlay geom}.

(** The area of a fragment as a real number. *)
Definition area_of (c : Z) (p : frow geom) : R := area (transform c EPSG_3857 p.2).

End Areas.

(** The loop of [reaggregate] over [agg_vars], row by row. *)
Fixpoint rc_redistribute {X} (agg_vars : list string) (rc : list (string * (X -> float64)))
    : result (list (string * (X -> float64))) :=
  match agg_vars with
  | [] => Ok rc
  | var :: rest =>
      match rc_lookup var rc with
      | None => Raise (KeyError var)
      | Some g =>
          match rc_lookup "fragment_area_pct" rc with
          | None => Raise (KeyError "fragment_area_pct")
          | Some q => rc_redistribute rest (rc_set var (fun r => fmul (g r) (q r)) rc)
          end
      end
  end.

Section Pure.
Context {geom : Type} `{Projection geom} `{Overlay geom}.

(** Lines 132-133 of [reaggregate]: the source layer in the CRS of the
    destination layer. *)
Definition align (dst src : GeoDataFrame geom) : result (GeoDataFrame geom) :=
  if negb (crs_eqb (crs dst) (crs src)) then to_crs src (crs dst) else Ok src.

(** [reaggregate] on the two layers themselves. *)
Definition reaggregate_frames (src dst : GeoDataFrame geom) (dst_id : string)
    (agg_vars : list string) : result (GeoDataFrame geom) :=
  src ← align dst src;
  fragment_df ← weighted_fragments src dst dst_id;
  fragment_df ← redistribute agg_vars fragment_df;
  aggregate dst fragment_df dst_id agg_vars.

End Pure.

(* ===================================================================== *)
(** ** Vocabulary and example for utils/parse_address.py *)
(* ===================================================================== *)

(** The pairs of a list of groups, one per value. *)
Definition ungroup {V} (groups : list (string * list V)) : list (string * V) :=
  flat_map (fun '(k, vs) => map (pair k) vs) groups.

(** A tag is categorized when a list of the crosswalk has it. *)
Definition categorized (crosswalk : list (string * list string)) (tag : string) : Prop :=
  exists k v, In (k, v) crosswalk /\ In tag v.

(** The category the crosswalk gives a tag (the empty string if none). *)
Definition category (crosswalk : list (string * list string)) (tag : string) : string :=
  default EmptyString (dict_get tag (AddressParser._reverse_crosswalk crosswalk)).

(** The tokens of an address in runs of consecutive tokens of one
    category. *)
Definition token_runs (crosswalk : list (string * list string))
    (tagged : list (string * string)) : list (string * list string) :=
  AddressParser._merge_tuples_by_key
    (map (fun '(token, tag) => (category crosswalk tag, token)) tagged).

(** The last run of category [K], if there is one. *)
Definition last_run (K : string) (runs : list (string * list string)) : option (list string) :=
  last (map snd (List.filter (fun g => String.eqb g.1 K) runs)).

(** The tags usaddress gives the address of the repository's test. *)
Definition emmett_tagged : list (string * string) :=
  [("705", "AddressNumber"); ("W.", "StreetNamePreDirectional");
   ("EMMETT", "StreetName"); ("ST", "StreetNamePostType");
   ("KISSIMMEE", "PlaceName"); ("FL", "StateName"); ("34741", "ZipCode")]%string.

(** A tagger that knows this one address. *)
Definition emmett_usaddress (s : string) : list (string * string) :=
  if String.eqb s "705 W. EMMETT ST KISSIMMEE FL 34741" then emmett_tagged else [].

(* ===================================================================== *)
(** ** Evaluating the model on concrete numbers *)
(* ===================================================================== *)

Lemma Rsign_Eq r : r = 0 -> Rsign r = Eq.
Proof.
  intros ->. unfold Rsign.
  destruct (total_order_T 0 0) as [[Hlt|Heq]|Hgt]; try lra; reflexivity.
Qed.

Lemma Rsign_Gt r : 0 < r -> Rsign r = Gt.
Proof.
  intros Hr. unfold Rsign.
  destruct (total_order_T r 0) as [[Hlt|Heq]|Hgt]; try lra; reflexivity.
Qed.

Lemma Rsign_Lt r : r < 0 -> Rsign r = Lt.
Proof.
  intros Hr. unfold Rsign.
  destruct (total_order_T r 0) as [[Hlt|Heq]|Hgt]; try lra; reflexivity.
Qed.

Lemma Rsign_Eq_inv r : Rsign r = Eq -> r = 0.
Proof.
  unfold Rsign. destruct (total_order_T r 0) as [[Hlt|Heq]|Hgt]; congruence.
Qed.

(** A closed real expression read as a rational. *)
Ltac reifyQ e :=
  lazymatch e with
  | Rplus ?a ?b => let x := reifyQ a in let y := reifyQ b in constr:(QArith_base.Qplus x y)
  | Rminus ?a ?b => let x := reifyQ a in let y := reifyQ b in constr:(QArith_base.Qminus x y)
  | Rmult ?a ?b => let x := reifyQ a in let y := reifyQ b in constr:(QArith_base.Qmult x y)
  | Rdiv ?a ?b => let x := reifyQ a in let y := reifyQ b in constr:(QArith_base.Qdiv x y)
  | Ropp ?a => let x := reifyQ a in constr:(QArith_base.Qopp x)
  | IZR ?z => constr:(QArith_base.inject_Z z)
  end.

Ltac is_numeral e :=
  lazymatch e with
  | IZR ?z => idtac
  | Rdiv (IZR ?n) (IZR ?d) => idtac
  end.

Ltac Rnorm_term e :=
  let q := reifyQ e in
  let v := eval vm_compute in (Qreduction.Qred q) in
  lazymatch v with
  | QArith_base.Qmake ?n 1%positive => constr:(IZR n)
  | QArith_base.Qmake ?n ?d => constr:(Rdiv (IZR n) (IZR (Zpos d)))
  end.

(** Closed arithmetic under [Fin] is replaced by its value. *)
Ltac fin_norm :=
  repeat match goal with
  | |- context [Fin ?e] =>
      tryif is_numeral e then fail
      else (let v := Rnorm_term e in replace e with v by (first [lra | field; lra]))
  end.

Ltac rsign :=
  repeat match goal with
  | |- context [Rsign ?e] =>
      first [ rewrite (Rsign_Eq e) by lra
            | rewrite (Rsign_Gt e) by lra
            | rewrite (Rsign_Lt e) by lra ]
  end.

(** Square roots of closed rational squares. *)
Ltac sqrt_norm :=
  repeat match goal with
  | |- context [sqrt ?e] =>
      let q := reifyQ e in
      let v := eval vm_compute in (Qreduction.Qred q) in
      lazymatch v with
      | QArith_base.Qmake ?n ?d =>
          let rn := eval vm_compute in (Z.sqrt n) in
          let rd := eval vm_compute in (Z.sqrt (Zpos d)) in
          lazymatch rd with
          | 1%Z => replace (sqrt e) with (IZR rn) by (symmetry; apply sqrt_lem_1; lra)
          | _ => replace (sqrt e) with (Rdiv (IZR rn) (IZR rd))
                   by (symmetry; apply sqrt_lem_1; lra)
          end
      end
  end.

(** Closed integers under [IZR] are replaced by their value. *)
Ltac znat_norm :=
  repeat match goal with
  | |- context [IZR ?z] =>
      let v := eval vm_compute in z in
      progress change (IZR z) with (IZR v)
  end.

Ltac munfold :=
  unfold mbind, mret, M_bind, M_ret, result_bind, result_ret, lift, raise,
    getitem, setitem, load, store, alloc in *.

Ltac feval := repeat (progress (munfold; cbn; znat_norm; sqrt_norm; rsign; fin_norm)).

(* ===================================================================== *)
(** * Properties *)
(* ===================================================================== *)

(** ** Columns *)

Lemma col_lookup_set_eq name v cs : col_lookup name (col_set name v cs) = Some v.
Proof.
  induction cs as [|[k w] cs IH]; cbn.
  - now rewrite String.eqb_refl.
  - destruct (String.eqb k name) eqn:E; cbn; rewrite E; auto.
Qed.

Lemma col_lookup_set_ne name name' v cs :
  name <> name' -> col_lookup name' (col_set name v cs) = col_lookup name' cs.
Proof.
  intros Hne. induction cs as [|[k w] cs IH]; cbn.
  - destruct (String.eqb name name') eqn:E; auto.
    apply String.eqb_eq in E. contradiction.
  - destruct (String.eqb k name) eqn:E; cbn.
    + apply String.eqb_eq in E. subst k.
      destruct (String.eqb name name') eqn:E'; auto.
      apply String.eqb_eq in E'. contradiction.
    + destruct (String.eqb k name'); auto.
Qed.

Lemma col_set_set name v w cs : col_set name v (col_set name w cs) = col_set name v cs.
Proof.
  induction cs as [|[k u] cs IH]; cbn.
  - now rewrite String.eqb_refl.
  - destruct (String.eqb k name) eqn:E; cbn; rewrite E; auto. now rewrite IH.
Qed.

Lemma str_in_In x l : str_in x l = true <-> In x l.
Proof.
  unfold str_in. rewrite existsb_exists. split.
  - intros (y & Hy & E). apply String.eqb_eq in E. now subst.
  - intros Hx. exists x. split; auto. apply String.eqb_refl.
Qed.

(** ** Running computations on the store *)

Section Run.
Context {geom : Type}.
Implicit Types (h : heap geom) (d : GeoDataFrame geom).

Lemma run_bind {A B} (m : M geom A) (k : A -> M geom B) h :
  (m ≫= k) h = match m h with
               | (Ok a, h') => k a h'
               | (Raise e, h') => (Raise e, h')
               end.
Proof. reflexivity. Qed.

Lemma run_ret {A} (a : A) h : (mret a : M geom A) h = (Ok a, h).
Proof. reflexivity. Qed.

Lemma run_lift {A} (r : result A) h : (lift r : M geom A) h = (r, h).
Proof. reflexivity. Qed.

Lemma run_load l h d : h !! l = Some d -> load l h = (Ok d, h).
Proof. unfold load. now intros ->. Qed.

Lemma run_load_None l h : h !! l = None -> load (geom:=geom) l h = (Raise NameError, h).
Proof. unfold load. now intros ->. Qed.

Lemma run_getitem l name h d :
  h !! l = Some d ->
  getitem l name h = (Table.col_get name (columns d), h).
Proof.
  intros Hd. unfold getitem, Table.col_get. rewrite run_bind, (run_load _ _ _ Hd).
  now destruct (col_lookup name (columns d)).
Qed.

Lemma run_setitem l name v h d :
  h !! l = Some d ->
  setitem l name v h = (Ok tt, <[l := df_set name v d]> h).
Proof.
  intros Hd. unfold setitem. now rewrite run_bind, (run_load _ _ _ Hd).
Qed.

Lemma with_columns_id d : with_columns d (columns d) = d.
Proof. now destruct d. Qed.

Lemma preserves_refl h : preserves h h.
Proof. now intros l df. Qed.

Lemma preserves_trans h1 h2 h3 : preserves h1 h2 -> preserves h2 h3 -> preserves h1 h3.
Proof. intros H12 H23 l df Hl. auto. Qed.

Lemma preserves_app h extra : preserves h (h ++ extra).
Proof. intros l df Hl. now apply lookup_app_l_Some. Qed.


(** ** The loop of generate_index_score *)

Lemma standardize_vars_spec std_func neg_vars vars : forall h df d,
  h !! df = Some d ->
  standardize_vars std_func df neg_vars vars h =
    let '(r, cs) := loop_columns std_func neg_vars vars (columns d) in
    (r, <[df := with_columns d cs]> h).
Proof.
  induction vars as [|var rest IH]; intros h df d Hd; simpl.
  - rewrite run_ret, with_columns_id, list_insert_id; done.
  - assert (Hlt : (df < length h)%nat) by (eapply lookup_lt_Some; eauto).
    rewrite run_bind, (run_getitem _ _ _ _ Hd). unfold Table.col_get.
    destruct (col_lookup var (columns d)) as [v|] eqn:Hv.
    2:{ rewrite with_columns_id, list_insert_id; done. }
    rewrite run_bind, (run_setitem _ _ _ _ _ Hd), run_bind.
    pose proof (list_lookup_insert_eq h df (df_set var (std_func v) d) Hlt) as Hd1.
    destruct (str_in var neg_vars) eqn:Hneg.
    + rewrite run_bind, (run_getitem _ _ _ _ Hd1). unfold Table.col_get, df_set at 1.
      simpl columns. rewrite col_lookup_set_eq.
      rewrite (run_setitem _ _ _ _ _ Hd1), list_insert_insert_eq.
      unfold df_set; simpl. rewrite col_set_set.
      erewrite IH by (apply list_lookup_insert_eq; done).
      simpl. destruct (loop_columns _ _ _ _) as [r cs].
      now rewrite list_insert_insert_eq.
    + rewrite run_ret.
      erewrite IH by (apply list_lookup_insert_eq; done).
      simpl. destruct (loop_columns _ _ _ _) as [r cs].
      now rewrite list_insert_insert_eq.
Qed.

Lemma getitems_spec names : forall l h d,
  h !! l = Some d ->
  getitems l names h = (lookup_all names (columns d), h).
Proof.
  induction names as [|name rest IH]; intros l h d Hd; simpl.
  - reflexivity.
  - rewrite run_bind, (run_getitem _ _ _ _ Hd). unfold Table.col_get.
    destruct (col_lookup name (columns d)) as [v|]; [|reflexivity].
    rewrite run_bind, (IH l h d Hd).
    destruct (lookup_all rest (columns d)); reflexivity.
Qed.

Lemma generate_index_score_spec df pos_vars neg_vars std_method std_func h d :
  h !! df = Some d ->
  std_func_all std_method = Some std_func ->
  generate_index_score df pos_vars neg_vars std_method h =
    let '(r, cs) := loop_columns std_func neg_vars (pos_vars ++ neg_vars) (columns d) in
    (match r with
     | Ok _ =>
         match lookup_all (pos_vars ++ neg_vars) cs with
         | Ok sel => Ok (mean_axis1 (nrows d) sel)
         | Raise e => Raise e
         end
     | Raise e => Raise e
     end, <[df := with_columns d cs]> h).
Proof.
  intros Hd Hf. unfold generate_index_score. rewrite Hf.
  rewrite run_bind, (standardize_vars_spec _ _ _ _ _ _ Hd).
  destruct (loop_columns _ _ _ _) as [[[]|e] cs]; [|reflexivity].
  assert (Hlt : (df < length h)%nat) by (eapply lookup_lt_Some; eauto).
  pose proof (list_lookup_insert_eq h df (with_columns d cs) Hlt) as Hd1.
  rewrite run_bind, (getitems_spec _ _ _ _ Hd1). simpl columns.
  destruct (lookup_all _ cs) as [sel|e]; [|reflexivity].
  rewrite run_bind, (run_load _ _ _ Hd1). reflexivity.
Qed.

End Run.

(** ** Rules for triples; the invariant [preserves h0] *)

Section Triples.
Context {geom : Type}.
Implicit Types (h : heap geom) (d : GeoDataFrame geom).

Lemma triple_ret {A} (P : heap geom -> Prop) (a : A) (Q : A -> heap geom -> Prop) E :
  (forall h, P h -> Q a h) -> triple P (mret a) Q E.
Proof. intros HQ h HP. simpl. auto. Qed.


Lemma triple_bind {A B} P (m : M geom A) (k : A -> M geom B) Q1 Q E :
  triple P m Q1 E -> (forall a, triple (Q1 a) (k a) Q E) -> triple P (m ≫= k) Q E.
Proof.
  intros Hm Hk h HP. rewrite run_bind. specialize (Hm h HP).
  destruct (m h) as [[a|e] h1]; auto. now apply Hk.
Qed.

Lemma triple_weaken {A} (P P' : heap geom -> Prop) (m : M geom A) (Q Q' : A -> heap geom -> Prop) E :
  triple P' m Q' E -> (forall h, P h -> P' h) -> (forall a h, Q' a h -> Q a h) ->
  triple P m Q E.
Proof.
  intros Hm HP HQ h Hh. specialize (Hm h (HP h Hh)).
  destruct (m h) as [[a|e] h1]; auto.
Qed.

Lemma triple_lift {A} (P : heap geom -> Prop) (r : result A) :
  triple P (lift r) (fun _ => P) P.
Proof. intros h HP. unfold lift. now destruct r. Qed.

Lemma triple_load (P : heap geom -> Prop) l : triple P (load l) (fun _ => P) P.
Proof. intros h HP. unfold load. now destruct (h !! l). Qed.


Lemma triple_alloc h0 d :
  triple (preserves h0) (alloc d)
         (fun l h => preserves h0 h /\ fresh_for h0 l) (preserves h0).
Proof.
  intros h HP. unfold alloc. split.
  - eapply preserves_trans; [exact HP|apply preserves_app].
  - unfold fresh_for. destruct (decide (length h0 <= length h)%nat) as [|Hn]; [done|].
    exfalso. destruct (lookup_lt_is_Some_2 h0 (length h)) as [x Hx]; [lia|].
    apply HP in Hx. apply lookup_lt_Some in Hx. lia.
Qed.





End Triples.

Section TriplesGeo.
Context {geom : Type} `{Projection geom} `{Overlay geom}.



End TriplesGeo.

(** ** What the loop of generate_index_score does to the columns *)

Lemma str_in_elem_of x l : str_in x l = true <-> x ∈ l.
Proof. rewrite str_in_In. symmetry. apply list_elem_of_In. Qed.

Lemma loop_columns_other f neg_vars vars : forall cs name,
  name ∉ vars ->
  col_lookup name (loop_columns f neg_vars vars cs).2 = col_lookup name cs.
Proof.
  induction vars as [|var rest IH]; intros cs name Hn; simpl; [done|].
  apply not_elem_of_cons in Hn as [Hne Hn].
  destruct (col_lookup var cs) as [v|]; [|done].
  rewrite IH by done. now apply col_lookup_set_ne.
Qed.

Lemma loop_columns_listed f neg_vars vars : forall cs,
  NoDup vars ->
  (forall var, var ∈ vars -> is_Some (col_lookup var cs)) ->
  (loop_columns f neg_vars vars cs).1 = Ok tt /\
  forall var c, var ∈ vars -> col_lookup var cs = Some c ->
    col_lookup var (loop_columns f neg_vars vars cs).2
    = Some (if str_in var neg_vars then Pandas.neg (f c) else f c).
Proof.
  induction vars as [|var rest IH]; intros cs Hnd Hall; simpl.
  - split; [done|]. intros var c Hin. now apply elem_of_nil in Hin.
  - apply NoDup_cons in Hnd as [Hnotin Hnd].
    destruct (Hall var) as [v Hv]; [left|]. rewrite Hv.
    set (w := if str_in var neg_vars then Pandas.neg (f v) else f v).
    destruct (IH (col_set var w cs) Hnd) as [Hok Hcols].
    { intros var' Hin'. destruct (decide (var = var')) as [<-|Hne].
      - rewrite col_lookup_set_eq. eauto.
      - rewrite col_lookup_set_ne by done. apply Hall. now right. }
    split; [done|]. intros var' c Hin Hc.
    apply elem_of_cons in Hin as [->|Hin].
    + rewrite loop_columns_other by done. rewrite col_lookup_set_eq.
      rewrite Hv in Hc. now inversion Hc; subst.
    + assert (var <> var') by (intros ->; contradiction).
      apply Hcols; [done|]. now rewrite col_lookup_set_ne.
Qed.

(* ===================================================================== *)
(** ** Inputs and the store: what is mutated and what is not *)
(* ===================================================================== *)


Section Frame.
Context {geom : Type} `{Projection geom} `{Overlay geom}.
Implicit Types (h : heap geom) (d : GeoDataFrame geom).

Lemma triple_run {A} h (m : M geom A) r h' :
  triple (preserves h) m (fun _ => preserves h) (preserves h) ->
  m h = (r, h') -> preserves h h'.
Proof.
  intros Ht Hm. specialize (Ht h (preserves_refl h)). rewrite Hm in Ht. now destruct r.
Qed.


(** C10: whatever the CRSs of the three layers, and whether the method
    returns or raises, the objects the model's [tracts], [pois] and
    [grid] attributes refer to are what they were before the call, CRS
    included; the method assigns no attribute of the model. *)
Theorem standardize_projections_keeps_model_layers
    (self : EventSitingModel) (target_epsg : Z) h r h' l d :
  _standardize_projections self target_epsg h = (r, h') ->
  l ∈ [tracts self; pois self; grid self] ->
  h !! l = Some d ->
  h' !! l = Some d /\ crs <$> h' !! l = crs <$> h !! l.
Proof.
  intros Hrun _ Hd.
  assert (Hp : preserves h h').
  { refine (triple_run _ _ _ _ _ Hrun). unfold _standardize_projections.
    generalize [tracts self; pois self; grid self]. intros ls.
    induction ls as [|gdf rest IH]; simpl; [now apply triple_ret|].
    eapply triple_bind; [|intros ?; apply IH].
    unfold standardize_projection.
    eapply triple_bind; [apply triple_load|]. intros df.
    destruct (negb _); [|now apply triple_ret].
    eapply triple_bind; [apply triple_lift|]. intros p.
    eapply triple_weaken; [apply triple_alloc|auto|]. now intros a h1 [? _]. }
  rewrite (Hp _ _ Hd), Hd. auto.
Qed.

End Frame.

Lemma standardize_projections_keeps_model_layers_witness :
  (_standardize_projections Examples.model 4326 Examples.three_layers).2 !! 0%nat
  = Some (Examples.layer 3857 [(1%Z, 4%N)]).
Proof.
  refine (proj1 (standardize_projections_keeps_model_layers
            Examples.model 4326 Examples.three_layers _ _ 0%nat _ _ _ _)).
  - apply surjective_pairing.
  - simpl. left.
  - reflexivity.
Defined.


(* ===================================================================== *)
(** ** Standardising a constant column *)
(* ===================================================================== *)

Lemma fdiv_zero_zero : fdiv (Fin 0) (Fin 0) = NaN.
Proof. simpl. now rewrite !Rsign_Eq. Qed.

Lemma all_nan_mean row : all_nan row -> Pandas.mean row = NaN.
Proof.
  intros Hrow. unfold Pandas.mean, Pandas.sum, Pandas.count.
  assert (Hd : Pandas.dropna row = []).
  { induction Hrow as [|x row Hx _ IH]; [done|]. subst x. simpl. exact IH. }
  rewrite Hd. simpl. apply fdiv_zero_zero.
Qed.

Lemma mean_skips_nan row : Pandas.mean (NaN :: row) = Pandas.mean row.
Proof. reflexivity. Qed.

Lemma all_nan_lookup (c : list float64) i : all_nan c -> default NaN (c !! i) = NaN.
Proof.
  intros Hc. destruct (c !! i) as [x|] eqn:Hx; [|done]. simpl.
  unfold all_nan in Hc. rewrite Forall_forall in Hc. apply Hc.
  eapply list_elem_of_lookup_2; eauto.
Qed.

Lemma mean_axis1_skips_nan_column n c cols :
  all_nan c -> mean_axis1 n (c :: cols) = mean_axis1 n cols.
Proof.
  intros Hc. unfold mean_axis1. apply map_ext. intros i. simpl.
  now rewrite all_nan_lookup.
Qed.

Lemma mean_axis1_all_nan n cols :
  Forall all_nan cols -> mean_axis1 n cols = map (fun _ => NaN) (seq 0 n).
Proof.
  intros Hcols. unfold mean_axis1. apply map_ext. intros i.
  apply all_nan_mean. induction Hcols as [|c cols Hc _ IH]; simpl.
  - constructor.
  - constructor; [now apply all_nan_lookup|exact IH].
Qed.

(** A sum of squared deviations is finite only if every deviation is,
    and is zero only if every deviation is. *)
Lemma sum_sq_zero m (l : list float64) s :
  foldr fadd (Fin 0) (map (fun x => fmul (fsub x m) (fsub x m)) l) = Fin s ->
  0 <= s /\ (s = 0 -> Forall (fun x => fsub x m = Fin 0) l).
Proof.
  revert s. induction l as [|x l IH]; intros s Hs; simpl in Hs.
  - inversion Hs. split; [lra|constructor].
  - destruct (foldr fadd (Fin 0) (map _ l)) as [t| | |] eqn:Ht;
      destruct (fsub x m) as [dx| | |] eqn:Hdx; simpl in Hs; try discriminate.
    inversion Hs; subst s. destruct (IH t eq_refl) as [Ht0 Hall].
    split; [nra|]. intros Hz.
    assert (dx = 0) by nra. assert (t = 0) by nra. subst.
    constructor; auto.
Qed.

Lemma standardize_zero_std ds :
  Pandas.std ds = Fin 0 -> standardize ds = map (fun _ => NaN) ds.
Proof.
  intros Hstd0. pose proof Hstd0 as Hstd. unfold Pandas.std in Hstd.
  destruct (Pandas.count ds <=? 1)%nat eqn:Hn; [discriminate|].
  apply Nat.leb_gt in Hn.
  set (m := Pandas.mean ds) in *.
  destruct (foldr fadd (Fin 0) (map _ (Pandas.dropna ds))) as [s| | |] eqn:Hs;
    simpl in Hstd; try discriminate.
  all: assert (Hpos : 0 < IZR (Z.of_nat (Pandas.count ds - 1))) by (apply IZR_lt; lia).
  2,3: rewrite (Rsign_Gt _ Hpos) in Hstd; discriminate.
  rewrite (Rsign_Gt _ Hpos) in Hstd. simpl in Hstd.
  destruct (sum_sq_zero _ _ _ Hs) as [Hs0 Hall].
  assert (Hq : 0 <= s / IZR (Z.of_nat (Pandas.count ds - 1))).
  { apply Rmult_le_pos; [lra|]. left. now apply Rinv_0_lt_compat. }
  assert (Hzero : s = 0).
  { destruct (Rsign (s / _)) eqn:Hsg; try discriminate.
    - apply Rsign_Eq_inv in Hsg.
      apply Rmult_integral in Hsg as [|Hinv]; [done|].
      pose proof (Rinv_0_lt_compat _ Hpos). lra.
    - inversion Hstd as [Hroot].
      assert (Hgt : 0 < s / IZR (Z.of_nat (Pandas.count ds - 1))).
      { unfold Rsign in Hsg.
        destruct (total_order_T _ 0) as [[|]|]; try discriminate. lra. }
      pose proof (sqrt_lt_R0 _ Hgt). lra. }
  specialize (Hall Hzero).
  unfold standardize. rewrite Hstd0. fold m.
  unfold Pandas.div_scalar, Pandas.sub_scalar. rewrite map_map.
  apply map_ext_in. intros x Hx.
  destruct (notna x) eqn:Hna.
  - rewrite Forall_forall in Hall.
    rewrite (Hall x).
    + apply fdiv_zero_zero.
    + apply list_elem_of_In. unfold Pandas.dropna. apply filter_In. split; auto.
  - destruct x; try discriminate. reflexivity.
Qed.

Lemma standardize_all_nan ds : all_nan ds -> all_nan (standardize ds).
Proof.
  unfold all_nan, standardize, Pandas.div_scalar, Pandas.sub_scalar.
  rewrite map_map. intros Hds. apply Forall_map.
  eapply Forall_impl; [exact Hds|]. now intros x ->.
Qed.

Lemma neg_all_nan ds : all_nan ds -> all_nan (Pandas.neg ds).
Proof.
  unfold all_nan, Pandas.neg. intros Hds. apply Forall_map.
  eapply Forall_impl; [exact Hds|]. now intros x ->.
Qed.

Lemma all_nan_const (ds : list float64) : all_nan (map (fun _ => NaN) ds).
Proof. unfold all_nan. apply Forall_map. now apply Forall_true. Qed.

Lemma no_signal_standardize c : no_signal c -> all_nan (standardize c).
Proof.
  intros [Hz|Hn].
  - rewrite standardize_zero_std by done. apply all_nan_const.
  - now apply standardize_all_nan.
Qed.

Lemma loop_columns_no_signal neg_vars vars : forall cs,
  (forall var, var ∈ vars -> exists c, col_lookup var cs = Some c /\ no_signal c) ->
  (loop_columns standardize neg_vars vars cs).1 = Ok tt /\
  forall var, var ∈ vars ->
    exists c, col_lookup var (loop_columns standardize neg_vars vars cs).2 = Some c /\ all_nan c.
Proof.
  induction vars as [|var rest IH]; intros cs Hall; simpl.
  - split; [done|]. intros var Hin. now apply elem_of_nil in Hin.
  - destruct (Hall var) as (c & Hc & Hsig); [left|]. rewrite Hc.
    set (w := if str_in var neg_vars then Pandas.neg (standardize c) else standardize c).
    assert (Hw : all_nan w).
    { unfold w. destruct (str_in var neg_vars);
        [apply neg_all_nan|]; now apply no_signal_standardize. }
    destruct (IH (col_set var w cs)) as [Hok Hcols].
    { intros var' Hin'. destruct (decide (var = var')) as [<-|Hne].
      - rewrite col_lookup_set_eq. exists w. split; [done|now right].
      - rewrite col_lookup_set_ne by done. apply Hall. now right. }
    split; [done|]. intros var' Hin.
    destruct (decide (var' ∈ rest)) as [Hr|Hr]; [now apply Hcols|].
    apply elem_of_cons in Hin as [->|Hin]; [|contradiction].
    rewrite loop_columns_other by done. rewrite col_lookup_set_eq. eauto.
Qed.

Lemma lookup_all_Forall (P : list float64 -> Prop) names : forall cs,
  (forall var, var ∈ names -> exists c, col_lookup var cs = Some c /\ P c) ->
  exists sel, lookup_all names cs = Ok sel /\ Forall P sel.
Proof.
  induction names as [|name rest IH]; intros cs Hall; simpl.
  - exists []. split; [done|constructor].
  - destruct (Hall name) as (c & -> & Hc); [left|].
    destruct (IH cs) as (sel & -> & Hsel).
    { intros var Hin. apply Hall. now right. }
    exists (c :: sel). split; [done|]. now constructor.
Qed.

(** C5, as stated, fails: the constant column [5, 5, 5] has standard
    deviation [0], is standardised to three missing values, not to three
    zeros, and the composite score of each of its rows is missing. *)
Lemma standardize_constant_column_gives_nan :
  Pandas.std [Fin 5; Fin 5; Fin 5] = Fin 0
  /\ standardize [Fin 5; Fin 5; Fin 5] = [NaN; NaN; NaN]
  /\ standardize [Fin 5; Fin 5; Fin 5] <> [Fin 0; Fin 0; Fin 0]
  /\ (generate_index_score 0%nat ["a"%string] [] "standardize" [Examples.df_const]).1
     = Ok [NaN; NaN; NaN].
Proof.
  assert (Hstd : Pandas.std [Fin 5; Fin 5; Fin 5] = Fin 0).
  { unfold Pandas.std, Pandas.mean. feval. reflexivity. }
  assert (Hnan : standardize [Fin 5; Fin 5; Fin 5] = [NaN; NaN; NaN]).
  { now rewrite standardize_zero_std. }
  repeat split; auto.
  - rewrite Hnan. discriminate.
  - erewrite generate_index_score_spec; [|reflexivity|reflexivity].
    unfold Examples.df_const. simpl loop_columns. rewrite Hnan. simpl.
    rewrite mean_axis1_all_nan; [reflexivity|]. repeat constructor.
Qed.

(* ===================================================================== *)
(** ** Outlier tracts by z-score *)
(* ===================================================================== *)

(** C4: with [min_zscore] alone, the method compares the single number
    [mean / std] with the threshold and indexes the table with the
    resulting boolean, which raises; it never returns a selection.  On
    the tract values [1, 1, 1, 10] with threshold [1] the individual
    z-scores select the last tract only ([z = 1.5]), and the method
    raises [KeyError]. *)
Theorem zscore_branch_never_selects :
  (forall (self : EventSitingModel) z (h : list (GeoDataFrame Faces.geom)),
      exists e, (_get_tracts_of_interest self None (Some z) h).1 = Raise e)
  /\ _get_tracts_of_interest Examples.model None (Some (Fin 1)) [Examples.tract_layer]
     = (Raise (KeyError "False"), [Examples.tract_layer])
  /\ individual_zscore_mask Examples.hloss (Fin 1) = [false; false; false; true].
Proof.
  split; [|split].
  - intros self z h. unfold _get_tracts_of_interest. simpl.
    rewrite run_bind. unfold getitem. rewrite run_bind.
    unfold load. destruct (h !! tract_data self) as [d|]; [|eauto].
    destruct (col_lookup _ (columns d)); [|eexists; reflexivity].
    rewrite run_ret. unfold getitem_scalar, raise. eauto.
  - unfold _get_tracts_of_interest, Pandas.std, Pandas.mean, Examples.tract_layer,
      Examples.hloss.
    feval. reflexivity.
  - unfold individual_zscore_mask, standardize, Pandas.std, Pandas.mean, Examples.hloss.
    feval. reflexivity.
Qed.

(* ===================================================================== *)
(** ** The grid over a 2000 m x 1000 m rectangle *)
(* ===================================================================== *)

Lemma Zceil_IZR (z : Z) : Zceil (IZR z) = z.
Proof. unfold Zceil. rewrite ZfloorNZ. lia. Qed.

(** On whole-metre bounds the rounding to two decimals changes nothing. *)
Lemma create_grid_coords_whole (a b size : Z) :
  _create_grid_coords_1d (Fin (IZR a)) (Fin (IZR b)) size 2
  = arange (Fin (IZR a)) (Fin (IZR b)) size.
Proof.
  unfold _create_grid_coords_1d. simpl fmul. unfold ffloor, fceil.
  change (10 ^ Z.of_nat 2)%Z with 100%Z.
  rewrite <- !mult_IZR, ZfloorZ, Zceil_IZR. simpl fdiv.
  rewrite (Rsign_Gt 100) by lra.
  rewrite !mult_IZR.
  replace (IZR a * 100 / 100) with (IZR a) by (field; lra).
  replace (IZR b * 100 / 100) with (IZR b) by (field; lra).
  reflexivity.
Qed.

Lemma arange_0_2000 : arange (Fin 0) (Fin 2000) 1000 = Ok [0; 1000].
Proof.
  unfold arange. simpl Z.eqb. cbv iota.
  replace ((2000 - 0) / 1000) with (IZR 2) by (field; lra).
  rewrite Zceil_IZR. simpl. znat_norm. repeat f_equal; lra.
Qed.

Lemma arange_0_1000 : arange (Fin 0) (Fin 1000) 1000 = Ok [0].
Proof.
  unfold arange. simpl Z.eqb. cbv iota.
  replace ((1000 - 0) / 1000) with (IZR 1) by (field; lra).
  rewrite Zceil_IZR. simpl. znat_norm. repeat f_equal; lra.
Qed.

Section Grid.
Context {geom : Type} `{Projection geom} `{Shapes geom}.

(** C7: for a reference layer whose bounds in the working projection
    EPSG:3857 are x in [0, 2000], y in [0, 1000], [create_grid] with
    cell size 1000 and no filtering returns a new layer of exactly two
    cells, each the square of side 1000 with top-left corner [(0, 0)],
    respectively [(1000, 0)], carried back to the CRS of the reference
    layer, with [cell_id] 0 and 1 in that order. *)
Theorem create_grid_two_cells (h : list (GeoDataFrame geom)) gdf ref c :
  h !! gdf = Some ref ->
  crs ref = Some c ->
  total_bounds (map (transform c EPSG_3857) (geometry ref))
    = (Fin 0, Fin 0, Fin 2000, Fin 1000) ->
  create_grid gdf 1000 false h =
    (Ok (length h),
     h ++ [mkGDF (Some c)
             (map (transform EPSG_3857 c)
                  [Polygon [(0, 0); (1000, 0); (1000, -1000); (0, -1000)];
                   Polygon [(1000, 0); (2000, 0); (2000, -1000); (1000, -1000)]])
             [("cell_id"%string, [Fin 0; Fin 1])]]).
Proof.
  intros Href Hcrs Hbounds. unfold create_grid.
  rewrite run_bind, (run_load _ _ _ Href), run_bind, run_lift.
  unfold to_crs at 1. rewrite Hcrs. cbn [geometry]. rewrite Hbounds. cbv beta iota.
  rewrite run_bind, run_lift.
  rewrite (create_grid_coords_whole 0 2000 1000), arange_0_2000.
  rewrite run_bind, run_lift.
  rewrite (create_grid_coords_whole 0 1000 1000), arange_0_1000.
  rewrite run_bind, run_lift. unfold to_crs. simpl crs.
  unfold alloc. simpl. unfold df_set, cell_ring, range_index, nrows. simpl.
  repeat f_equal; lra.
Qed.

End Grid.

Lemma create_grid_two_cells_witness :
  create_grid 0%nat 1000 false [Examples.reference_layer] =
    (Ok 1%nat,
     [Examples.reference_layer;
      mkGDF (Some EPSG_3857)
        [[[(0, 0); (1000, 0); (1000, -1000); (0, -1000)]];
         [[(1000, 0); (2000, 0); (2000, -1000); (1000, -1000)]]]
        [("cell_id"%string, [Fin 0; Fin 1])]]).
Proof.
  rewrite (create_grid_two_cells [Examples.reference_layer] 0%nat
             Examples.reference_layer EPSG_3857).
  - reflexivity.
  - reflexivity.
  - reflexivity.
  - simpl. unfold Boxes.bounds_of. simpl.
    repeat (unfold Rmin, Rmax; repeat destruct (Rle_dec _ _); try lra).
    reflexivity.
Defined.

(* ===================================================================== *)
(** ** Keys, groups and masks *)
(* ===================================================================== *)

Lemma feqb_eq a b : feqb a b = true -> a = b /\ notna b = true.
Proof.
  destruct a as [x| | |], b as [y| | |]; simpl; try discriminate; auto.
  destruct (Rsign (x - y)) eqn:E; try discriminate.
  apply Rsign_Eq_inv in E. intros _. split; [f_equal; lra|reflexivity].
Qed.

Lemma feqb_refl a : notna a = true -> feqb a a = true.
Proof.
  destruct a as [x| | |]; simpl; try discriminate; auto.
  intros _. rewrite Rsign_Eq; [reflexivity|lra].
Qed.

Lemma feqb_sym a b : feqb a b = feqb b a.
Proof.
  destruct (feqb a b) eqn:E.
  - apply feqb_eq in E as [-> Hb]. symmetry. now apply feqb_refl.
  - destruct (feqb b a) eqn:E'; [|reflexivity].
    apply feqb_eq in E' as [-> Ha]. rewrite feqb_refl in E by done. discriminate.
Qed.

Lemma feqb_nan_r a : feqb a NaN = false.
Proof. now destruct a. Qed.

Lemma mask_filter_map {A B} (f : A -> B) mask (l : list A) :
  Table.mask_filter mask (map f l) = map f (Table.mask_filter mask l).
Proof.
  revert l. induction mask as [|b mask IH]; intros [|x l]; simpl; try reflexivity.
  destruct b; simpl; now rewrite IH.
Qed.

Lemma mask_filter_all_true {A} (l : list A) mask :
  Forall (fun b => b = true) mask -> length mask = length l ->
  Table.mask_filter mask l = l.
Proof.
  revert l. induction mask as [|b mask IH]; intros [|x l] Hall Hlen;
    simpl in *; try reflexivity; try discriminate.
  inversion Hall; subst. f_equal. apply IH; auto.
Qed.

(** Filtering by a mask, then by a second mask on what is left, is
    filtering by the conjunction when the second mask only asks for what
    the first one keeps. *)
Lemma mask_filter_refine {A} (keep : list bool) (p : list bool) (l : list A) :
  Forall2 (fun k q => q = true -> k = true) keep p ->
  Table.mask_filter (Table.mask_filter keep p) (Table.mask_filter keep l)
  = Table.mask_filter p l.
Proof.
  intros Hkp. revert l. induction Hkp as [|k q keep p Hkq _ IH]; intros l.
  - now destruct l.
  - destruct l as [|x l]; simpl.
    + destruct k; simpl; [|now destruct (Table.mask_filter keep p)].
      now destruct q.
    + destruct k; simpl.
      * destruct q; now rewrite IH.
      * destruct q; [now specialize (Hkq eq_refl)|]. apply IH.
Qed.

Lemma key_index_Some k keys j :
  Table.key_index k keys = Some j -> keys !! j = Some k /\ notna k = true.
Proof.
  revert j. induction keys as [|k' keys IH]; intros j; simpl; [discriminate|].
  destruct (feqb k' k) eqn:E.
  - intros [= <-]. apply feqb_eq in E as [-> Hk]. auto.
  - destruct (Table.key_index k keys) as [j'|]; simpl; [|discriminate].
    intros [= <-]. simpl. now apply IH.
Qed.

Lemma key_index_elem k keys :
  k ∈ keys -> notna k = true -> is_Some (Table.key_index k keys).
Proof.
  intros Hin Hk. induction keys as [|k' keys IH]; simpl.
  - now apply elem_of_nil in Hin.
  - destruct (feqb k' k) eqn:E; [eauto|].
    apply elem_of_cons in Hin as [->|Hin].
    + rewrite feqb_refl in E by done. discriminate.
    + destruct (IH Hin) as [j ->]. simpl. eauto.
Qed.

Lemma key_index_nan keys : Table.key_index NaN keys = None.
Proof.
  induction keys as [|k' keys IH]; simpl; [reflexivity|].
  rewrite feqb_nan_r, IH. reflexivity.
Qed.

Lemma elem_of_group_keys x key :
  x ∈ Table.group_keys key <-> x ∈ key /\ notna x = true.
Proof.
  induction key as [|k key IH]; simpl.
  - split; [intros Hx; now apply elem_of_nil in Hx|intros [Hx _]; now apply elem_of_nil in Hx].
  - assert (Hrest : x ∈ List.filter (fun k' => negb (feqb k k')) (Table.group_keys key)
                    <-> (x ∈ key /\ notna x = true) /\ feqb k x = false).
    { rewrite list_elem_of_In, filter_In, <- list_elem_of_In, IH, negb_true_iff. tauto. }
    destruct (notna k) eqn:Hk.
    + rewrite elem_of_cons, Hrest, elem_of_cons. split.
      * intros [->|[[Hx Hn] _]]; auto.
      * intros [[->|Hx] Hn]; [now left|].
        destruct (feqb k x) eqn:E; [|now right].
        apply feqb_eq in E as [-> _]. now left.
    + rewrite Hrest, elem_of_cons. split.
      * intros [[Hx Hn] _]. auto.
      * intros [[->|Hx] Hn]; [congruence|].
        split; [done|]. destruct (feqb k x) eqn:E; [|done].
        apply feqb_eq in E as [-> _]. congruence.
Qed.

(** A key of the table is a group iff it is not missing. *)
Lemma key_mem_group_keys k key :
  k ∈ key -> Table.key_mem k (Table.group_keys key) = notna k.
Proof.
  intros Hin. unfold Table.key_mem.
  destruct (notna k) eqn:Hk.
  - destruct (key_index_elem k (Table.group_keys key)) as [j ->]; auto.
    apply elem_of_group_keys. auto.
  - destruct k; try discriminate. now rewrite key_index_nan.
Qed.

(** Reading a per-group value back through the position of the key. *)
Lemma parent_cell_key_index (f : float64 -> float64) keys k :
  Table.parent_cell (map f keys) (Table.key_index k keys)
  = if Table.key_mem k keys then f k else NaN.
Proof.
  unfold Table.key_mem. destruct (Table.key_index k keys) as [j|] eqn:Hj; [|reflexivity].
  apply key_index_Some in Hj as [Hj _]. simpl. unfold Table.cell.
  now rewrite list_lookup_fmap, Hj.
Qed.

(** ** Column tables seen row by row *)

Section Rows.
Context {X : Type}.
Implicit Types (rows : list X) (rc : list (string * (X -> float64))).

Lemma mask_filter_rows {B} (p : X -> bool) (f : X -> B) rows :
  Table.mask_filter (map p rows) (map f rows) = map f (List.filter p rows).
Proof.
  induction rows as [|r rows IH]; simpl; [reflexivity|].
  destruct (p r); simpl; now rewrite IH.
Qed.

Lemma group_cells_rows (fk g : X -> float64) k rows :
  Table.group_cells (map fk rows) k (map g rows)
  = map g (List.filter (fun r => feqb (fk r) k) rows).
Proof.
  unfold Table.group_cells. rewrite map_map. apply mask_filter_rows.
Qed.

Lemma div_rows (f g : X -> float64) rows :
  Pandas.div (map f rows) (map g rows) = map (fun r => fdiv (f r) (g r)) rows.
Proof. induction rows as [|r rows IH]; simpl; [reflexivity|]. now rewrite IH. Qed.

Lemma mul_rows (f g : X -> float64) rows :
  Pandas.mul (map f rows) (map g rows) = map (fun r => fmul (f r) (g r)) rows.
Proof. induction rows as [|r rows IH]; simpl; [reflexivity|]. now rewrite IH. Qed.

Lemma col_lookup_materialize name rows rc :
  col_lookup name (materialize rows rc) = (fun g => map g rows) <$> rc_lookup name rc.
Proof.
  induction rc as [|[k g] rc IH]; simpl; [reflexivity|].
  destruct (String.eqb k name); [reflexivity|exact IH].
Qed.

Lemma col_set_materialize name g rows rc :
  col_set name (map g rows) (materialize rows rc) = materialize rows (rc_set name g rc).
Proof.
  induction rc as [|[k w] rc IH]; simpl; [reflexivity|].
  destruct (String.eqb k name); simpl; [reflexivity|]. now rewrite IH.
Qed.

Lemma mask_filter_materialize (p : X -> bool) rows rc :
  map (fun '(k, v) => (k, Table.mask_filter (map p rows) v)) (materialize rows rc)
  = materialize (List.filter p rows) rc.
Proof.
  unfold materialize. rewrite map_map. apply map_ext. intros [k g].
  now rewrite mask_filter_rows.
Qed.

Lemma materialize_app rows rc1 rc2 :
  materialize rows (rc1 ++ rc2) = materialize rows rc1 ++ materialize rows rc2.
Proof. unfold materialize. apply map_app. Qed.

Lemma rc_lookup_set_eq name g rc : rc_lookup name (rc_set name g rc) = Some g.
Proof.
  induction rc as [|[k w] rc IH]; simpl.
  - now rewrite String.eqb_refl.
  - destruct (String.eqb k name) eqn:E; simpl; rewrite E; auto.
Qed.

Lemma rc_lookup_set_ne name name' g rc :
  name <> name' -> rc_lookup name' (rc_set name g rc) = rc_lookup name' rc.
Proof.
  intros Hne. induction rc as [|[k w] rc IH]; simpl.
  - destruct (String.eqb name name') eqn:E; auto.
    apply String.eqb_eq in E. contradiction.
  - destruct (String.eqb k name) eqn:E; simpl.
    + apply String.eqb_eq in E. subst k.
      destruct (String.eqb name name') eqn:E'; auto.
      apply String.eqb_eq in E'. contradiction.
    + destruct (String.eqb k name'); auto.
Qed.

Lemma rc_lookup_app name rc1 rc2 :
  rc_lookup name (rc1 ++ rc2)
  = match rc_lookup name rc1 with Some g => Some g | None => rc_lookup name rc2 end.
Proof.
  induction rc1 as [|[k g] rc1 IH]; simpl; [reflexivity|].
  destruct (String.eqb k name); auto.
Qed.

Lemma has_col_materialize name rows rc :
  Table.has_col name (materialize rows rc) = is_some (rc_lookup name rc).
Proof.
  unfold Table.has_col. rewrite col_lookup_materialize.
  now destruct (rc_lookup name rc).
Qed.

(** Renaming changes nothing when no name is shared. *)
Lemma rename_none (f : string -> bool) sfx (cs : list (string * list float64))
    (tr : list float64 -> list float64) :
  (forall k v, (k, v) ∈ cs -> f k = false) ->
  map (fun '(k, v) => (if f k then k +:+ sfx else k, tr v)) cs
  = map (fun '(k, v) => (k, tr v)) cs.
Proof.
  intros Hf. induction cs as [|[k v] cs IH]; simpl; [reflexivity|].
  rewrite (Hf k v) by left. f_equal. apply IH. intros k' v' Hin. apply (Hf k' v'). right. exact Hin.
Qed.

Lemma rc_lookup_None_names name rc :
  rc_lookup name rc = None <-> forall k g, (k, g) ∈ rc -> k <> name.
Proof.
  induction rc as [|[k g] rc IH]; simpl.
  - split; [|done]. intros _ k g Hin. now apply elem_of_nil in Hin.
  - destruct (String.eqb k name) eqn:E.
    + apply String.eqb_eq in E. subst k. split; [discriminate|].
      intros Hall. exfalso. apply (Hall name g); [left|reflexivity].
    + apply String.eqb_neq in E. rewrite IH. split.
      * intros Hall k' g' Hin. apply elem_of_cons in Hin as [[= -> ->]|Hin]; eauto.
      * intros Hall k' g' Hin. apply (Hall k' g'). now right.
Qed.

Lemma elem_of_materialize k v rows rc :
  (k, v) ∈ materialize rows rc -> exists g, (k, g) ∈ rc /\ v = map g rows.
Proof.
  unfold materialize. intros Hin. apply list_elem_of_fmap in Hin as ([k' g] & [= -> ->] & Hin).
  eauto.
Qed.

End Rows.

(* ===================================================================== *)
(** ** The fragment table of reaggregate, row by row *)
(* ===================================================================== *)

Lemma col_lookup_map_values (tr : list float64 -> list float64) name
    (cs : list (string * list float64)) :
  col_lookup name (map (fun '(k, v) => (k, tr v)) cs) = tr <$> col_lookup name cs.
Proof.
  induction cs as [|[k v] cs IH]; simpl; [reflexivity|].
  destruct (String.eqb k name); [reflexivity|exact IH].
Qed.

Lemma col_lookup_filter_ne key name (cs : list (string * list float64)) :
  name <> key ->
  col_lookup name (List.filter (fun '(n, _) => negb (String.eqb n key)) cs)
  = col_lookup name cs.
Proof.
  intros Hne. induction cs as [|[k v] cs IH]; simpl; [reflexivity|].
  destruct (String.eqb k key) eqn:E; simpl.
  - apply String.eqb_eq in E. subst k.
    destruct (String.eqb key name) eqn:E'; [|exact IH].
    apply String.eqb_eq in E'. congruence.
  - destruct (String.eqb k name); [reflexivity|exact IH].
Qed.

Lemma col_lookup_app name (a b : list (string * list float64)) :
  col_lookup name (a ++ b)
  = match col_lookup name a with Some v => Some v | None => col_lookup name b end.
Proof.
  induction a as [|[k v] a IH]; simpl; [reflexivity|].
  destruct (String.eqb k name); auto.
Qed.

Lemma elem_of_rc_set {X} k (g : X -> float64) name g' rc :
  (k, g) ∈ rc_set name g' rc -> k = name \/ exists g0, (k, g0) ∈ rc.
Proof.
  induction rc as [|[k' w] rc IH]; simpl.
  - intros Hin. apply list_elem_of_singleton in Hin as [= -> ->]. now left.
  - destruct (String.eqb k' name) eqn:E.
    + apply String.eqb_eq in E. subst k'.
      intros Hin. apply elem_of_cons in Hin as [[= -> ->]|Hin]; [now left|].
      right. exists g. now right.
    + intros Hin. apply elem_of_cons in Hin as [[= -> ->]|Hin].
      * right. exists w. left.
      * destruct (IH Hin) as [->|[g0 Hg0]]; [now left|].
        right. exists g0. now right.
Qed.

Section FragmentFacts.
Context {geom : Type} `{Projection geom} `{Overlay geom}.
Implicit Types (src dst : GeoDataFrame geom) (p : frow geom).

Lemma src_rc_lookup src name :
  rc_lookup name (src_rc src) = frag_src <$> col_lookup name (columns src).
Proof.
  unfold src_rc. induction (columns src) as [|[k v] cs IH]; simpl; [reflexivity|].
  destruct (String.eqb k name); [reflexivity|exact IH].
Qed.

Lemma dst_rc_lookup dst name :
  rc_lookup name (dst_rc dst) = frag_key <$> col_lookup name (columns dst).
Proof.
  unfold dst_rc. induction (columns dst) as [|[k v] cs IH]; simpl; [reflexivity|].
  destruct (String.eqb k name); [reflexivity|exact IH].
Qed.

Lemma col_lookup_None_names name (cs : list (string * list float64)) :
  col_lookup name cs = None <-> forall k v, (k, v) ∈ cs -> k <> name.
Proof.
  induction cs as [|[k g] cs IH]; simpl.
  - split; [|done]. intros _ k g Hin. now apply elem_of_nil in Hin.
  - destruct (String.eqb k name) eqn:E.
    + apply String.eqb_eq in E. subst k. split; [discriminate|].
      intros Hall. exfalso. apply (Hall name g); [left|reflexivity].
    + apply String.eqb_neq in E. rewrite IH. split.
      * intros Hall k' g' Hin. apply elem_of_cons in Hin as [[= -> ->]|Hin]; eauto.
      * intros Hall k' g' Hin. apply (Hall k' g'). now right.
Qed.

Lemma has_col_elem k v (cs : list (string * list float64)) :
  (k, v) ∈ cs -> Table.has_col k cs = true.
Proof.
  intros Hin. unfold Table.has_col.
  destruct (col_lookup k cs) eqn:E; [reflexivity|].
  rewrite col_lookup_None_names in E. now apply E in Hin.
Qed.

Lemma overlay_union_rows dst src :
  (forall k, Table.has_col k (columns dst) = true -> col_lookup k (columns src) = None) ->
  let parents := overlay_parents (geometry dst) (geometry src) in
  overlay_union dst src
  = mkGDF (crs dst) (map snd parents) (materialize parents (dst_rc dst ++ src_rc src)).
Proof.
  intros Hdisj parents. unfold overlay_union. fold parents. f_equal.
  set (dcols := map _ (columns dst)). set (scols := map _ (columns src)).
  assert (Hdcols : dcols = materialize parents (dst_rc dst)).
  { unfold dcols, materialize, dst_rc. rewrite map_map. apply map_ext. now intros [k v]. }
  assert (Hscols : scols = materialize parents (src_rc src)).
  { unfold scols, materialize, src_rc. rewrite map_map. apply map_ext. now intros [k v]. }
  rewrite materialize_app, <- Hdcols, <- Hscols. unfold Table.suffixed.
  rewrite (rename_none _ "_1" dcols (fun v => v)), (rename_none _ "_2" scols (fun v => v)).
  - f_equal.
    + rewrite <- (map_id dcols) at 2. apply map_ext. now intros [k v].
    + rewrite <- (map_id scols) at 2. apply map_ext. now intros [k v].
  - intros k v Hin. rewrite Hdcols, has_col_materialize, dst_rc_lookup.
    destruct (col_lookup k (columns dst)) as [w|] eqn:E; [|reflexivity]. exfalso.
    assert (Hk : Table.has_col k (columns dst) = true) by (unfold Table.has_col; now rewrite E).
    specialize (Hdisj k Hk). rewrite col_lookup_None_names in Hdisj.
    unfold scols in Hin. apply list_elem_of_fmap in Hin as ([k' v'] & [= -> ->] & Hin).
    now apply (Hdisj k' v').
  - intros k v Hin. rewrite Hscols, has_col_materialize, src_rc_lookup.
    unfold dcols in Hin. apply list_elem_of_fmap in Hin as ([k' v'] & [= -> ->] & Hin).
    rewrite (Hdisj k') by (eapply has_col_elem; eauto). reflexivity.
Qed.

Lemma frag_key_mem ids (parents : list (frow geom)) p :
  p ∈ parents ->
  Table.key_mem (frag_key ids p) (Table.group_keys (map (frag_key ids) parents))
  = notna (frag_key ids p).
Proof.
  intros Hin. apply key_mem_group_keys. apply list_elem_of_fmap. eauto.
Qed.

Lemma weighted_fragments_rows src dst dst_id ids c :
  crs dst = Some c ->
  compatible_layers dst src dst_id ids ->
  let parents := overlay_parents (geometry dst) (geometry src) in
  let rows := List.filter (fun p => notna (frag_key ids p)) parents in
  weighted_fragments src dst dst_id
  = Ok (mkGDF (Some c) (map snd rows)
              (materialize rows (fragment_rc c ids dst src parents))).
Proof.
  intros Hc (Hid & Hdisj & Hud & Hu & Hn1 & Hn2 & Hn3) parents rows.
  unfold weighted_fragments.
  rewrite (overlay_union_rows dst src Hdisj). fold parents.
  unfold to_crs at 1. cbn [crs]. rewrite Hc.
  unfold mbind, result_bind, mret, result_ret. cbv beta iota.
  unfold df_set. cbn [crs geometry columns].
  rewrite !map_map.
  change (map (fun x : option nat * option nat * geom =>
                 Fin (area (transform c EPSG_3857 x.2))) parents)
    with (map (frag_area c) parents).
  set (RC1 := rc_set "fragment_area" (frag_area c) (dst_rc dst ++ src_rc src)).
  rewrite col_set_materialize. fold RC1.
  assert (Hk1 : rc_lookup dst_id RC1 = Some (frag_key ids)).
  { unfold RC1. rewrite rc_lookup_set_ne by (intros E; now symmetry in E).
    now rewrite rc_lookup_app, dst_rc_lookup, Hid. }
  assert (Ha1 : rc_lookup "fragment_area" RC1 = Some (frag_area c)).
  { apply rc_lookup_set_eq. }
  assert (Hu1 : forall k g, (k, g) ∈ RC1 -> k <> "dst_unit_area"%string).
  { intros k g Hin. unfold RC1 in Hin.
    apply elem_of_rc_set in Hin as [->|[g0 Hg0]]; [discriminate|].
    apply elem_of_app in Hg0 as [Hg0|Hg0].
    - assert (Hn : rc_lookup "dst_unit_area" (dst_rc dst) = None)
        by (now rewrite dst_rc_lookup, Hud).
      rewrite rc_lookup_None_names in Hn. now apply (Hn k g0).
    - assert (Hn : rc_lookup "dst_unit_area" (src_rc src) = None)
        by (now rewrite src_rc_lookup, Hu).
      rewrite rc_lookup_None_names in Hn. now apply (Hn k g0). }
  (* groupby(dst_id).sum()["fragment_area"] *)
  set (K := map (frag_key ids) parents).
  set (ks := Table.group_keys K).
  set (T := map (fun k => Pandas.sum (Table.group_cells K k (map (frag_area c) parents))) ks).
  assert (Hg : Table.groupby_sum dst_id (materialize parents RC1)
               = Ok (ks, map (fun '(name, s) =>
                        (name, map (fun k => Pandas.sum (Table.group_cells K k s)) ks))
                      (List.filter (fun '(n, _) => negb (String.eqb n dst_id))
                                   (materialize parents RC1)))).
  { unfold Table.groupby_sum, Table.col_get.
    rewrite col_lookup_materialize. rewrite Hk1. reflexivity. }
  rewrite Hg. clear Hg.
  assert (Hsum : Table.col_get "fragment_area"
                   (map (fun '(name, s) =>
                        (name, map (fun k => Pandas.sum (Table.group_cells K k s)) ks))
                      (List.filter (fun '(n, _) => negb (String.eqb n dst_id))
                                   (materialize parents RC1)))
                 = Ok T).
  { unfold Table.col_get.
    rewrite (col_lookup_map_values
               (fun s => map (fun k => Pandas.sum (Table.group_cells K k s)) ks)).
    rewrite col_lookup_filter_ne by (intros E; now symmetry in E).
    rewrite col_lookup_materialize, Ha1. reflexivity. }
  rewrite Hsum. clear Hsum.
  unfold unique_label.
  replace (String.eqb dst_id "dst_unit_area") with false
    by (symmetry; now apply String.eqb_neq).
  (* merge(dst_unit_areas, on=dst_id, how="inner") *)
  unfold Table.merge. unfold Table.col_get at 1.
  rewrite col_lookup_materialize, Hk1. simpl fmap.
  unfold mbind, result_bind, mret, result_ret. cbv beta iota.
  fold K. cbn [orb].
  set (hits := map (fun k => Table.key_index k ks) K).
  assert (Hkeep : map (fun m => is_some m) hits
                  = map (fun p => notna (frag_key ids p)) parents).
  { unfold hits, K. rewrite !map_map. apply map_ext_in. intros p Hp.
    apply list_elem_of_In in Hp.
    exact (frag_key_mem ids parents p Hp). }
  rewrite Hkeep. clear Hkeep.
  assert (Hnone : rc_lookup "dst_unit_area" RC1 = None).
  { apply rc_lookup_None_names. exact Hu1. }
  set (uf := fun p : option nat * option nat * geom =>
               dst_unit_area c ids parents (frag_key ids p)).
  assert (Hl : map (fun '(k, v) =>
                  (if negb (String.eqb k dst_id) && Table.has_col k [("dst_unit_area"%string, T)]
                   then k +:+ "_x" else k,
                   Table.mask_filter (map (fun p => notna (frag_key ids p)) parents) v))
                 (materialize parents RC1)
               = materialize rows RC1).
  { rewrite (rename_none (fun k => negb (String.eqb k dst_id)
                                   && Table.has_col k [("dst_unit_area"%string, T)]) "_x" _
               (Table.mask_filter (map (fun p => notna (frag_key ids p)) parents))).
    - apply mask_filter_materialize.
    - intros k v Hin. apply elem_of_materialize in Hin as (g & Hin & _).
      pose proof (Hu1 k g Hin) as Hne.
      unfold Table.has_col. cbn [col_lookup].
      replace (String.eqb "dst_unit_area" k) with false; [apply andb_false_r|].
      symmetry. apply String.eqb_neq. congruence. }
  rewrite Hl. clear Hl.
  assert (Hr : map (fun '(k, v) =>
                  (if Table.has_col k (materialize parents RC1) then k +:+ "_y" else k,
                   map (Table.parent_cell v)
                       (Table.mask_filter (map (fun p => notna (frag_key ids p)) parents) hits)))
                 [("dst_unit_area"%string, T)]
               = materialize rows [("dst_unit_area"%string, uf)]).
  { cbn [map]. rewrite has_col_materialize, Hnone. unfold materialize. cbn [is_some map].
    f_equal. f_equal.
    unfold hits, K. rewrite map_map, mask_filter_rows, map_map. fold rows.
    apply map_ext_in. intros p Hp. unfold T.
    rewrite (parent_cell_key_index
               (fun k => Pandas.sum (Table.group_cells (map (frag_key ids) parents) k
                                        (map (frag_area c) parents)))).
    unfold ks, K. apply filter_In in Hp as [Hp Hna].
    rewrite frag_key_mem by (now apply list_elem_of_In). rewrite Hna.
    unfold uf, dst_unit_area, fragments_in. now rewrite group_cells_rows. }
  rewrite Hr. clear Hr.
  rewrite <- materialize_app.
  unfold Table.col_get.
  rewrite !col_lookup_materialize, !rc_lookup_app, Ha1, Hnone.
  cbn [rc_lookup fmap option_fmap option_map]. rewrite String.eqb_refl.
  cbn [fmap option_fmap option_map]. f_equal. f_equal.
  - unfold rows. now rewrite mask_filter_rows.
  - rewrite div_rows.
    change (map (fun r => fdiv (frag_area c r) (uf r)) rows)
      with (map (frag_pct c ids parents) rows).
    rewrite col_set_materialize. reflexivity.
Qed.

End FragmentFacts.

(* ===================================================================== *)
(** ** Area weights *)
(* ===================================================================== *)

Lemma sum_fin {X} (f : X -> R) (l : list X) :
  Pandas.sum (map (fun x => Fin (f x)) l) = Fin (Rsum f l).
Proof.
  unfold Pandas.sum, Pandas.dropna. induction l as [|x l IH]; simpl; [reflexivity|].
  now rewrite IH.
Qed.

Lemma Rsum_div {X} (f : X -> R) T (l : list X) :
  Rsum (fun x => f x / T) l = Rsum f l / T.
Proof.
  induction l as [|x l IH]; simpl; [unfold Rdiv; lra|]. rewrite IH. unfold Rdiv. lra.
Qed.

Lemma Rsum_nonneg {X} (f : X -> R) (l : list X) :
  (forall x, 0 <= f x) -> 0 <= Rsum f l.
Proof.
  intros Hf. induction l as [|x l IH]; simpl; [lra|]. specialize (Hf x). lra.
Qed.

Lemma Rsum_zero {X} (f : X -> R) (l : list X) :
  (forall x, 0 <= f x) -> Rsum f l = 0 -> forall x, x ∈ l -> f x = 0.
Proof.
  intros Hf. induction l as [|y l IH]; simpl; intros Hs x Hin.
  - now apply elem_of_nil in Hin.
  - pose proof (Hf y). pose proof (Rsum_nonneg f l Hf).
    apply elem_of_cons in Hin as [->|Hin]; [lra|]. apply IH; [lra|done].
Qed.

Lemma filter_filter_implied {X} (p q : X -> bool) (l : list X) :
  (forall x, p x = true -> q x = true) ->
  List.filter p (List.filter q l) = List.filter p l.
Proof.
  intros Hpq. induction l as [|x l IH]; simpl; [reflexivity|].
  destruct (q x) eqn:Eq; simpl.
  - destruct (p x); now rewrite IH.
  - destruct (p x) eqn:Ep; [|exact IH]. rewrite (Hpq x Ep) in Eq. discriminate.
Qed.

Section Weights.
Context {geom : Type} `{Projection geom} `{Overlay geom}.
Implicit Types (src dst : GeoDataFrame geom) (p : frow geom).

Lemma dst_unit_area_fin c ids (parents : list (frow geom)) k :
  dst_unit_area c ids parents k = Fin (Rsum (area_of c) (fragments_in ids k parents)).
Proof. unfold dst_unit_area. apply (sum_fin (area_of c)). Qed.

Lemma fragments_in_kept ids (parents : list (frow geom)) k :
  List.filter (fun p => feqb (frag_key ids p) k)
              (List.filter (fun p => notna (frag_key ids p)) parents)
  = fragments_in ids k parents.
Proof.
  apply filter_filter_implied. intros p Hp.
  destruct (frag_key ids p); try discriminate; reflexivity.
Qed.

Lemma fragments_in_key ids (parents : list (frow geom)) k p :
  p ∈ fragments_in ids k parents -> frag_key ids p = k /\ notna k = true.
Proof.
  unfold fragments_in. rewrite list_elem_of_In, filter_In. intros [_ Hk].
  now apply feqb_eq.
Qed.

Lemma fragment_rc_lookups c ids dst src dst_id (parents : list (frow geom)) :
  compatible_layers dst src dst_id ids ->
  rc_lookup dst_id (fragment_rc c ids dst src parents) = Some (frag_key ids)
  /\ rc_lookup "dst_unit_area" (fragment_rc c ids dst src parents)
     = Some (fun p => dst_unit_area c ids parents (frag_key ids p))
  /\ rc_lookup "fragment_area_pct" (fragment_rc c ids dst src parents)
     = Some (frag_pct c ids parents)
  /\ rc_lookup "fragment_area" (fragment_rc c ids dst src parents) = Some (frag_area c).
Proof.
  intros (Hid & Hdisj & Hud & Hu & Hn1 & Hn2 & Hn3). unfold fragment_rc.
  repeat split.
  - rewrite rc_lookup_set_ne by (intros E; now symmetry in E).
    rewrite rc_lookup_app, rc_lookup_set_ne by (intros E; now symmetry in E).
    now rewrite rc_lookup_app, dst_rc_lookup, Hid.
  - rewrite rc_lookup_set_ne by discriminate.
    rewrite rc_lookup_app, rc_lookup_set_ne by discriminate.
    rewrite rc_lookup_app, dst_rc_lookup, Hud, src_rc_lookup, Hu. simpl.
    reflexivity.
  - apply rc_lookup_set_eq.
  - rewrite rc_lookup_set_ne by discriminate.
    now rewrite rc_lookup_app, rc_lookup_set_eq.
Qed.

(** C2: in the fragment table of [reaggregate], the values of
    [fragment_area_pct] over the fragments of one destination identifier
    sum to exactly [1] whenever the [dst_unit_area] of that identifier is
    not zero. *)
Theorem fragment_area_pct_sums_to_one src dst dst_id ids fragment_df key u pct i d T :
  compatible_layers dst src dst_id ids ->
  weighted_fragments src dst dst_id = Ok fragment_df ->
  col_lookup dst_id (columns fragment_df) = Some key ->
  col_lookup "dst_unit_area" (columns fragment_df) = Some u ->
  col_lookup "fragment_area_pct" (columns fragment_df) = Some pct ->
  key !! i = Some d ->
  u !! i = Some (Fin T) ->
  T <> 0 ->
  Pandas.sum (Table.group_cells key d pct) = Fin 1.
Proof.
  intros Hcompat Hrun Hkey Hu Hpct Hd HT HT0.
  destruct (crs dst) as [c|] eqn:Hc.
  2:{ unfold weighted_fragments, to_crs in Hrun.
      assert (Hov : crs (overlay_union dst src) = None) by exact Hc.
      rewrite Hov in Hrun. discriminate. }
  rewrite (weighted_fragments_rows src dst dst_id ids c Hc Hcompat) in Hrun.
  injection Hrun as <-. cbn [columns] in Hkey, Hu, Hpct.
  destruct (fragment_rc_lookups c ids dst src dst_id
              (overlay_parents (geometry dst) (geometry src)) Hcompat)
    as (Hk' & Hu' & Hp' & _).
  set (parents := overlay_parents (geometry dst) (geometry src)) in *.
  set (rows := List.filter (fun p => notna (frag_key ids p)) parents) in *.
  rewrite col_lookup_materialize, Hk' in Hkey. injection Hkey as <-.
  rewrite col_lookup_materialize, Hu' in Hu. injection Hu as <-.
  rewrite col_lookup_materialize, Hp' in Hpct. injection Hpct as <-.
  rewrite list_lookup_fmap in Hd, HT.
  destruct (rows !! i) as [p|] eqn:Hp; [|discriminate].
  simpl in Hd, HT. injection Hd as Hd. injection HT as HT.
  rewrite Hd, dst_unit_area_fin in HT. injection HT as HT.
  rewrite group_cells_rows. unfold rows. rewrite fragments_in_kept.
  rewrite (map_ext_in _ (fun p => Fin (area_of c p / T))).
  - rewrite (sum_fin (fun p => area_of c p / T)), Rsum_div, HT. f_equal. now field.
  - intros q Hq. apply list_elem_of_In, fragments_in_key in Hq as [Hq _].
    unfold frag_pct. rewrite Hq, dst_unit_area_fin, HT. unfold frag_area. simpl.
    fold (area_of c q).
    destruct (Rsign T) eqn:E; try reflexivity.
    apply Rsign_Eq_inv in E. contradiction.
Qed.

End Weights.

(* ===================================================================== *)
(** ** Redistribution and aggregation *)
(* ===================================================================== *)

Section Redistribute.
Context {X : Type}.
Implicit Types (rows : list X) (rc : list (string * (X -> float64))).

Lemma redistribute_rows {geom} agg_vars : forall rows rc (c : option Z) (gs : list geom),
  redistribute agg_vars (mkGDF c gs (materialize rows rc))
  = match rc_redistribute agg_vars rc with
    | Ok rc' => Ok (mkGDF c gs (materialize rows rc'))
    | Raise e => Raise e
    end.
Proof.
  induction agg_vars as [|var rest IH]; intros rows rc c gs; simpl; [reflexivity|].
  unfold Table.col_get. rewrite !col_lookup_materialize.
  destruct (rc_lookup var rc) as [g|]; [|reflexivity]. simpl.
  destruct (rc_lookup "fragment_area_pct" rc) as [q|]; [|reflexivity]. simpl.
  unfold df_set. cbn [crs geometry columns].
  rewrite mul_rows, col_set_materialize. apply IH.
Qed.

Lemma rc_redistribute_other agg_vars : forall rc rc' name,
  rc_redistribute agg_vars rc = Ok rc' ->
  name ∉ agg_vars ->
  rc_lookup name rc' = rc_lookup name rc.
Proof.
  induction agg_vars as [|var rest IH]; intros rc rc' name Hrun Hn; simpl in Hrun.
  - now injection Hrun as <-.
  - apply not_elem_of_cons in Hn as [Hne Hn].
    destruct (rc_lookup var rc) as [g|]; [|discriminate].
    destruct (rc_lookup "fragment_area_pct" rc) as [q|]; [|discriminate].
    rewrite (IH _ _ _ Hrun Hn). now apply rc_lookup_set_ne.
Qed.

Lemma rc_redistribute_ok agg_vars : forall rc,
  (forall var, var ∈ agg_vars -> is_Some (rc_lookup var rc)) ->
  is_Some (rc_lookup "fragment_area_pct" rc) ->
  exists rc', rc_redistribute agg_vars rc = Ok rc'.
Proof.
  induction agg_vars as [|var rest IH]; intros rc Hall Hpct; simpl; [eauto|].
  destruct (Hall var) as [g ->]; [left|]. destruct Hpct as [q Hq]. rewrite Hq.
  apply IH.
  - intros v Hv. destruct (decide (var = v)) as [<-|Hne].
    + rewrite rc_lookup_set_eq. eauto.
    + rewrite rc_lookup_set_ne by done. apply Hall. now right.
  - destruct (decide (var = "fragment_area_pct"%string)) as [->|Hne].
    + rewrite rc_lookup_set_eq. eauto.
    + rewrite rc_lookup_set_ne by done. rewrite Hq. eauto.
Qed.

(** Where [fragment_area_pct] is missing, every redistributed value is
    missing, whatever the list of variables. *)
Lemma rc_redistribute_nan agg_vars (r : X) : forall rc rc',
  rc_redistribute agg_vars rc = Ok rc' ->
  (exists q, rc_lookup "fragment_area_pct" rc = Some q /\ q r = NaN) ->
  (exists q, rc_lookup "fragment_area_pct" rc' = Some q /\ q r = NaN)
  /\ forall var, var ∈ agg_vars -> exists g, rc_lookup var rc' = Some g /\ g r = NaN.
Proof.
  induction agg_vars as [|var rest IH]; intros rc rc' Hrun (q & Hq & Hnan); simpl in Hrun.
  - injection Hrun as <-. split; [eauto|]. intros var Hin. now apply elem_of_nil in Hin.
  - destruct (rc_lookup var rc) as [g|] eqn:Hg; [|discriminate].
    rewrite Hq in Hrun.
    assert (Hmul : fmul (g r) (q r) = NaN) by (rewrite Hnan; now destruct (g r)).
    destruct (IH _ _ Hrun) as [Hpct Hvars].
    { destruct (decide (var = "fragment_area_pct"%string)) as [->|Hne].
      - rewrite rc_lookup_set_eq. eauto.
      - rewrite rc_lookup_set_ne by done. eauto. }
    split; [exact Hpct|]. intros v Hv.
    destruct (decide (v ∈ rest)) as [Hr|Hr]; [now apply Hvars|].
    apply elem_of_cons in Hv as [->|Hv]; [|contradiction].
    rewrite (rc_redistribute_other _ _ _ _ Hrun Hr), rc_lookup_set_eq. eauto.
Qed.

(** Each variable listed once is multiplied once by [fragment_area_pct]. *)
Lemma rc_redistribute_listed agg_vars : forall rc rc' q,
  rc_redistribute agg_vars rc = Ok rc' ->
  NoDup agg_vars ->
  "fragment_area_pct"%string ∉ agg_vars ->
  rc_lookup "fragment_area_pct" rc = Some q ->
  forall var g, var ∈ agg_vars -> rc_lookup var rc = Some g ->
    rc_lookup var rc' = Some (fun r => fmul (g r) (q r)).
Proof.
  induction agg_vars as [|var rest IH]; intros rc rc' q Hrun Hnd Hp Hq v g Hin Hg;
    simpl in Hrun.
  - now apply elem_of_nil in Hin.
  - apply NoDup_cons in Hnd as [Hnotin Hnd].
    apply not_elem_of_cons in Hp as [Hne Hp].
    destruct (rc_lookup var rc) as [g0|] eqn:Hg0; [|discriminate].
    rewrite Hq in Hrun.
    apply elem_of_cons in Hin as [->|Hin].
    + rewrite (rc_redistribute_other _ _ _ _ Hrun Hnotin), rc_lookup_set_eq.
      rewrite Hg0 in Hg. now injection Hg as <-.
    + assert (var <> v) by (intros ->; contradiction).
      apply (IH _ _ q Hrun Hnd Hp); [|done|].
      * rewrite rc_lookup_set_ne by (intros E; now symmetry in E). exact Hq.
      * now rewrite rc_lookup_set_ne.
Qed.

Lemma select_materialize names rows : forall rc,
  (forall n, n ∈ names -> is_Some (rc_lookup n rc)) ->
  exists sel,
    select names (materialize rows rc) = Ok (materialize rows sel)
    /\ (forall n, n ∈ names -> rc_lookup n sel = rc_lookup n rc)
    /\ (forall k g, (k, g) ∈ sel -> k ∈ names).
Proof.
  induction names as [|name rest IH]; intros rc Hall; simpl.
  - exists []. repeat split; intros; now apply elem_of_nil in H.
  - destruct (Hall name) as [g Hg]; [left|].
    destruct (IH rc) as (sel & Hsel & Hlook & Hnames).
    { intros n Hn. apply Hall. now right. }
    unfold Table.col_get. rewrite col_lookup_materialize, Hg. simpl.
    rewrite Hsel. simpl. exists ((name, g) :: sel). repeat split.
    + intros n Hn. simpl. destruct (String.eqb name n) eqn:E.
      * apply String.eqb_eq in E. now subst.
      * apply String.eqb_neq in E.
        apply elem_of_cons in Hn as [->|Hn]; [contradiction|]. now apply Hlook.
    + intros k g' Hin. apply elem_of_cons in Hin as [[= -> ->]|Hin]; [left|].
      right. eapply Hnames; eauto.
Qed.

End Redistribute.

Section Aggregate.
Context {geom : Type} `{Projection geom} `{Overlay geom}.
Implicit Types (src dst : GeoDataFrame geom).

Lemma col_lookup_in_names name (cs : list (string * list float64)) v :
  col_lookup name cs = Some v -> (name, v) ∈ cs.
Proof.
  induction cs as [|[k w] cs IH]; simpl; [discriminate|].
  destruct (String.eqb k name) eqn:E.
  - apply String.eqb_eq in E. subst. intros [= ->]. left.
  - intros Hv. right. now apply IH.
Qed.

(** The column of a redistributed variable in the layer [aggregate]
    returns: per destination record, the sum of the variable over the
    fragments of the record's identifier, missing when the identifier
    has no fragment. *)
Lemma aggregate_column (rows : list (frow geom)) rc dst src dst_id ids agg_vars (c : option Z) gs fk :
  col_lookup dst_id (columns dst) = Some ids ->
  (forall k, Table.has_col k (columns dst) = true -> col_lookup k (columns src) = None) ->
  (forall var, var ∈ agg_vars -> Table.has_col var (columns src) = true) ->
  (forall var, var ∈ agg_vars -> is_Some (rc_lookup var rc)) ->
  rc_lookup dst_id rc = Some fk ->
  exists out,
    aggregate dst (mkGDF c gs (materialize rows rc)) dst_id agg_vars = Ok out
    /\ forall var g, var ∈ agg_vars -> rc_lookup var rc = Some g ->
         col_lookup var (columns out)
         = Some (map (fun id =>
                   if Table.key_mem id (Table.group_keys (map fk rows))
                   then Pandas.sum (map g (List.filter (fun r => feqb (fk r) id) rows))
                   else NaN) ids).
Proof.
  intros Hid Hdisj Hsrc Hvars Hfk.
  assert (Hnotdst : forall var, var ∈ agg_vars -> Table.has_col var (columns dst) = false).
  { intros var Hin. destruct (Table.has_col var (columns dst)) eqn:E; [|reflexivity].
    specialize (Hdisj var E). specialize (Hsrc var Hin).
    unfold Table.has_col in Hsrc. rewrite Hdisj in Hsrc. discriminate. }
  assert (Hidn : dst_id ∉ agg_vars).
  { intros Hin. specialize (Hnotdst _ Hin). unfold Table.has_col in Hnotdst.
    now rewrite Hid in Hnotdst. }
  unfold aggregate. cbn [columns].
  destruct (select_materialize (agg_vars ++ [dst_id]) rows rc) as (sel & Hsel & Hlook & Hnames).
  { intros n Hn. apply elem_of_app in Hn as [Hn|Hn]; [now apply Hvars|].
    apply list_elem_of_singleton in Hn as ->. rewrite Hfk. eauto. }
  rewrite Hsel. unfold mbind at 1, result_bind.
  replace (str_in dst_id agg_vars) with false.
  2:{ symmetry. apply not_true_is_false. rewrite str_in_elem_of. exact Hidn. }
  assert (Hksel : rc_lookup dst_id sel = Some fk).
  { rewrite Hlook; [exact Hfk|]. apply elem_of_app. right. left. }
  unfold Table.groupby_sum, Table.col_get at 1.
  rewrite col_lookup_materialize, Hksel. simpl fmap.
  unfold mbind, result_bind, mret, result_ret. cbv beta iota.
  set (K := map fk rows). set (ks := Table.group_keys K).
  set (agg_df := map _ (List.filter _ (materialize rows sel))).
  unfold Table.merge, Table.col_get. rewrite Hid.
  unfold mbind, result_bind, mret, result_ret. cbv beta iota. cbn [orb].
  set (hits := map (fun k => Table.key_index k ks) ids).
  set (keep := map (fun _ : option nat => true) hits).
  assert (Hkeep : Table.mask_filter keep hits = hits).
  { apply mask_filter_all_true.
    - unfold keep. apply Forall_map. now apply Forall_true.
    - unfold keep. now rewrite length_map. }
  rewrite Hkeep.
  assert (Hagg_names : forall k v, (k, v) ∈ agg_df -> k ∈ agg_vars).
  { intros k v Hin. unfold agg_df in Hin.
    apply list_elem_of_fmap in Hin as ([k' s] & [= -> ->] & Hin).
    apply list_elem_of_In, filter_In in Hin as [Hin Hne].
    apply list_elem_of_In, elem_of_materialize in Hin as (g & Hin & _).
    apply Hnames, elem_of_app in Hin as [Hin|Hin]; [done|].
    apply list_elem_of_singleton in Hin as ->.
    rewrite String.eqb_refl in Hne. discriminate. }
  eexists. split; [reflexivity|]. intros var g Hin Hg. cbn [columns].
  rewrite col_lookup_app.
  rewrite (rename_none (fun k => negb (String.eqb k dst_id) && Table.has_col k agg_df) "_x"
             (columns dst) (Table.mask_filter keep)).
  2:{ intros k v Hk. destruct (Table.has_col k agg_df) eqn:E; [|apply andb_false_r].
      exfalso. unfold Table.has_col in E.
      destruct (col_lookup k agg_df) as [w|] eqn:Ew; [|discriminate].
      apply col_lookup_in_names, Hagg_names in Ew.
      pose proof (has_col_elem _ _ _ Hk) as Hk'. rewrite (Hnotdst k Ew) in Hk'. discriminate. }
  rewrite col_lookup_map_values.
  pose proof (Hnotdst var Hin) as Hv. unfold Table.has_col in Hv.
  destruct (col_lookup var (columns dst)); [discriminate|]. simpl fmap. cbv iota.
  rewrite (rename_none (fun k => Table.has_col k (columns dst)) "_y" agg_df
             (fun v => map (Table.parent_cell v) hits)).
  2:{ intros k v Hk. apply Hnotdst. eapply Hagg_names; eauto. }
  rewrite col_lookup_map_values. unfold agg_df.
  rewrite (col_lookup_map_values
             (fun s => map (fun k => Pandas.sum (Table.group_cells K k s)) ks)).
  rewrite col_lookup_filter_ne by (intros ->; contradiction).
  rewrite col_lookup_materialize, Hlook by (apply elem_of_app; now left).
  rewrite Hg. simpl fmap. f_equal. unfold hits. rewrite map_map.
  apply map_ext. intros id.
  rewrite (parent_cell_key_index
             (fun k => Pandas.sum (Table.group_cells K k (map g rows)))).
  unfold K. now rewrite group_cells_rows.
Qed.

End Aggregate.

(* ===================================================================== *)
(** ** reaggregate, end to end *)
(* ===================================================================== *)

Lemma sum_all_nan {X} (g : X -> float64) (l : list X) :
  (forall x, x ∈ l -> g x = NaN) -> Pandas.sum (map g l) = Fin 0.
Proof.
  intros Hg. unfold Pandas.sum, Pandas.dropna.
  induction l as [|x l IH]; simpl; [reflexivity|].
  rewrite (Hg x) by left. simpl. apply IH. intros y Hy. apply Hg. now right.
Qed.

Lemma rc_lookup_set_is_Some {X} n m (g : X -> float64) rc :
  is_Some (rc_lookup n rc) -> is_Some (rc_lookup n (rc_set m g rc)).
Proof.
  intros Hn. destruct (decide (m = n)) as [->|Hne].
  - rewrite rc_lookup_set_eq. eauto.
  - now rewrite rc_lookup_set_ne.
Qed.

Lemma rc_redistribute_is_Some {X} agg_vars n : forall (rc rc' : list (string * (X -> float64))),
  rc_redistribute agg_vars rc = Ok rc' ->
  is_Some (rc_lookup n rc) -> is_Some (rc_lookup n rc').
Proof.
  induction agg_vars as [|var rest IH]; intros rc rc' Hrun Hn; simpl in Hrun.
  - now injection Hrun as <-.
  - destruct (rc_lookup var rc) as [g|]; [|discriminate].
    destruct (rc_lookup "fragment_area_pct" rc) as [q|]; [|discriminate].
    apply (IH _ _ Hrun). now apply rc_lookup_set_is_Some.
Qed.

Section EndToEnd.
Context {geom : Type} `{Projection geom} `{Overlay geom}.
Implicit Types (src dst : GeoDataFrame geom) (h : list (GeoDataFrame geom)).

Lemma run_reaggregate h src_gdf dst_gdf src dst dst_id agg_vars :
  h !! src_gdf = Some src ->
  h !! dst_gdf = Some dst ->
  reaggregate src_gdf dst_gdf dst_id agg_vars h
  = match reaggregate_frames src dst dst_id agg_vars with
    | Ok out => (Ok (length h), h ++ [out])
    | Raise e => (Raise e, h)
    end.
Proof.
  intros Hsrc Hdst. unfold reaggregate, reaggregate_frames, align.
  rewrite run_bind, (run_load _ _ _ Hsrc), run_bind, (run_load _ _ _ Hdst), run_bind.
  destruct (negb (crs_eqb (crs dst) (crs src))).
  - rewrite run_lift. destruct (to_crs src (crs dst)) as [src'|e]; [|reflexivity].
    unfold mbind at 4, result_bind.
    rewrite run_bind, run_lift.
    destruct (weighted_fragments src' dst dst_id) as [f|e]; [|reflexivity].
    unfold mbind at 3, result_bind. rewrite run_bind, run_lift.
    destruct (redistribute agg_vars f) as [f'|e]; [|reflexivity].
    unfold mbind at 2, result_bind. rewrite run_bind, run_lift.
    destruct (aggregate dst f' dst_id agg_vars) as [out|e]; reflexivity.
  - rewrite run_ret. unfold mbind at 4, result_bind.
    rewrite run_bind, run_lift.
    destruct (weighted_fragments src dst dst_id) as [f|e]; [|reflexivity].
    unfold mbind at 3, result_bind. rewrite run_bind, run_lift.
    destruct (redistribute agg_vars f) as [f'|e]; [|reflexivity].
    unfold mbind at 2, result_bind. rewrite run_bind, run_lift.
    destruct (aggregate dst f' dst_id agg_vars) as [out|e]; reflexivity.
Qed.

Lemma align_columns dst src src' :
  align dst src = Ok src' -> columns src' = columns src /\ crs src' = crs dst.
Proof.
  unfold align. destruct (negb (crs_eqb (crs dst) (crs src))) eqn:E.
  - unfold to_crs. destruct (crs src), (crs dst); try discriminate.
    intros [= <-]. auto.
  - intros [= <-]. split; [reflexivity|].
    apply negb_false_iff in E. unfold crs_eqb in E.
    destruct (crs dst), (crs src); try discriminate; [|reflexivity].
    apply Z.eqb_eq in E. now subst.
Qed.

Lemma compatible_layers_align dst src src' dst_id ids :
  align dst src = Ok src' ->
  compatible_layers dst src dst_id ids -> compatible_layers dst src' dst_id ids.
Proof.
  intros Ha. apply align_columns in Ha as [Hc _]. unfold compatible_layers.
  now rewrite Hc.
Qed.

(** The whole of [reaggregate] on a compatible pair of layers: it
    returns, and the column of each variable holds, per destination
    record, the sum of the redistributed variable over the fragments of
    the record's identifier. *)
Lemma reaggregate_frames_column src dst src' dst_id ids agg_vars c :
  crs dst = Some c ->
  align dst src = Ok src' ->
  compatible_layers dst src dst_id ids ->
  (forall var, var ∈ agg_vars -> Table.has_col var (columns src) = true) ->
  let parents := overlay_parents (geometry dst) (geometry src') in
  exists out rc',
    reaggregate_frames src dst dst_id agg_vars = Ok out
    /\ rc_redistribute agg_vars (fragment_rc c ids dst src' parents) = Ok rc'
    /\ forall var g, var ∈ agg_vars -> rc_lookup var rc' = Some g ->
         col_lookup var (columns out)
         = Some (map (fun id =>
                   if Table.key_mem id (Table.group_keys (map (frag_key ids) (kept ids parents)))
                   then Pandas.sum (map g (fragments_in ids id parents))
                   else NaN) ids).
Proof.
  intros Hc Ha Hcompat Hvars parents.
  pose proof (compatible_layers_align _ _ _ _ _ Ha Hcompat) as Hcompat'.
  destruct (align_columns _ _ _ Ha) as [Hcols _].
  destruct (fragment_rc_lookups c ids dst src' dst_id parents Hcompat')
    as (Hk & Hu & Hp & Hfa).
  destruct Hcompat' as (Hid & Hdisj & Hud & Hus & Hn1 & Hn2 & Hn3).
  assert (Hsrc' : forall var, var ∈ agg_vars -> Table.has_col var (columns src') = true).
  { intros var Hin. rewrite Hcols. now apply Hvars. }
  assert (Hin_rc : forall var, var ∈ agg_vars ->
            is_Some (rc_lookup var (fragment_rc c ids dst src' parents))).
  { intros var Hin. unfold fragment_rc.
    apply rc_lookup_set_is_Some. rewrite rc_lookup_app.
    assert (Hs : is_Some (rc_lookup var (rc_set "fragment_area" (frag_area c)
                                           (dst_rc dst ++ src_rc src')))).
    { apply rc_lookup_set_is_Some. rewrite rc_lookup_app.
      destruct (rc_lookup var (dst_rc dst)); [eauto|].
      rewrite src_rc_lookup. specialize (Hsrc' var Hin). unfold Table.has_col in Hsrc'.
      destruct (col_lookup var (columns src')); [simpl; eauto|discriminate]. }
    destruct Hs as [g ->]. eauto. }
  destruct (rc_redistribute_ok agg_vars (fragment_rc c ids dst src' parents) Hin_rc)
    as [rc' Hrc']; [rewrite Hp; eauto|].
  assert (Hidn : dst_id ∉ agg_vars).
  { intros Hin. specialize (Hsrc' _ Hin). unfold Table.has_col in Hsrc'.
    rewrite (Hdisj dst_id) in Hsrc'; [discriminate|].
    unfold Table.has_col. now rewrite Hid. }
  destruct (aggregate_column (kept ids parents) rc' dst src' dst_id ids agg_vars
              (Some c) (map snd (kept ids parents)) (frag_key ids))
    as (out & Hout & Hcol); auto.
  { intros var Hin. eapply rc_redistribute_is_Some; eauto. }
  { rewrite (rc_redistribute_other _ _ _ _ Hrc' Hidn). exact Hk. }
  exists out, rc'. split; [|split; [exact Hrc'|]].
  - unfold reaggregate_frames. rewrite Ha. unfold mbind, result_bind. cbv beta iota.
    rewrite (weighted_fragments_rows src' dst dst_id ids c Hc
               (conj Hid (conj Hdisj (conj Hud (conj Hus (conj Hn1 (conj Hn2 Hn3))))))).
    cbv beta iota zeta. fold parents. fold (kept ids parents).
    rewrite redistribute_rows, Hrc'. exact Hout.
  - intros var g Hin Hg. rewrite (Hcol var g Hin Hg). f_equal.
    apply map_ext. intros id. unfold kept. now rewrite fragments_in_kept.
Qed.

End EndToEnd.

(* ===================================================================== *)
(** ** A destination polygon of area zero *)
(* ===================================================================== *)

Section ZeroArea.
Context {geom : Type} `{Projection geom} `{Overlay geom}.
Implicit Types (src dst : GeoDataFrame geom) (h : list (GeoDataFrame geom)).

Lemma weighted_fragments_crs src dst dst_id fragment_df :
  weighted_fragments src dst dst_id = Ok fragment_df -> exists c, crs dst = Some c.
Proof.
  intros Hrun. destruct (crs dst) as [c|] eqn:Hc; [eauto|].
  unfold weighted_fragments, to_crs in Hrun.
  assert (Hov : crs (overlay_union dst src) = None) by exact Hc.
  rewrite Hov in Hrun. discriminate.
Qed.

(** What the three working columns of the fragment table hold. *)
Lemma fragment_columns src dst dst_id ids c fragment_df key u pct :
  crs dst = Some c ->
  compatible_layers dst src dst_id ids ->
  weighted_fragments src dst dst_id = Ok fragment_df ->
  col_lookup dst_id (columns fragment_df) = Some key ->
  col_lookup "dst_unit_area" (columns fragment_df) = Some u ->
  col_lookup "fragment_area_pct" (columns fragment_df) = Some pct ->
  let parents := overlay_parents (geometry dst) (geometry src) in
  key = map (frag_key ids) (kept ids parents)
  /\ u = map (fun p => dst_unit_area c ids parents (frag_key ids p)) (kept ids parents)
  /\ pct = map (frag_pct c ids parents) (kept ids parents).
Proof.
  intros Hc Hcompat Hrun Hkey Hu Hpct parents.
  rewrite (weighted_fragments_rows src dst dst_id ids c Hc Hcompat) in Hrun.
  injection Hrun as <-. cbn [columns] in Hkey, Hu, Hpct.
  destruct (fragment_rc_lookups c ids dst src dst_id parents Hcompat)
    as (Hk' & Hu' & Hp' & _). fold parents in Hkey, Hu, Hpct.
  rewrite col_lookup_materialize, Hk' in Hkey.
  rewrite col_lookup_materialize, Hu' in Hu.
  rewrite col_lookup_materialize, Hp' in Hpct.
  injection Hkey as <-. injection Hu as <-. injection Hpct as <-. auto.
Qed.

Lemma kept_fragments_in ids (parents : list (frow geom)) p :
  p ∈ kept ids parents -> p ∈ fragments_in ids (frag_key ids p) parents.
Proof.
  unfold kept, fragments_in. rewrite !list_elem_of_In, !filter_In.
  intros [Hp Hna]. split; [done|]. now apply feqb_refl.
Qed.

Lemma key_mem_kept ids (parents : list (frow geom)) p :
  p ∈ kept ids parents ->
  Table.key_mem (frag_key ids p) (Table.group_keys (map (frag_key ids) (kept ids parents)))
  = true.
Proof.
  intros Hp. rewrite frag_key_mem by done.
  unfold kept in Hp. apply list_elem_of_In, filter_In in Hp. tauto.
Qed.

(** C3, amended: [reaggregate] has no case for a [dst_unit_area] of
    zero; the call returns all the same.  A destination record that has
    no fragment (a degenerate polygon, which the overlay drops) is not
    in the sums at all, and the left merge gives it the missing value
    [NaN] for every variable.  A destination record whose fragments
    have the total area [0] gets [0 / 0 = NaN] as [fragment_area_pct] on
    each fragment; every redistributed value of these fragments is
    missing, the sums skip them, and the record holds [0] for every
    variable. *)
Theorem zero_area_destination_unhandled
    h src_gdf dst_gdf src dst src' dst_id ids agg_vars fragment_df key u pct :
  (forall g : geom, 0 <= area g) ->
  h !! src_gdf = Some src ->
  h !! dst_gdf = Some dst ->
  align dst src = Ok src' ->
  compatible_layers dst src dst_id ids ->
  (forall var, var ∈ agg_vars -> Table.has_col var (columns src) = true) ->
  weighted_fragments src' dst dst_id = Ok fragment_df ->
  col_lookup dst_id (columns fragment_df) = Some key ->
  col_lookup "dst_unit_area" (columns fragment_df) = Some u ->
  col_lookup "fragment_area_pct" (columns fragment_df) = Some pct ->
  exists out,
    reaggregate src_gdf dst_gdf dst_id agg_vars h = (Ok (length h), h ++ [out])
    /\ forall i d, ids !! i = Some d ->
         ((forall j, key !! j <> Some d) ->
          forall var, var ∈ agg_vars ->
            exists o, col_lookup var (columns out) = Some o /\ o !! i = Some NaN)
         /\ (forall j, key !! j = Some d -> u !! j = Some (Fin 0) ->
              (forall j', key !! j' = Some d -> pct !! j' = Some NaN)
              /\ forall var, var ∈ agg_vars ->
                   exists o, col_lookup var (columns out) = Some o /\ o !! i = Some (Fin 0)).
Proof.
  intros Harea Hsrc Hdst Ha Hcompat Hvars Hrun Hkey Hu Hpct.
  destruct (weighted_fragments_crs _ _ _ _ Hrun) as [c Hc].
  pose proof (compatible_layers_align _ _ _ _ _ Ha Hcompat) as Hcompat'.
  destruct (fragment_columns _ _ _ _ _ _ _ _ _ Hc Hcompat' Hrun Hkey Hu Hpct)
    as (-> & -> & ->).
  set (parents := overlay_parents (geometry dst) (geometry src')) in *.
  destruct (reaggregate_frames_column src dst src' dst_id ids agg_vars c Hc Ha Hcompat Hvars)
    as (out & rc' & Hout & Hrc' & Hcol).
  fold parents in Hrc', Hcol.
  destruct (fragment_rc_lookups c ids dst src' dst_id parents Hcompat') as (_ & _ & Hp' & _).
  assert (Hlisted : forall var, var ∈ agg_vars -> exists g, rc_lookup var rc' = Some g).
  { intros var Hin. apply (rc_redistribute_is_Some agg_vars var _ _ Hrc').
    unfold fragment_rc. apply rc_lookup_set_is_Some. rewrite rc_lookup_app.
    assert (Hs : is_Some (rc_lookup var (rc_set "fragment_area" (frag_area c)
                                           (dst_rc dst ++ src_rc src')))).
    { apply rc_lookup_set_is_Some. rewrite rc_lookup_app.
      destruct (rc_lookup var (dst_rc dst)); [eauto|].
      rewrite src_rc_lookup. destruct (align_columns _ _ _ Ha) as [-> _].
      specialize (Hvars var Hin). unfold Table.has_col in Hvars.
      destruct (col_lookup var (columns src)); [simpl; eauto|discriminate]. }
    destruct Hs as [g0 ->]. eauto. }
  exists out. split.
  { rewrite (run_reaggregate _ _ _ _ _ _ _ Hsrc Hdst), Hout. reflexivity. }
  intros i d Hi. split.
  - (* no fragment: the left merge finds no sum *)
    intros Hnone var Hin. destruct (Hlisted var Hin) as [g Hg].
    eexists. split; [exact (Hcol var g Hin Hg)|].
    rewrite list_lookup_fmap, Hi. simpl. f_equal.
    destruct (Table.key_mem d _) eqn:E; [|reflexivity]. exfalso.
    unfold Table.key_mem in E.
    destruct (Table.key_index d _) as [j|] eqn:Ej; [|discriminate].
    apply key_index_Some in Ej as [Hj _].
    apply list_elem_of_lookup_2, elem_of_group_keys in Hj as [Hj _].
    apply list_elem_of_lookup_1 in Hj as [j' Hj']. exact (Hnone j' Hj').
  - (* fragments of total area zero: the share is 0 / 0 *)
    intros j Hd HT.
    rewrite list_lookup_fmap in Hd, HT.
    destruct (kept ids parents !! j) as [p|] eqn:Hp; [|discriminate].
    simpl in Hd, HT. injection Hd as Hd. injection HT as HT.
    apply list_elem_of_lookup_2 in Hp.
    rewrite Hd, dst_unit_area_fin in HT. injection HT as HT.
    assert (Hzero : forall q, q ∈ fragments_in ids d parents -> frag_pct c ids parents q = NaN).
    { intros q Hq. unfold frag_pct.
      pose proof (Rsum_zero (area_of c) _ (fun x => Harea _) HT q Hq) as Hq0.
      apply fragments_in_key in Hq as [Hq _].
      rewrite Hq, dst_unit_area_fin, HT. unfold frag_area. fold (area_of c q).
      rewrite Hq0. apply fdiv_zero_zero. }
    split.
    + intros j' Hj'. rewrite list_lookup_fmap in Hj'. rewrite list_lookup_fmap.
      destruct (kept ids parents !! j') as [q|] eqn:Hq; [|discriminate].
      simpl in *. injection Hj' as Hj'. f_equal. apply Hzero.
      apply list_elem_of_lookup_2 in Hq. rewrite <- Hj'. now apply kept_fragments_in.
    + intros var Hin. destruct (Hlisted var Hin) as [g Hg].
      assert (Hnan : forall q, q ∈ fragments_in ids d parents -> g q = NaN).
      { intros q Hq.
        destruct (rc_redistribute_nan agg_vars q _ _ Hrc') as [_ Hall].
        - exists (frag_pct c ids parents). split; [exact Hp'|now apply Hzero].
        - destruct (Hall var Hin) as (g' & Hg' & Hgq). rewrite Hg in Hg'.
          now injection Hg' as <-. }
      eexists. split; [exact (Hcol var g Hin Hg)|].
      rewrite list_lookup_fmap, Hi. simpl. f_equal.
      rewrite <- Hd at 1. rewrite (key_mem_kept ids parents p Hp).
      now apply sum_all_nan.
Qed.

End ZeroArea.

(* ===================================================================== *)
(** ** What reaggregate assigns to a destination unit *)
(* ===================================================================== *)

(** The scenario of C1 on the code: one source polygon with [pop = 100]
    over two destination cells of equal area. *)
Lemma reaggregate_county_run :
  reaggregate 0%nat 1%nat "cell_id" ["pop"%string] [Examples.county; Examples.two_cells]
  = (Ok 2%nat, [Examples.county; Examples.two_cells; Examples.two_cells_pop]).
Proof.
  unfold reaggregate, weighted_fragments, Examples.county, Examples.two_cells,
    Examples.two_cells_pop.
  feval. reflexivity.
Qed.

(** C1, as stated, fails: each of the two cells is assigned [pop = 100],
    not [50], and the values assigned sum to [200] where the source holds
    [100]. *)
Lemma reaggregate_county_not_halved :
  exists out pop,
    (reaggregate 0%nat 1%nat "cell_id" ["pop"%string]
       [Examples.county; Examples.two_cells]).2 !! 2%nat = Some out
    /\ col_lookup "pop" (columns out) = Some pop
    /\ pop = [Fin 100; Fin 100]
    /\ pop <> [Fin 50; Fin 50]
    /\ Pandas.sum pop <> Pandas.sum [Fin 100].
Proof.
  rewrite reaggregate_county_run.
  exists Examples.two_cells_pop, [Fin 100; Fin 100]. repeat split.
  - intros [= Heq]. lra.
  - unfold Pandas.sum. simpl. intros [= Heq]. lra.
Qed.

Section WeightedMean.
Context {geom : Type} `{Projection geom} `{Overlay geom}.
Implicit Types (src dst : GeoDataFrame geom) (h : list (GeoDataFrame geom)).

(** C1, amended: for one source polygon with [pop = 100] that covers two
    destination cells of equal area, [reaggregate] assigns [pop = 100]
    to each cell.  In general the value it assigns to a destination unit
    of non-zero [dst_unit_area] [T] is the sum, over the fragments of
    the unit, of the source value times the share [fragment_area / T]
    of the unit that the fragment covers (missing products skipped):
    the area-weighted mean of the source values over the unit.  What is
    kept is this mean; a source value is not divided among the units it
    covers, and the values assigned do not sum to the source total. *)
Theorem reaggregate_assigns_area_weighted_mean
    h src_gdf dst_gdf src dst src' dst_id ids agg_vars fragment_df key u j d T c var v :
  reaggregate 0%nat 1%nat "cell_id" ["pop"%string] [Examples.county; Examples.two_cells]
  = (Ok 2%nat, [Examples.county; Examples.two_cells; Examples.two_cells_pop])
  /\
  (h !! src_gdf = Some src ->
   h !! dst_gdf = Some dst ->
   crs dst = Some c ->
   align dst src = Ok src' ->
   compatible_layers dst src dst_id ids ->
   (forall x, x ∈ agg_vars -> Table.has_col x (columns src) = true) ->
   NoDup agg_vars ->
   "fragment_area_pct"%string ∉ agg_vars ->
   "fragment_area"%string ∉ agg_vars ->
   weighted_fragments src' dst dst_id = Ok fragment_df ->
   col_lookup dst_id (columns fragment_df) = Some key ->
   col_lookup "dst_unit_area" (columns fragment_df) = Some u ->
   key !! j = Some d ->
   u !! j = Some (Fin T) ->
   T <> 0 ->
   var ∈ agg_vars ->
   col_lookup var (columns src) = Some v ->
   let parents := overlay_parents (geometry dst) (geometry src') in
   exists out,
     reaggregate src_gdf dst_gdf dst_id agg_vars h = (Ok (length h), h ++ [out])
     /\ forall i, ids !! i = Some d ->
          exists o, col_lookup var (columns out) = Some o
            /\ o !! i = Some (Pandas.sum
                                (map (fun p => fmul (frag_src v p) (Fin (area_of c p / T)))
                                     (fragments_in ids d parents)))).
Proof.
  split; [exact reaggregate_county_run|].
  intros Hsrc Hdst Hc Ha Hcompat Hvars Hnd Hpn Hfn Hrun Hkey Hu Hd HT HT0 Hin Hv parents.
  pose proof (compatible_layers_align _ _ _ _ _ Ha Hcompat) as Hcompat'.
  destruct (fragment_rc_lookups c ids dst src' dst_id parents Hcompat')
    as (_ & Hu' & Hp' & _).
  assert (Hkey' : key = map (frag_key ids) (kept ids parents)
                  /\ u = map (fun p => dst_unit_area c ids parents (frag_key ids p))
                             (kept ids parents)).
  { rewrite (weighted_fragments_rows src' dst dst_id ids c Hc Hcompat') in Hrun.
    injection Hrun as <-. cbn [columns] in Hkey, Hu.
    destruct (fragment_rc_lookups c ids dst src' dst_id parents Hcompat') as (Hk' & _).
    fold parents in Hkey, Hu.
    rewrite col_lookup_materialize, Hk' in Hkey.
    rewrite col_lookup_materialize, Hu' in Hu.
    injection Hkey as <-. injection Hu as <-. auto. }
  destruct Hkey' as [-> ->].
  rewrite list_lookup_fmap in Hd, HT.
  destruct (kept ids parents !! j) as [p|] eqn:Hp; [|discriminate].
  simpl in Hd, HT. injection Hd as Hd. injection HT as HT.
  apply list_elem_of_lookup_2 in Hp. rewrite Hd in HT.
  destruct (reaggregate_frames_column src dst src' dst_id ids agg_vars c Hc Ha Hcompat Hvars)
    as (out & rc' & Hout & Hrc' & Hcol).
  fold parents in Hrc', Hcol.
  exists out. split.
  { rewrite (run_reaggregate _ _ _ _ _ _ _ Hsrc Hdst), Hout. reflexivity. }
  intros i Hi.
  (* the column of [var] before and after the loop *)
  destruct Hcompat' as (Hid & Hdisj & Hud & Hus & Hn1 & Hn2 & Hn3).
  destruct (align_columns _ _ _ Ha) as [Hcols _].
  assert (Hg0 : rc_lookup var (fragment_rc c ids dst src' parents) = Some (frag_src v)).
  { unfold fragment_rc.
    rewrite rc_lookup_set_ne by (intros <-; contradiction).
    rewrite rc_lookup_app, rc_lookup_set_ne by (intros <-; contradiction).
    rewrite rc_lookup_app, dst_rc_lookup, src_rc_lookup, Hcols, Hv.
    destruct (col_lookup var (columns dst)) as [w|] eqn:Hw; [|reflexivity].
    exfalso. assert (Hk : Table.has_col var (columns dst) = true)
      by (unfold Table.has_col; now rewrite Hw).
    specialize (Hdisj var Hk). rewrite Hcols, Hv in Hdisj. discriminate. }
  pose proof (rc_redistribute_listed agg_vars _ _ _ Hrc' Hnd Hpn Hp' var _ Hin Hg0) as Hg.
  eexists. split; [exact (Hcol var _ Hin Hg)|].
  rewrite list_lookup_fmap, Hi. simpl. f_equal.
  rewrite <- Hd at 1. rewrite (key_mem_kept ids parents p Hp).
  f_equal. apply map_ext_in. intros q Hq. f_equal.
  apply list_elem_of_In, fragments_in_key in Hq as [Hq _].
  unfold frag_pct. rewrite Hq, HT. unfold frag_area. fold (area_of c q). simpl.
  destruct (Rsign T) eqn:E; try reflexivity.
  apply Rsign_Eq_inv in E. contradiction.
Qed.

End WeightedMean.

(** ** The statements above on the two example pairs of layers *)

Lemma faces_area_nonneg : forall g : Faces.geom, 0 <= area g.
Proof. intros g. simpl. apply IZR_le. lia. Qed.

Lemma county_compatible :
  compatible_layers Examples.two_cells Examples.county "cell_id" [Fin 0; Fin 1].
Proof.
  split; [reflexivity|]. split.
  - intros k Hk. unfold Table.has_col, Examples.two_cells in Hk.
    cbn [columns col_lookup] in Hk.
    destruct (String.eqb "cell_id" k) eqn:E; [|discriminate].
    apply String.eqb_eq in E. subst k. reflexivity.
  - repeat split; try reflexivity; discriminate.
Qed.

Lemma thin_compatible :
  compatible_layers Examples.thin_cells Examples.thin_county "cell_id" [Fin 0; Fin 1; Fin 2].
Proof.
  split; [reflexivity|]. split.
  - intros k Hk. unfold Table.has_col, Examples.thin_cells in Hk.
    cbn [columns col_lookup] in Hk.
    destruct (String.eqb "cell_id" k) eqn:E; [|discriminate].
    apply String.eqb_eq in E. subst k. reflexivity.
  - repeat split; try reflexivity; discriminate.
Qed.

Lemma county_fragments_run :
  weighted_fragments Examples.county Examples.two_cells "cell_id"
  = Ok Examples.county_fragments.
Proof.
  unfold weighted_fragments, Examples.county, Examples.two_cells, Examples.county_fragments.
  feval. reflexivity.
Qed.

Lemma thin_fragments_run :
  weighted_fragments Examples.thin_county Examples.thin_cells "cell_id"
  = Ok Examples.thin_fragments.
Proof.
  unfold weighted_fragments, Examples.thin_county, Examples.thin_cells, Examples.thin_fragments.
  feval. reflexivity.
Qed.

Lemma reaggregate_thin_run :
  reaggregate 0%nat 1%nat "cell_id" ["pop"%string] [Examples.thin_county; Examples.thin_cells]
  = (Ok 2%nat, [Examples.thin_county; Examples.thin_cells; Examples.thin_cells_pop]).
Proof.
  unfold reaggregate, weighted_fragments, Examples.thin_county, Examples.thin_cells,
    Examples.thin_cells_pop.
  feval. reflexivity.
Qed.

(** C3, as stated, fails: nothing handles the zero area.  On the first
    cell, whose area is [0], [fragment_area_pct] is the [NaN] of
    [0 / 0]; the third cell, a degenerate polygon, has no fragment, and
    the layer [reaggregate] returns holds [NaN] as its [pop]. *)
Lemma reaggregate_degenerate_cell_gives_nan :
  (exists pct,
     weighted_fragments Examples.thin_county Examples.thin_cells "cell_id"
     = Ok Examples.thin_fragments
     /\ col_lookup "fragment_area_pct" (columns Examples.thin_fragments) = Some pct
     /\ pct !! 0%nat = Some NaN)
  /\ exists out pop,
       (reaggregate 0%nat 1%nat "cell_id" ["pop"%string]
          [Examples.thin_county; Examples.thin_cells]).2 !! 2%nat = Some out
       /\ col_lookup "pop" (columns out) = Some pop
       /\ pop !! 2%nat = Some NaN.
Proof.
  split.
  - exists [NaN; Fin 1]. split; [exact thin_fragments_run|]. split; reflexivity.
  - rewrite reaggregate_thin_run.
    exists Examples.thin_cells_pop, [Fin 0; Fin 7; NaN]. repeat split.
Qed.

Lemma pop_in_county x : x ∈ ["pop"%string] -> Table.has_col x [("pop"%string, [Fin 100])] = true.
Proof. intros Hx. apply list_elem_of_singleton in Hx as ->. reflexivity. Qed.

Lemma pop_in_thin_county x : x ∈ ["pop"%string] -> Table.has_col x [("pop"%string, [Fin 7])] = true.
Proof. intros Hx. apply list_elem_of_singleton in Hx as ->. reflexivity. Qed.

Lemma fragment_area_pct_sums_to_one_witness :
  Pandas.sum (Table.group_cells [Fin 0; Fin 1] (Fin 0) [Fin 1; Fin 1]) = Fin 1.
Proof.
  apply (fragment_area_pct_sums_to_one Examples.county Examples.two_cells "cell_id"
           [Fin 0; Fin 1] Examples.county_fragments
           [Fin 0; Fin 1] [Fin 1; Fin 1] [Fin 1; Fin 1] 0%nat (Fin 0) 1).
  - exact county_compatible.
  - exact county_fragments_run.
  - reflexivity.
  - reflexivity.
  - reflexivity.
  - reflexivity.
  - reflexivity.
  - lra.
Defined.

Lemma zero_area_destination_unhandled_witness :
  exists out,
    reaggregate 0%nat 1%nat "cell_id" ["pop"%string]
      [Examples.thin_county; Examples.thin_cells]
    = (Ok 2%nat, [Examples.thin_county; Examples.thin_cells] ++ [out])
    /\ (exists o, col_lookup "pop" (columns out) = Some o /\ o !! 2%nat = Some NaN)
    /\ [NaN; Fin 1] !! 0%nat = Some NaN
    /\ (exists o, col_lookup "pop" (columns out) = Some o /\ o !! 0%nat = Some (Fin 0)).
Proof.
  destruct (zero_area_destination_unhandled
              [Examples.thin_county; Examples.thin_cells] 0%nat 1%nat
              Examples.thin_county Examples.thin_cells Examples.thin_county
              "cell_id" [Fin 0; Fin 1; Fin 2] ["pop"%string] Examples.thin_fragments
              [Fin 0; Fin 1] [Fin 0; Fin 1] [NaN; Fin 1]
              faces_area_nonneg eq_refl eq_refl eq_refl thin_compatible pop_in_thin_county
              thin_fragments_run eq_refl eq_refl eq_refl)
    as (out & Hrun & Hout).
  exists out. split; [exact Hrun|].
  destruct (Hout 2%nat (Fin 2) eq_refl) as [Hnone _].
  destruct (Hout 0%nat (Fin 0) eq_refl) as [_ Hzero].
  destruct (Hzero 0%nat eq_refl eq_refl) as [Hpct Hpop].
  split; [|split].
  - apply (Hnone (fun j => ltac:(destruct j as [|[|j]]; simpl; intros [= E]; lra))
             "pop"%string). left.
  - exact (Hpct 0%nat eq_refl).
  - apply (Hpop "pop"%string). left.
Defined.

Lemma reaggregate_assigns_area_weighted_mean_witness :
  exists out,
    reaggregate 0%nat 1%nat "cell_id" ["pop"%string] [Examples.county; Examples.two_cells]
    = (Ok 2%nat, [Examples.county; Examples.two_cells] ++ [out])
    /\ exists o, col_lookup "pop" (columns out) = Some o
         /\ o !! 0%nat
            = Some (Pandas.sum
                      (map (fun p => fmul (frag_src [Fin 100] p)
                                          (Fin (area_of EPSG_3857 p / 1)))
                           (fragments_in [Fin 0; Fin 1] (Fin 0)
                              (overlay_parents (geometry Examples.two_cells)
                                               (geometry Examples.county))))).
Proof.
  destruct (proj2 (reaggregate_assigns_area_weighted_mean
              [Examples.county; Examples.two_cells] 0%nat 1%nat
              Examples.county Examples.two_cells Examples.county
              "cell_id" [Fin 0; Fin 1] ["pop"%string] Examples.county_fragments
              [Fin 0; Fin 1] [Fin 1; Fin 1] 0%nat (Fin 0) 1 EPSG_3857
              "pop"%string [Fin 100])
              eq_refl eq_refl eq_refl eq_refl county_compatible pop_in_county)
    as (out & Hrun & Hout).
  - apply NoDup_singleton.
  - intros Hin. apply list_elem_of_singleton in Hin. discriminate.
  - intros Hin. apply list_elem_of_singleton in Hin. discriminate.
  - exact county_fragments_run.
  - reflexivity.
  - reflexivity.
  - reflexivity.
  - reflexivity.
  - lra.
  - left.
  - reflexivity.
  - exists out. split; [exact Hrun|]. now apply Hout.
Defined.

(* ===================================================================== *)
(** ** The composite score and a column of the negative list *)
(* ===================================================================== *)













(** ** Sums of reals *)



Lemma Rsum_ext {X} (f g : X -> R) l : (forall x, f x = g x) -> Rsum f l = Rsum g l.
Proof. intros Hfg. induction l as [|x l IH]; simpl; [reflexivity|]. now rewrite Hfg, IH. Qed.

Lemma size_cons {X} (x : X) l :
  IZR (Z.of_nat (length (x :: l))) = IZR (Z.of_nat (length l)) + 1.
Proof. simpl length. now rewrite Nat2Z.inj_succ, succ_IZR. Qed.


Lemma size_nonneg {X} (l : list X) : 0 <= IZR (Z.of_nat (length l)).
Proof. apply IZR_le. lia. Qed.

Lemma size_pos {X} (l : list X) : l <> [] -> 1 <= IZR (Z.of_nat (length l)).
Proof. destruct l; [done|]. intros _. rewrite size_cons. pose proof (size_nonneg l). lra. Qed.



(** ** Mean and standard deviation of a column, on its numbers *)

Lemma Rssd_nonneg ys : 0 <= Rssd ys.
Proof. apply Rsum_nonneg. intros y. apply Rle_0_sqr. Qed.





Lemma Rsign_pos_cases r : 0 <= r -> Rsign r = Eq \/ Rsign r = Gt.
Proof.
  intros Hr. unfold Rsign. destruct (total_order_T r 0) as [[?|?]|?]; auto. lra.
Qed.


Lemma values_fin_cons t c : values (Fin t :: c) = t :: values c.
Proof. reflexivity. Qed.


Lemma dropna_values c : no_infinite c -> Pandas.dropna c = map Fin (values c).
Proof.
  unfold Pandas.dropna. induction 1 as [|x c [Hp Hn] _ IH]; [reflexivity|].
  destruct x; simpl; congruence.
Qed.

Lemma foldr_fadd_fin {X} (f : X -> R) (l : list X) :
  foldr fadd (Fin 0) (map (fun x => Fin (f x)) l) = Fin (Rsum f l).
Proof. induction l as [|x l IH]; simpl; [reflexivity|]. now rewrite IH. Qed.

Lemma sum_values c : no_infinite c -> Pandas.sum c = Fin (Rsum (fun y => y) (values c)).
Proof.
  intros Hc. unfold Pandas.sum. rewrite (dropna_values c Hc).
  apply (foldr_fadd_fin (fun y => y)).
Qed.

Lemma count_values c : no_infinite c -> Pandas.count c = length (values c).
Proof. intros Hc. unfold Pandas.count. now rewrite (dropna_values c Hc), length_map. Qed.

Lemma mean_values c :
  no_infinite c -> values c <> [] -> Pandas.mean c = Fin (Rmean (values c)).
Proof.
  intros Hc Hne. unfold Pandas.mean. rewrite (sum_values c Hc), (count_values c Hc).
  pose proof (size_pos _ Hne). simpl. now rewrite Rsign_Gt by lra.
Qed.

Lemma std_values c :
  no_infinite c -> (2 <= length (values c))%nat -> Pandas.std c = Fin (Rstd (values c)).
Proof.
  intros Hc Hlen. unfold Pandas.std.
  rewrite (count_values c Hc).
  destruct (Nat.leb_spec (length (values c)) 1) as [Hle|_]; [lia|].
  rewrite mean_values by (try done; intros E; rewrite E in Hlen; simpl in Hlen; lia).
  rewrite (dropna_values c Hc), map_map. simpl.
  rewrite (foldr_fadd_fin (fun y => (y + - Rmean (values c)) * (y + - Rmean (values c)))).
  assert (Hk : 1 <= IZR (Z.of_nat (length (values c) - 1))) by (apply IZR_le; lia).
  simpl. rewrite (Rsign_Gt (IZR _)) by lra.
  assert (Hq : 0 <= Rssd (values c) / IZR (Z.of_nat (length (values c) - 1))).
  { apply Rmult_le_pos; [apply Rssd_nonneg|]. apply Rlt_le, Rinv_0_lt_compat. lra. }
  unfold Rstd. fold (Rssd (values c)).
  change (Rsum _ (values c)) with (Rssd (values c)).
  simpl. destruct (Rsign_pos_cases _ Hq) as [->| ->]; reflexivity.
Qed.







(** ** Minimum and maximum of a column, on its numbers *)












(** ** The row mean is monotone in each cell *)



Lemma not_above_fneg z1 z2 : not_above z1 z2 -> not_above (fneg z2) (fneg z1).
Proof. destruct z1, z2; simpl; intros Hz; try discriminate; try reflexivity. lra. Qed.






Lemma lookup_all_map names cs (F : string -> list float64) :
  (forall name, name ∈ names -> col_lookup name cs = Some (F name)) ->
  lookup_all names cs = Ok (map F names).
Proof.
  induction names as [|name rest IH]; intros Hall; simpl; [reflexivity|].
  rewrite (Hall name) by left. rewrite IH; [reflexivity|].
  intros x Hx. apply Hall. now right.
Qed.




Section ScoreMonotone.
Context {geom : Type}.



End ScoreMonotone.



(* ===================================================================== *)
(** ** Standardising a constant column of whole numbers *)
(* ===================================================================== *)

Lemma values_replicate n c : values (replicate n (Fin c)) = replicate n c.
Proof. induction n as [|n IH]; [reflexivity|]. simpl replicate. now rewrite values_fin_cons, IH. Qed.

Lemma no_infinite_replicate n c : no_infinite (replicate n (Fin c)).
Proof. apply Forall_replicate. split; discriminate. Qed.

Lemma Rsum_replicate (f : R -> R) n c : Rsum f (replicate n c) = IZR (Z.of_nat n) * f c.
Proof.
  induction n as [|n IH]; [simpl; ring|].
  rewrite Nat2Z.inj_succ, succ_IZR. simpl. rewrite IH. ring.
Qed.

Lemma Rmean_replicate n c : (0 < n)%nat -> Rmean (replicate n c) = c.
Proof.
  intros Hn. unfold Rmean. rewrite Rsum_replicate, length_replicate.
  assert (0 < IZR (Z.of_nat n)) by (apply IZR_lt; lia). field. lra.
Qed.

Lemma Rstd_replicate n c : (0 < n)%nat -> Rstd (replicate n c) = 0.
Proof.
  intros Hn. unfold Rstd, Rssd. rewrite Rsum_replicate, (Rmean_replicate n c Hn).
  replace (IZR (Z.of_nat n) * ((c - c) * (c - c)) / _) with 0
    by (unfold Rdiv; ring).
  apply sqrt_0.
Qed.

Lemma fdiv_nan a : fdiv a NaN = NaN.
Proof. now destruct a. Qed.

(** A column of [n] cells that all hold [c] is standardised to [n]
    missing values: [0 / 0] for two cells or more, and a division by the
    missing standard deviation of a single cell. *)
Lemma standardize_replicate n c : standardize (replicate n (Fin c)) = replicate n NaN.
Proof.
  destruct n as [|[|n]].
  - reflexivity.
  - unfold standardize, Pandas.std. simpl. now rewrite fdiv_nan.
  - rewrite standardize_zero_std.
    + generalize (S (S n)). clear. intros n.
      induction n as [|n IH]; [reflexivity|]. simpl. now f_equal.
    + rewrite std_values.
      * now rewrite values_replicate, Rstd_replicate by lia.
      * apply no_infinite_replicate.
      * rewrite values_replicate, length_replicate. lia.
Qed.

Lemma all_nan_replicate n : all_nan (replicate n NaN).
Proof. now apply Forall_replicate. Qed.

Lemma loop_columns_missing neg_vars vars : forall cs,
  (forall var, var ∈ vars ->
     exists c, col_lookup var cs = Some c /\ all_nan (standardize c)) ->
  (loop_columns standardize neg_vars vars cs).1 = Ok tt /\
  forall var, var ∈ vars ->
    exists c, col_lookup var (loop_columns standardize neg_vars vars cs).2 = Some c /\ all_nan c.
Proof.
  induction vars as [|var rest IH]; intros cs Hall; simpl.
  - split; [done|]. intros var Hin. now apply elem_of_nil in Hin.
  - destruct (Hall var) as (c & Hc & Hsig); [left|]. rewrite Hc.
    set (w := if str_in var neg_vars then Pandas.neg (standardize c) else standardize c).
    assert (Hw : all_nan w).
    { unfold w. destruct (str_in var neg_vars); [apply neg_all_nan|]; exact Hsig. }
    destruct (IH (col_set var w cs)) as [Hok Hcols].
    { intros var' Hin'. destruct (decide (var = var')) as [<-|Hne].
      - rewrite col_lookup_set_eq. exists w. split; [done|now apply standardize_all_nan].
      - rewrite col_lookup_set_ne by done. apply Hall. now right. }
    split; [done|]. intros var' Hin.
    destruct (decide (var' ∈ rest)) as [Hr|Hr]; [now apply Hcols|].
    apply elem_of_cons in Hin as [->|Hin]; [|contradiction].
    rewrite loop_columns_other by done. rewrite col_lookup_set_eq. eauto.
Qed.

Lemma const_nan_replicate n : map (fun _ => NaN) (seq 0 n) = replicate n NaN.
Proof.
  generalize 0%nat. induction n as [|n IH]; intros s; [reflexivity|].
  simpl. now rewrite IH.
Qed.

(** C5, amended: a constant column is not standardised to [0].  When
    its cells hold one whole number [k] (with [|k|] times the number of
    cells below [2^53], so that the sums pandas takes are exact in
    double precision) its standard deviation is [0] and every cell is
    standardised to the missing value [NaN]; when every listed column of
    [generate_index_score] is such a column, the score of every row is
    missing. *)
Theorem standardize_constant_column_is_missing :
  (forall n k, (Z.abs k * Z.of_nat n < 2 ^ 53)%Z ->
     standardize (replicate n (Fin (IZR k))) = replicate n NaN)
  /\ (forall (h : list (GeoDataFrame Faces.geom)) df d pos_vars neg_vars,
        h !! df = Some d ->
        (forall var, var ∈ pos_vars ++ neg_vars ->
           exists k, (Z.abs k * Z.of_nat (nrows d) < 2 ^ 53)%Z
             /\ col_lookup var (columns d) = Some (replicate (nrows d) (Fin (IZR k)))) ->
        (generate_index_score df pos_vars neg_vars "standardize" h).1
        = Ok (replicate (nrows d) NaN)).
Proof.
  split; [intros n k _; apply standardize_replicate|].
  intros h df d pos_vars neg_vars Hd Hall.
  erewrite generate_index_score_spec; [|exact Hd|reflexivity].
  destruct (loop_columns_missing neg_vars (pos_vars ++ neg_vars) (columns d)) as [Hok Hcols].
  { intros var Hin. destruct (Hall var Hin) as (k & _ & Hc).
    exists (replicate (nrows d) (Fin (IZR k))). split; [exact Hc|].
    rewrite standardize_replicate. apply all_nan_replicate. }
  destruct (loop_columns _ _ _ _) as [r cs]. simpl in Hok, Hcols. subst r.
  destruct (lookup_all_Forall all_nan _ cs Hcols) as (sel & -> & Hsel). simpl.
  rewrite mean_axis1_all_nan by exact Hsel. now rewrite const_nan_replicate.
Qed.

Lemma standardize_constant_column_is_missing_witness :
  standardize [Fin 5; Fin 5; Fin 5] = [NaN; NaN; NaN]
  /\ (generate_index_score 0%nat ["a"%string] [] "standardize" [Examples.df_const]).1
     = Ok [NaN; NaN; NaN].
Proof.
  split.
  - apply (proj1 standardize_constant_column_is_missing 3%nat 5%Z). reflexivity.
  - refine (proj2 standardize_constant_column_is_missing
              [Examples.df_const] 0%nat Examples.df_const ["a"%string] [] eq_refl _).
    intros var Hin. apply list_elem_of_singleton in Hin as ->.
    exists 5%Z. split; reflexivity.
Defined.

(** ** What normalize returns; how generate_index_score fails *)
(** ** What standardize and normalize return *)
(* ===================================================================== *)









(** ** A change of units *)

(** ** How generate_index_score fails *)

Lemma loop_columns_app f neg_vars l1 l2 : forall cs,
  loop_columns f neg_vars (l1 ++ l2) cs
  = match (loop_columns f neg_vars l1 cs).1 with
    | Ok _ => loop_columns f neg_vars l2 (loop_columns f neg_vars l1 cs).2
    | Raise e => (Raise e, (loop_columns f neg_vars l1 cs).2)
    end.
Proof.
  induction l1 as [|x l1 IH]; intros cs; simpl; [reflexivity|].
  destruct (col_lookup x cs); [apply IH|reflexivity].
Qed.

Section ScoreFailure.
Context {geom : Type}.

(** X4: [generate_index_score] with a [std_method] other than
    "standardize" and "normalize" raises [KeyError] and leaves the table
    as it was.  When a listed column is missing from the table it raises
    [KeyError] for the first such column, and the columns listed before
    it have by then been overwritten with their standardised values: the
    caller's table is left half updated. *)
Theorem index_score_failures
    (h : list (GeoDataFrame geom)) df d pos_vars neg_vars std_method :
  h !! df = Some d ->
  (std_func_all std_method = None ->
     generate_index_score df pos_vars neg_vars std_method h = (Raise (KeyError std_method), h))
  /\ (forall f pre var rest,
        std_func_all std_method = Some f ->
        pos_vars ++ neg_vars = pre ++ var :: rest ->
        NoDup pre ->
        (forall x, x ∈ pre -> is_Some (col_lookup x (columns d))) ->
        col_lookup var (columns d) = None ->
        exists d',
          generate_index_score df pos_vars neg_vars std_method h
          = (Raise (KeyError var), <[df := d']> h)
          /\ forall x c, x ∈ pre -> col_lookup x (columns d) = Some c ->
               col_lookup x (columns d')
               = Some (if str_in x neg_vars then Pandas.neg (f c) else f c)).
Proof.
  intros Hd. split.
  - intros Hnone. unfold generate_index_score. now rewrite Hnone.
  - intros f pre var rest Hf Hsplit Hnd Hall Hmiss.
    rewrite (generate_index_score_spec _ _ _ _ _ _ _ Hd Hf), Hsplit, loop_columns_app.
    destruct (loop_columns_listed f neg_vars pre (columns d) Hnd Hall) as [Hok Hcols].
    rewrite Hok. simpl.
    assert (Hnotin : var ∉ pre).
    { intros Hin. destruct (Hall var Hin) as [c Hc]. congruence. }
    rewrite (loop_columns_other f neg_vars pre (columns d) var Hnotin), Hmiss.
    eexists. split; [reflexivity|]. intros x c Hx Hc. simpl. now apply Hcols.
Qed.

End ScoreFailure.

Lemma index_score_failures_witness :
  exists d',
    generate_index_score 0%nat ["a"%string; "zz"%string] [] "standardize" [Examples.df_abc]
    = (Raise (KeyError "zz"), <[0%nat := d']> [Examples.df_abc])
    /\ col_lookup "a" (columns d') = Some (standardize [Fin 1; Fin 2; Fin 3]).
Proof.
  destruct (proj2 (index_score_failures [Examples.df_abc] 0%nat Examples.df_abc
                     ["a"%string; "zz"%string] [] "standardize" eq_refl)
                  standardize ["a"%string] "zz"%string [] eq_refl eq_refl)
    as (d' & Hrun & Hcols).
  - apply NoDup_singleton.
  - intros x Hx. apply list_elem_of_singleton in Hx as ->. eexists. reflexivity.
  - reflexivity.
  - exists d'. split; [exact Hrun|]. apply (Hcols "a"%string); [left|reflexivity].
Defined.

(* ===================================================================== *)
(** ** The coordinates of the grid *)
(* ===================================================================== *)

Lemma arange_fin a b size :
  (size <> 0)%Z ->
  arange (Fin a) (Fin b) size
  = Ok (map (fun i => a + IZR (Z.of_nat i) * IZR size)
            (seq 0 (Z.to_nat (Zceil ((b - a) / IZR size))))).
Proof.
  intros Hs. unfold arange. destruct (Z.eqb_spec size 0) as [E|_]; [contradiction|].
  reflexivity.
Qed.

(** X5: on whole-number bounds [a < b] and a positive cell size (all of
    magnitude at most [2^45], where the double arithmetic of the code is
    exact) [_create_grid_coords_1d] returns the coordinates [a],
    [a + size], [a + 2 size], ...: the first is [a] itself, every
    coordinate is below [b], and the cells [x, x + size] cover the whole
    of [a, b]. *)
Theorem create_grid_coords_cover (a b size : Z) :
  (0 < size <= 2 ^ 45)%Z ->
  (- 2 ^ 45 <= a)%Z -> (a < b)%Z -> (b <= 2 ^ 45)%Z ->
  exists coords,
    _create_grid_coords_1d (Fin (IZR a)) (Fin (IZR b)) size 2 = Ok coords
    /\ coords <> []
    /\ (forall i x, coords !! i = Some x -> x = IZR (a + Z.of_nat i * size))
    /\ (forall x, x ∈ coords -> x < IZR b)
    /\ forall t, IZR a <= t <= IZR b -> exists x, x ∈ coords /\ x <= t <= x + IZR size.
Proof.
  intros [Hs _] _ Hab _.
  rewrite create_grid_coords_whole, arange_fin by lia.
  set (s := IZR size).
  assert (Hspos : 0 < s) by (apply IZR_lt; lia).
  assert (Hlt : IZR a < IZR b) by (apply IZR_lt; lia).
  set (N := Zceil ((IZR b - IZR a) / s)).
  pose proof (Zceil_bound ((IZR b - IZR a) / s)) as HN. fold N in HN.
  assert (Hq : 0 < (IZR b - IZR a) / s).
  { apply Rmult_lt_0_compat; [lra|]. now apply Rinv_0_lt_compat. }
  assert (HNpos : (1 <= N)%Z).
  { assert (0 < N)%Z by (apply lt_IZR; lra). lia. }
  assert (Hqs : (IZR b - IZR a) / s * s = IZR b - IZR a) by (field; lra).
  assert (HNs : IZR b - IZR a <= IZR N * s).
  { destruct HN as [_ HN']. apply (Rmult_le_compat_r s) in HN'; [|lra]. lra. }
  assert (HNs' : (IZR N - 1) * s < IZR b - IZR a).
  { destruct HN as [HN' _]. apply (Rmult_lt_compat_r s) in HN'; [|lra]. lra. }
  eexists. split; [reflexivity|]. split; [|split; [|split]].
  - destruct (Z.to_nat N) eqn:E; [lia|]. simpl. discriminate.
  - intros i x Hi. rewrite list_lookup_fmap in Hi.
    destruct (seq 0 (Z.to_nat N) !! i) as [j|] eqn:Hj; [|discriminate].
    apply lookup_seq in Hj as [-> _]. simpl in Hi. injection Hi as <-.
    rewrite plus_IZR, mult_IZR. reflexivity.
  - intros x Hx. apply list_elem_of_fmap in Hx as (i & -> & Hi).
    apply elem_of_seq in Hi.
    assert (Hi' : IZR (Z.of_nat i) <= IZR N - 1).
    { rewrite <- minus_IZR. apply IZR_le. lia. }
    assert (IZR (Z.of_nat i) * s <= (IZR N - 1) * s) by (apply Rmult_le_compat_r; lra).
    lra.
  - intros t Ht.
    set (q := (t - IZR a) / s).
    assert (Hq0 : 0 <= q).
    { apply Rmult_le_pos; [lra|]. apply Rlt_le. now apply Rinv_0_lt_compat. }
    assert (Hqt : q * s = t - IZR a) by (unfold q; field; lra).
    pose proof (Zfloor_bound q) as Hfl.
    assert (Hfl0 : (0 <= Zfloor q)%Z) by (apply Zfloor_lub; simpl; lra).
    assert (Hcell : forall i : Z, (0 <= i < N)%Z ->
              IZR a + IZR i * s
              ∈ map (fun i => IZR a + IZR (Z.of_nat i) * s) (seq 0 (Z.to_nat N))).
    { intros i Hi. apply list_elem_of_fmap. exists (Z.to_nat i).
      split; [now rewrite Z2Nat.id by lia|]. apply elem_of_seq. lia. }
    destruct (Z_lt_le_dec (Zfloor q) N) as [Hlt'|Hge].
    + exists (IZR a + IZR (Zfloor q) * s). split; [apply Hcell; lia|]. nra.
    + exists (IZR a + IZR (N - 1) * s). split; [apply Hcell; lia|].
      apply IZR_le in Hge. rewrite minus_IZR. nra.
Qed.

Lemma create_grid_coords_cover_witness :
  exists coords,
    _create_grid_coords_1d (Fin 0) (Fin 2000) 1000 2 = Ok coords
    /\ coords <> []
    /\ (forall i x, coords !! i = Some x -> x = IZR (0 + Z.of_nat i * 1000))
    /\ (forall x, x ∈ coords -> x < 2000)
    /\ forall t, 0 <= t <= 2000 -> exists x, x ∈ coords /\ x <= t <= x + 1000.
Proof. apply (create_grid_coords_cover 0 2000 1000); lia. Defined.

(* ===================================================================== *)
(** ** Layers without a CRS; what create_buffer and create_grid return *)
(* ===================================================================== *)

Lemma map_flat_map {A B C} (f : B -> C) (g : A -> list B) l :
  map f (flat_map g l) = flat_map (fun x => map f (g x)) l.
Proof. induction l as [|x l IH]; simpl; [reflexivity|]. now rewrite map_app, IH. Qed.

Lemma length_flat_map_const {A B} (g : A -> list B) n l :
  (forall x, length (g x) = n) -> length (flat_map g l) = (length l * n)%nat.
Proof.
  intros Hg. induction l as [|x l IH]; simpl; [reflexivity|].
  now rewrite length_app, Hg, IH.
Qed.

Lemma mask_filter_sublist {A} mask (l : list A) : sublist (Table.mask_filter mask l) l.
Proof.
  revert l. induction mask as [|b mask IH]; intros [|x l]; simpl;
    try apply sublist_nil_l.
  destruct b; [apply sublist_skip|apply sublist_cons]; apply IH.
Qed.

Lemma mask_filter_zip {A B} (p : B -> bool) (l1 : list A) (l2 : list B) :
  length l1 = length l2 ->
  zip (Table.mask_filter (map p l2) l1) (Table.mask_filter (map p l2) l2)
  = List.filter (fun r => p r.2) (zip l1 l2).
Proof.
  revert l1. induction l2 as [|y l2 IH]; intros [|x l1] Hlen; simpl in *;
    try reflexivity; try discriminate.
  destruct (p y); simpl; rewrite IH by lia; reflexivity.
Qed.

Lemma length_mask_filter_same {A B} mask (l1 : list A) (l2 : list B) :
  length l1 = length l2 ->
  length (Table.mask_filter mask l1) = length (Table.mask_filter mask l2).
Proof.
  revert l1 l2. induction mask as [|b mask IH]; intros [|x l1] [|y l2] Hlen; simpl in *;
    try reflexivity; try discriminate.
  destruct b; simpl; rewrite (IH l1 l2) by lia; reflexivity.
Qed.

Lemma range_index_NoDup n : NoDup (range_index n).
Proof.
  unfold range_index. apply NoDup_fmap_2; [|apply NoDup_seq].
  intros i j E. injection E as E. apply eq_IZR in E. lia.
Qed.

Lemma length_range_index n : length (range_index n) = n.
Proof. unfold range_index. now rewrite length_map, length_seq. Qed.

Section GridBuffer.
Context {geom : Type} `{Projection geom} `{Shapes geom} `{Buffering geom}.

(** X6: [create_grid] and [create_buffer] reject a layer that has no
    CRS: each raises [ValueError] and leaves the store as it was. *)
Theorem naive_layer_rejected (h : list (GeoDataFrame geom)) gdf df :
  h !! gdf = Some df ->
  crs df = None ->
  (forall size filter, exists msg, create_grid gdf size filter h = (Raise (ValueError msg), h))
  /\ (forall size, exists msg, create_buffer gdf size h = (Raise (ValueError msg), h)).
Proof.
  intros Hdf Hcrs. split.
  - intros size filter. unfold create_grid.
    rewrite run_bind, (run_load _ _ _ Hdf), run_bind, run_lift.
    unfold to_crs. rewrite Hcrs. eauto.
  - intros size. unfold create_buffer.
    rewrite run_bind, (run_load _ _ _ Hdf), run_bind, run_lift.
    unfold to_crs. rewrite Hcrs. eauto.
Qed.

(** X7: on a layer with a CRS [create_buffer] never fails and never
    touches its input: it adds one new layer to the store, in the CRS
    of the input, without columns, holding the union of the buffers
    taken in EPSG:3857 at the given distance and carried back, or no
    record where the union gives none. *)
Theorem create_buffer_layer (h : list (GeoDataFrame geom)) gdf df c size :
  h !! gdf = Some df ->
  crs df = Some c ->
  exists out,
    create_buffer gdf size h = (Ok (length h), h ++ [out])
    /\ crs out = Some c
    /\ columns out = []
    /\ (nrows out <= 1)%nat
    /\ geometry out
       = map (transform EPSG_3857 c)
           (GeoSeries (unary_union (map (fun g => buffer (IZR size) (transform c EPSG_3857 g))
                                        (geometry df)))).
Proof.
  intros Hdf Hcrs. unfold create_buffer.
  rewrite run_bind, (run_load _ _ _ Hdf), run_bind, run_lift.
  unfold to_crs at 1. rewrite Hcrs. cbn [geometry]. rewrite map_map.
  rewrite run_bind, run_lift. unfold to_crs. rewrite ?Hcrs. cbn [crs geometry columns].
  eexists. split; [reflexivity|]. cbn [crs geometry columns nrows].
  repeat split. unfold nrows. cbn [geometry]. rewrite length_map. unfold GeoSeries.
  destruct (unary_union _); simpl; lia.
Qed.

(** X8: [create_grid] on a layer with a CRS [c] returns a new layer in
    the CRS [c] whose only column is [cell_id].  Its records are the
    cells of the full grid (one per pair of a column and a row
    coordinate, columns first, rows from the top) numbered from [0],
    restricted, when [filter] is set, to the cells that intersect the
    union of the input: a cell keeps the number it has in the full grid,
    so the identifiers are pairwise different but need not be
    consecutive.  Without [filter] there are [cols * rows] cells
    numbered [0 .. cols * rows - 1]. *)
Theorem create_grid_cells (h : list (GeoDataFrame geom)) gdf df c size (filter : bool)
    min_x min_y max_x max_y cols rows :
  h !! gdf = Some df ->
  crs df = Some c ->
  total_bounds (map (transform c EPSG_3857) (geometry df)) = (min_x, min_y, max_x, max_y) ->
  _create_grid_coords_1d min_x max_x size 2 = Ok cols ->
  _create_grid_coords_1d min_y max_y size 2 = Ok rows ->
  let cells :=
    flat_map (fun x => map (fun y => transform EPSG_3857 c (Polygon (cell_ring size x y)))
                           (rev rows)) cols in
  let near (g : geom) :=
    if filter then existsb (intersects g) (GeoSeries (unary_union (geometry df))) else true in
  exists out ids,
    create_grid gdf size filter h = (Ok (length h), h ++ [out])
    /\ crs out = Some c
    /\ columns out = [("cell_id"%string, ids)]
    /\ length ids = nrows out
    /\ zip ids (geometry out)
       = List.filter (fun r => near r.2) (zip (range_index (length cells)) cells)
    /\ NoDup ids
    /\ (filter = false ->
          ids = range_index (length cols * length rows) /\ geometry out = cells).
Proof.
  intros Hdf Hcrs Hbounds Hcols Hrows cells near. unfold create_grid.
  rewrite run_bind, (run_load _ _ _ Hdf), run_bind, run_lift.
  unfold to_crs at 1. rewrite Hcrs. cbn [geometry]. rewrite Hbounds. cbv beta iota.
  rewrite run_bind, run_lift, Hcols, run_bind, run_lift, Hrows, run_bind, run_lift.
  unfold to_crs. rewrite ?Hcrs. cbn [crs geometry columns].
  rewrite map_flat_map.
  assert (Ecells : flat_map (fun x => map (transform EPSG_3857 c)
                      (map (fun y => Polygon (cell_ring size x y)) (rev rows))) cols = cells).
  { unfold cells. apply flat_map_ext. intros x. apply map_map. }
  rewrite Ecells. unfold df_set, nrows. cbn [crs geometry columns col_set].
  assert (Hlen : length cells = (length cols * length rows)%nat).
  { unfold cells. apply length_flat_map_const. intros x. now rewrite length_map, length_rev. }
  destruct filter.
  - eexists. eexists. split; [reflexivity|]. cbn [crs geometry columns map].
    split; [reflexivity|]. split; [reflexivity|].
    split; [|split; [|split; [|discriminate]]].
    + apply length_mask_filter_same. apply length_range_index.
    + apply (mask_filter_zip (fun g => existsb (intersects g)
                                (GeoSeries (unary_union (geometry df))))).
      apply length_range_index.
    + exact (sublist_NoDup _ _ (range_index_NoDup _) (mask_filter_sublist _ _)).
  - eexists. eexists. split; [reflexivity|]. cbn [crs geometry columns].
    split; [reflexivity|]. split; [reflexivity|].
    split; [apply length_range_index|]. split; [|split; [apply range_index_NoDup|]].
    + unfold near. symmetry. induction (zip _ _) as [|r l IH]; simpl; [reflexivity|].
      now rewrite IH.
    + intros _. now rewrite Hlen.
Qed.

End GridBuffer.

Section ReaggregateNaive.
Context {geom : Type} `{Projection geom} `{Overlay geom}.

(** X9: [reaggregate] raises [ValueError] and leaves the store as it was
    as soon as one of its two layers has no CRS. *)
Theorem reaggregate_rejects_naive_layer (h : list (GeoDataFrame geom)) gdf df
    other o dst_id agg_vars :
  h !! gdf = Some df ->
  crs df = None ->
  h !! other = Some o ->
  (exists msg, reaggregate gdf other dst_id agg_vars h = (Raise (ValueError msg), h))
  /\ (exists msg, reaggregate other gdf dst_id agg_vars h = (Raise (ValueError msg), h)).
Proof.
  intros Hdf Hcrs Ho. split.
  - rewrite (run_reaggregate _ _ _ _ _ _ _ Hdf Ho).
    unfold reaggregate_frames, align. rewrite Hcrs.
    destruct (crs o) as [c|] eqn:Hc; simpl.
    + unfold to_crs. rewrite Hcrs. simpl. eauto.
    + unfold weighted_fragments, overlay_union, to_crs. simpl. rewrite Hc. simpl. eauto.
  - rewrite (run_reaggregate _ _ _ _ _ _ _ Ho Hdf).
    unfold reaggregate_frames, align. rewrite Hcrs.
    destruct (crs o) as [c|] eqn:Hc; simpl.
    + unfold to_crs. rewrite Hc. simpl. eauto.
    + unfold weighted_fragments, overlay_union, to_crs. simpl. rewrite Hcrs. simpl. eauto.
Qed.

End ReaggregateNaive.

(* ===================================================================== *)
(** ** The record create_buffer returns *)
(* ===================================================================== *)

Section BufferRecord.
Context {geom : Type} `{Projection geom} `{Shapes geom} `{Buffering geom}.

(** Modelled from the spec: [unary_union] is code of geopandas and
    shapely, not of this repository.  The guarantee of the buffer
    generator (exactly one record, or an empty layer if the input is
    empty) fixes what it returns here: no geometry when there is no
    record to unite, one geometry otherwise. *)
Hypothesis unary_union_nil : unary_union [] = None.
Hypothesis unary_union_cons : forall g gs, is_Some (unary_union (g :: gs)).

(** C8: on a layer with a CRS [c], [create_buffer] returns a new layer
    in the CRS [c].  It has no record when the input has none, and
    exactly one record otherwise: the union of the buffers of all the
    records, each taken in EPSG:3857 (whose unit is the metre) at the
    distance [size_in_meters], whatever the unit of [c] is, and carried
    back to [c]. *)
Theorem create_buffer_one_record (h : list (GeoDataFrame geom)) gdf df c size :
  h !! gdf = Some df ->
  crs df = Some c ->
  exists out,
    create_buffer gdf size h = (Ok (length h), h ++ [out])
    /\ crs out = Some c
    /\ (nrows df = 0%nat -> nrows out = 0%nat)
    /\ ((0 < nrows df)%nat ->
        nrows out = 1%nat
        /\ exists u,
             unary_union (map (fun g => buffer (IZR size) (transform c EPSG_3857 g))
                              (geometry df)) = Some u
             /\ geometry out = [transform EPSG_3857 c u]).
Proof.
  intros Hdf Hcrs. unfold create_buffer.
  rewrite run_bind, (run_load _ _ _ Hdf), run_bind, run_lift.
  unfold to_crs at 1. rewrite Hcrs. cbn [geometry]. rewrite map_map.
  rewrite run_bind, run_lift. unfold to_crs. rewrite ?Hcrs. cbn [crs geometry columns].
  eexists. split; [reflexivity|]. cbn [crs]. split; [reflexivity|].
  unfold nrows. cbn [geometry]. destruct (geometry df) as [|g gs].
  - split; [|simpl; lia]. intros _. simpl. now rewrite unary_union_nil.
  - split; [discriminate|]. intros _.
    destruct (unary_union_cons
                (buffer (IZR size) (transform c EPSG_3857 g))
                (map (fun g => buffer (IZR size) (transform c EPSG_3857 g)) gs)) as [u Hu].
    cbn [map]. rewrite Hu. split; [reflexivity|]. exists u. split; reflexivity.
Qed.

End BufferRecord.

Lemma boxes_union_nil : unary_union (geom := Boxes.geom) [] = None.
Proof. reflexivity. Qed.

Lemma boxes_union_cons (g : Boxes.geom) gs : is_Some (unary_union (g :: gs)).
Proof. simpl. eauto. Qed.

Lemma create_buffer_one_record_witness :
  exists out,
    create_buffer 0%nat 10 [Examples.reference_layer]
    = (Ok 1%nat, [Examples.reference_layer] ++ [out])
    /\ crs out = Some EPSG_3857
    /\ nrows out = 1%nat.
Proof.
  destruct (create_buffer_one_record boxes_union_nil boxes_union_cons
              [Examples.reference_layer] 0%nat Examples.reference_layer
              EPSG_3857 10 eq_refl eq_refl) as (out & Hrun & Hcrs & _ & Hone).
  exists out. split; [exact Hrun|]. split; [exact Hcrs|].
  apply Hone. unfold nrows, Examples.reference_layer. simpl. lia.
Defined.

(* ===================================================================== *)
(** ** The layer reaggregate returns *)
(* ===================================================================== *)

Section ReaggregateShape.
Context {geom : Type} `{Projection geom} `{Overlay geom}.
Implicit Types (src dst : GeoDataFrame geom) (h : list (GeoDataFrame geom)).

(** The left merge of [aggregate] keeps every destination record, with
    its geometry and its columns. *)
Lemma aggregate_shape (rows : list (frow geom)) rc dst src dst_id ids agg_vars (c : option Z) gs
    fk out :
  col_lookup dst_id (columns dst) = Some ids ->
  (forall k, Table.has_col k (columns dst) = true -> col_lookup k (columns src) = None) ->
  (forall var, var ∈ agg_vars -> Table.has_col var (columns src) = true) ->
  (forall var, var ∈ agg_vars -> is_Some (rc_lookup var rc)) ->
  rc_lookup dst_id rc = Some fk ->
  length ids = nrows dst ->
  aggregate dst (mkGDF c gs (materialize rows rc)) dst_id agg_vars = Ok out ->
  crs out = crs dst
  /\ geometry out = geometry dst
  /\ forall k v, col_lookup k (columns dst) = Some v -> length v = nrows dst ->
       col_lookup k (columns out) = Some v.
Proof.
  intros Hid Hdisj Hsrc Hvars Hfk Hlen.
  assert (Hnotdst : forall var, var ∈ agg_vars -> Table.has_col var (columns dst) = false).
  { intros var Hin. destruct (Table.has_col var (columns dst)) eqn:E; [|reflexivity].
    specialize (Hdisj var E). specialize (Hsrc var Hin).
    unfold Table.has_col in Hsrc. rewrite Hdisj in Hsrc. discriminate. }
  assert (Hidn : dst_id ∉ agg_vars).
  { intros Hin. specialize (Hnotdst _ Hin). unfold Table.has_col in Hnotdst.
    now rewrite Hid in Hnotdst. }
  unfold aggregate. cbn [columns].
  destruct (select_materialize (agg_vars ++ [dst_id]) rows rc) as (sel & Hsel & Hlook & Hnames).
  { intros n Hn. apply elem_of_app in Hn as [Hn|Hn]; [now apply Hvars|].
    apply list_elem_of_singleton in Hn as ->. rewrite Hfk. eauto. }
  rewrite Hsel. unfold mbind at 1, result_bind.
  replace (str_in dst_id agg_vars) with false.
  2:{ symmetry. apply not_true_is_false. rewrite str_in_elem_of. exact Hidn. }
  assert (Hksel : rc_lookup dst_id sel = Some fk).
  { rewrite Hlook; [exact Hfk|]. apply elem_of_app. right. left. }
  unfold Table.groupby_sum, Table.col_get at 1.
  rewrite col_lookup_materialize, Hksel. simpl fmap.
  unfold mbind, result_bind, mret, result_ret. cbv beta iota.
  set (K := map fk rows). set (ks := Table.group_keys K).
  set (agg_df := map _ (List.filter _ (materialize rows sel))).
  unfold Table.merge, Table.col_get. rewrite Hid.
  unfold mbind, result_bind, mret, result_ret. cbv beta iota. cbn [orb].
  set (hits := map (fun k => Table.key_index k ks) ids).
  set (keep := map (fun _ : option nat => true) hits).
  assert (Hkeep : forall {A} (l : list A), length l = nrows dst -> Table.mask_filter keep l = l).
  { intros A l Hl. apply mask_filter_all_true.
    - unfold keep. apply Forall_map. now apply Forall_true.
    - unfold keep, hits. rewrite !length_map. congruence. }
  assert (Hagg_names : forall k v, (k, v) ∈ agg_df -> k ∈ agg_vars).
  { intros k v Hin. unfold agg_df in Hin.
    apply list_elem_of_fmap in Hin as ([k' s] & [= -> ->] & Hin).
    apply list_elem_of_In, filter_In in Hin as [Hin Hne].
    apply list_elem_of_In, elem_of_materialize in Hin as (g & Hin & _).
    apply Hnames, elem_of_app in Hin as [Hin|Hin]; [done|].
    apply list_elem_of_singleton in Hin as ->.
    rewrite String.eqb_refl in Hne. discriminate. }
  intros [= <-]. cbn [crs geometry columns].
  split; [reflexivity|]. split; [now apply Hkeep|].
  intros k v Hk Hv.
  rewrite col_lookup_app.
  rewrite (rename_none (fun k => negb (String.eqb k dst_id) && Table.has_col k agg_df) "_x"
             (columns dst) (Table.mask_filter keep)).
  2:{ intros k' v' Hk'. destruct (Table.has_col k' agg_df) eqn:E; [|apply andb_false_r].
      exfalso. unfold Table.has_col in E.
      destruct (col_lookup k' agg_df) as [w|] eqn:Ew; [|discriminate].
      apply col_lookup_in_names, Hagg_names in Ew.
      pose proof (has_col_elem _ _ _ Hk') as Hk''. rewrite (Hnotdst k' Ew) in Hk''.
      discriminate. }
  rewrite col_lookup_map_values, Hk. simpl. f_equal. now apply Hkeep.
Qed.

(** The layer [reaggregate] builds on a compatible pair of layers. *)
Lemma reaggregate_frames_shape src dst src' dst_id ids agg_vars c :
  crs dst = Some c ->
  align dst src = Ok src' ->
  compatible_layers dst src dst_id ids ->
  (forall var, var ∈ agg_vars -> Table.has_col var (columns src) = true) ->
  length ids = nrows dst ->
  exists out,
    reaggregate_frames src dst dst_id agg_vars = Ok out
    /\ crs out = Some c
    /\ geometry out = geometry dst
    /\ (forall k v, col_lookup k (columns dst) = Some v -> length v = nrows dst ->
          col_lookup k (columns out) = Some v)
    /\ (forall var, var ∈ agg_vars ->
          exists o, col_lookup var (columns out) = Some o /\ length o = nrows dst).
Proof.
  intros Hc Ha Hcompat Hvars Hlen.
  destruct (reaggregate_frames_column src dst src' dst_id ids agg_vars c Hc Ha Hcompat Hvars)
    as (out & rc' & Hout & Hrc' & Hcol).
  pose proof (compatible_layers_align _ _ _ _ _ Ha Hcompat) as Hcompat'.
  destruct (align_columns _ _ _ Ha) as [Hcols _].
  set (parents := overlay_parents (geometry dst) (geometry src')) in *.
  exists out. split; [exact Hout|].
  assert (Hshape : crs out = crs dst /\ geometry out = geometry dst
            /\ forall k v, col_lookup k (columns dst) = Some v -> length v = nrows dst ->
                 col_lookup k (columns out) = Some v).
  { destruct (fragment_rc_lookups c ids dst src' dst_id parents Hcompat') as (Hk & _ & Hp & _).
    destruct Hcompat' as (Hid & Hdisj & Hud & Hus & Hn1 & Hn2 & Hn3).
    assert (Hidn : dst_id ∉ agg_vars).
    { intros Hin. specialize (Hvars _ Hin). unfold Table.has_col in Hvars.
      rewrite <- Hcols in Hvars. rewrite (Hdisj dst_id) in Hvars; [discriminate|].
      unfold Table.has_col. now rewrite Hid. }
    apply (aggregate_shape (kept ids parents) rc' dst src' dst_id ids agg_vars
             (Some c) (map snd (kept ids parents)) (frag_key ids)); auto.
    - intros var Hin. rewrite Hcols. now apply Hvars.
    - intros var Hin. eapply rc_redistribute_is_Some; eauto.
      unfold fragment_rc. apply rc_lookup_set_is_Some. rewrite rc_lookup_app.
      assert (Hs : is_Some (rc_lookup var (rc_set "fragment_area" (frag_area c)
                                             (dst_rc dst ++ src_rc src')))).
      { apply rc_lookup_set_is_Some. rewrite rc_lookup_app.
        destruct (rc_lookup var (dst_rc dst)); [eauto|].
        rewrite src_rc_lookup, Hcols. specialize (Hvars var Hin). unfold Table.has_col in Hvars.
        destruct (col_lookup var (columns src)); [simpl; eauto|discriminate]. }
      destruct Hs as [g0 ->]. eauto.
    - rewrite (rc_redistribute_other _ _ _ _ Hrc' Hidn). exact Hk.
    - revert Hout. unfold reaggregate_frames. rewrite Ha.
      unfold mbind, result_bind. cbv beta iota.
      rewrite (weighted_fragments_rows src' dst dst_id ids c Hc
                 (conj Hid (conj Hdisj (conj Hud (conj Hus (conj Hn1 (conj Hn2 Hn3))))))).
      cbv beta iota zeta. fold parents. fold (kept ids parents).
      rewrite redistribute_rows, Hrc'. auto. }
  destruct Hshape as (Hcrs & Hgeo & Hkeepcols).
  split; [now rewrite Hcrs|]. split; [exact Hgeo|]. split; [exact Hkeepcols|].
  intros var Hin.
  destruct (rc_redistribute_is_Some agg_vars var _ _ Hrc') as [g Hg].
  { unfold fragment_rc. apply rc_lookup_set_is_Some. rewrite rc_lookup_app.
    assert (Hs : is_Some (rc_lookup var (rc_set "fragment_area" (frag_area c)
                                           (dst_rc dst ++ src_rc src')))).
    { apply rc_lookup_set_is_Some. rewrite rc_lookup_app.
      destruct (rc_lookup var (dst_rc dst)); [eauto|].
      rewrite src_rc_lookup, Hcols. specialize (Hvars var Hin). unfold Table.has_col in Hvars.
      destruct (col_lookup var (columns src)); [simpl; eauto|discriminate]. }
    destruct Hs as [g0 ->]. eauto. }
  eexists. split; [exact (Hcol var g Hin Hg)|]. now rewrite length_map.
Qed.

(** X10: on a compatible pair of layers [reaggregate] returns a new layer
    with the CRS, the geometry and the columns of the destination layer,
    record by record, and one more column of the same length for each
    aggregated variable. *)
Theorem reaggregate_output_layer h src_gdf dst_gdf src dst src' dst_id ids agg_vars c :
  h !! src_gdf = Some src ->
  h !! dst_gdf = Some dst ->
  crs dst = Some c ->
  align dst src = Ok src' ->
  compatible_layers dst src dst_id ids ->
  (forall var, var ∈ agg_vars -> Table.has_col var (columns src) = true) ->
  length ids = nrows dst ->
  exists out,
    reaggregate src_gdf dst_gdf dst_id agg_vars h = (Ok (length h), h ++ [out])
    /\ crs out = Some c
    /\ geometry out = geometry dst
    /\ (forall k v, col_lookup k (columns dst) = Some v -> length v = nrows dst ->
          col_lookup k (columns out) = Some v)
    /\ (forall var, var ∈ agg_vars ->
          exists o, col_lookup var (columns out) = Some o /\ length o = nrows dst).
Proof.
  intros Hsrc Hdst Hc Ha Hcompat Hvars Hlen.
  destruct (reaggregate_frames_shape src dst src' dst_id ids agg_vars c Hc Ha Hcompat Hvars Hlen)
    as (out & Hout & Hshape).
  exists out. split; [|exact Hshape].
  rewrite (run_reaggregate _ _ _ _ _ _ _ Hsrc Hdst), Hout. reflexivity.
Qed.

(** X11: what [reaggregate] gives a destination record that receives
    nothing.  When every fragment of the record lies outside all source
    polygons, the redistributed values on its fragments are missing, the
    sum skips them and the record gets [0].  When the record has no
    fragment at all (its geometry is empty or not a polygon), the left
    merge finds no sum for it and the record gets a missing value. *)
Theorem reaggregate_uncovered_record
    h src_gdf dst_gdf src dst src' dst_id ids agg_vars c var v i d :
  h !! src_gdf = Some src ->
  h !! dst_gdf = Some dst ->
  crs dst = Some c ->
  align dst src = Ok src' ->
  compatible_layers dst src dst_id ids ->
  (forall x, x ∈ agg_vars -> Table.has_col x (columns src) = true) ->
  NoDup agg_vars ->
  "fragment_area_pct"%string ∉ agg_vars ->
  "fragment_area"%string ∉ agg_vars ->
  var ∈ agg_vars ->
  col_lookup var (columns src) = Some v ->
  ids !! i = Some d ->
  let parents := overlay_parents (geometry dst) (geometry src') in
  exists out o,
    reaggregate src_gdf dst_gdf dst_id agg_vars h = (Ok (length h), h ++ [out])
    /\ col_lookup var (columns out) = Some o
    /\ (fragments_in ids d parents <> [] ->
        (forall q, q ∈ fragments_in ids d parents -> q.1.2 = None) ->
        o !! i = Some (Fin 0))
    /\ (fragments_in ids d parents = [] -> o !! i = Some NaN).
Proof.
  intros Hsrc Hdst Hc Ha Hcompat Hvars Hnd Hpn Hfn Hin Hv Hi parents.
  destruct (reaggregate_frames_column src dst src' dst_id ids agg_vars c Hc Ha Hcompat Hvars)
    as (out & rc' & Hout & Hrc' & Hcol).
  fold parents in Hrc', Hcol.
  pose proof (compatible_layers_align _ _ _ _ _ Ha Hcompat) as Hcompat'.
  destruct (fragment_rc_lookups c ids dst src' dst_id parents Hcompat') as (_ & _ & Hp' & _).
  destruct Hcompat' as (Hid & Hdisj & Hud & Hus & Hn1 & Hn2 & Hn3).
  destruct (align_columns _ _ _ Ha) as [Hcols _].
  assert (Hg0 : rc_lookup var (fragment_rc c ids dst src' parents) = Some (frag_src v)).
  { unfold fragment_rc.
    rewrite rc_lookup_set_ne by (intros <-; contradiction).
    rewrite rc_lookup_app, rc_lookup_set_ne by (intros <-; contradiction).
    rewrite rc_lookup_app, dst_rc_lookup, src_rc_lookup, Hcols, Hv.
    destruct (col_lookup var (columns dst)) as [w|] eqn:Hw; [|reflexivity].
    exfalso. assert (Hk : Table.has_col var (columns dst) = true)
      by (unfold Table.has_col; now rewrite Hw).
    specialize (Hdisj var Hk). rewrite Hcols, Hv in Hdisj. discriminate. }
  pose proof (rc_redistribute_listed agg_vars _ _ _ Hrc' Hnd Hpn Hp' var _ Hin Hg0) as Hg.
  exists out. eexists. split.
  { rewrite (run_reaggregate _ _ _ _ _ _ _ Hsrc Hdst), Hout. reflexivity. }
  split; [exact (Hcol var _ Hin Hg)|]. split.
  - intros Hne Hnone. rewrite list_lookup_fmap, Hi. simpl. f_equal.
    assert (Hex : exists p, p ∈ fragments_in ids d parents).
    { destruct (fragments_in ids d parents) as [|p l]; [done|]. exists p. left. }
    destruct Hex as [p Hpin].
    pose proof (fragments_in_key _ _ _ _ Hpin) as [Hkey Hna].
    assert (Hkept : p ∈ kept ids parents).
    { unfold kept. apply list_elem_of_In, filter_In.
      unfold fragments_in in Hpin. apply list_elem_of_In, filter_In in Hpin as [Hpp _].
      split; [exact Hpp|]. now rewrite Hkey. }
    pose proof (key_mem_kept ids parents p Hkept) as Hmem. rewrite Hkey in Hmem.
    rewrite Hmem. apply sum_all_nan. intros q Hq.
    unfold frag_src. now rewrite (Hnone q Hq).
  - intros Hnil. rewrite list_lookup_fmap, Hi. simpl. f_equal.
    destruct (Table.key_mem d _) eqn:E; [|reflexivity]. exfalso.
    unfold Table.key_mem in E.
    destruct (Table.key_index d _) as [j|] eqn:Ej; [|discriminate].
    apply key_index_Some in Ej as [Hj Hna].
    apply list_elem_of_lookup_2, elem_of_group_keys in Hj as [Hj _].
    apply list_elem_of_fmap in Hj as (p & Hkey & Hp).
    assert (Hpin : p ∈ fragments_in ids d parents).
    { unfold fragments_in. apply list_elem_of_In, filter_In.
      unfold kept in Hp. apply list_elem_of_In, filter_In in Hp as [Hpp _].
      split; [exact Hpp|]. rewrite <- Hkey. now apply feqb_refl. }
    rewrite Hnil in Hpin. now apply elem_of_nil in Hpin.
Qed.

Lemma rc_redistribute_missing {X} pre var rest : forall (rc : list (string * (X -> float64))),
  (forall x, x ∈ pre -> is_Some (rc_lookup x rc)) ->
  is_Some (rc_lookup "fragment_area_pct" rc) ->
  rc_lookup var rc = None ->
  rc_redistribute (pre ++ var :: rest) rc = Raise (KeyError var).
Proof.
  induction pre as [|x pre IH]; intros rc Hall Hpct Hvar; simpl.
  - now rewrite Hvar.
  - destruct (Hall x) as [g Hg]; [left|]. rewrite Hg.
    destruct Hpct as [q Hq]. rewrite Hq.
    assert (Hne : x <> var) by (intros ->; congruence).
    apply IH.
    + intros y Hy. apply rc_lookup_set_is_Some. apply Hall. now right.
    + apply rc_lookup_set_is_Some. rewrite Hq. eauto.
    + now rewrite rc_lookup_set_ne.
Qed.

(** X12: when a listed variable is a column of neither layer,
    [reaggregate] raises [KeyError] for the first such variable and
    leaves the store as it was. *)
Theorem reaggregate_missing_variable
    h src_gdf dst_gdf src dst src' dst_id ids agg_vars c pre var rest :
  h !! src_gdf = Some src ->
  h !! dst_gdf = Some dst ->
  crs dst = Some c ->
  align dst src = Ok src' ->
  compatible_layers dst src dst_id ids ->
  agg_vars = pre ++ var :: rest ->
  (forall x, x ∈ pre -> Table.has_col x (columns src) = true) ->
  col_lookup var (columns src) = None ->
  col_lookup var (columns dst) = None ->
  var ∉ ["fragment_area"%string; "dst_unit_area"%string; "fragment_area_pct"%string] ->
  reaggregate src_gdf dst_gdf dst_id agg_vars h = (Raise (KeyError var), h).
Proof.
  intros Hsrc Hdst Hc Ha Hcompat -> Hpre Hvs Hvd Hnames.
  pose proof (compatible_layers_align _ _ _ _ _ Ha Hcompat) as Hcompat'.
  destruct (align_columns _ _ _ Ha) as [Hcols _].
  set (parents := overlay_parents (geometry dst) (geometry src')).
  destruct (fragment_rc_lookups c ids dst src' dst_id parents Hcompat') as (_ & _ & Hp & _).
  rewrite (run_reaggregate _ _ _ _ _ _ _ Hsrc Hdst).
  unfold reaggregate_frames. rewrite Ha. unfold mbind, result_bind. cbv beta iota.
  rewrite (weighted_fragments_rows src' dst dst_id ids c Hc Hcompat').
  cbv beta iota zeta. fold parents.
  rewrite redistribute_rows, (rc_redistribute_missing pre var rest); [reflexivity| | |].
  - intros x Hx. unfold fragment_rc. apply rc_lookup_set_is_Some. rewrite rc_lookup_app.
    assert (Hs : is_Some (rc_lookup x (rc_set "fragment_area" (frag_area c)
                                         (dst_rc dst ++ src_rc src')))).
    { apply rc_lookup_set_is_Some. rewrite rc_lookup_app.
      destruct (rc_lookup x (dst_rc dst)); [eauto|].
      rewrite src_rc_lookup, Hcols. specialize (Hpre x Hx). unfold Table.has_col in Hpre.
      destruct (col_lookup x (columns src)); [simpl; eauto|discriminate]. }
    destruct Hs as [g0 ->]. eauto.
  - rewrite Hp. eauto.
  - unfold fragment_rc.
    rewrite rc_lookup_set_ne by (intros <-; apply Hnames; do 2 right; left).
    rewrite rc_lookup_app, rc_lookup_set_ne by (intros <-; apply Hnames; left).
    rewrite rc_lookup_app, dst_rc_lookup, src_rc_lookup, Hcols, Hvs, Hvd.
    cbn [fmap option_fmap option_map rc_lookup].
    destruct (String.eqb "dst_unit_area" var) eqn:E; [|reflexivity].
    apply String.eqb_eq in E. exfalso. apply Hnames. rewrite <- E. right. left.
Qed.

End ReaggregateShape.

(* ===================================================================== *)
(** ** Tracts of interest by ratio to the mean *)
(* ===================================================================== *)




Section TractsOfInterest.
Context {geom : Type} `{Projection geom} `{Overlay geom}.


End TractsOfInterest.

(* ===================================================================== *)
(** ** The event score of each grid cell *)
(* ===================================================================== *)

Lemma assert_columns_first_missing pre var rest cs :
  (forall x, x ∈ pre -> Table.has_col x cs = true) ->
  Table.has_col var cs = false ->
  assert_columns (pre ++ var :: rest) cs = Raise (AssertionError (var +:+ " not found in data")).
Proof.
  intros Hpre Hvar. induction pre as [|x pre IH]; simpl.
  - now rewrite Hvar.
  - rewrite (Hpre x) by left. apply IH. intros y Hy. apply Hpre. now right.
Qed.

Lemma assert_columns_ok vars cs :
  (forall x, x ∈ vars -> Table.has_col x cs = true) -> assert_columns vars cs = Ok tt.
Proof.
  intros Hall. induction vars as [|x vars IH]; simpl; [reflexivity|].
  rewrite (Hall x) by left. apply IH. intros y Hy. apply Hall. now right.
Qed.

Lemma length_mean_axis1 n sel : length (mean_axis1 n sel) = n.
Proof. unfold mean_axis1. now rewrite length_map, length_seq. Qed.

Section IndexScoreOk.
Context {geom : Type}.

(** [generate_index_score] on a table that has every listed column. *)
Lemma index_score_ok (h : list (GeoDataFrame geom)) df d pos_vars neg_vars :
  h !! df = Some d ->
  NoDup (pos_vars ++ neg_vars) ->
  (forall x, x ∈ pos_vars ++ neg_vars -> is_Some (col_lookup x (columns d))) ->
  exists s d',
    generate_index_score df pos_vars neg_vars "standardize" h = (Ok s, <[df := d']> h)
    /\ length s = nrows d.
Proof.
  intros Hd Hnd Hall.
  rewrite (generate_index_score_spec _ _ _ "standardize" standardize _ _ Hd eq_refl).
  destruct (loop_columns_listed standardize neg_vars (pos_vars ++ neg_vars) (columns d) Hnd Hall)
    as [Hok Hcols].
  destruct (loop_columns _ _ _ _) as [r cs]. simpl in Hok, Hcols. subst r.
  rewrite (lookup_all_map _ cs
             (fun name => match col_lookup name (columns d) with
                          | Some c => if str_in name neg_vars
                                      then Pandas.neg (standardize c) else standardize c
                          | None => []
                          end)).
  - eexists. eexists. split; [reflexivity|]. apply length_mean_axis1.
  - intros name Hin. destruct (Hall name Hin) as [c Hc]. rewrite Hc. now apply Hcols.
Qed.

End IndexScoreOk.

Section CellEventScores.
Context {geom : Type} `{Projection geom} `{Overlay geom}.

(** X14: [_get_cell_event_scores] checks first that every configured
    variable is a column of [tract_data]: for the first one that is not
    it raises [AssertionError] naming it, before any layer is built. *)
Theorem cell_event_scores_asserts_columns (self : EventSitingModel)
    (h : list (GeoDataFrame geom)) td pre var rest :
  h !! tract_data self = Some td ->
  tract_positive_vars self ++ tract_negative_vars self = pre ++ var :: rest ->
  (forall x, x ∈ pre -> Table.has_col x (columns td) = true) ->
  Table.has_col var (columns td) = false ->
  _get_cell_event_scores self h
  = (Raise (AssertionError (var +:+ " not found in data")), h).
Proof.
  intros Htd Hsplit Hpre Hvar. unfold _get_cell_event_scores.
  rewrite run_bind, (run_load _ _ _ Htd), run_bind, run_lift, Hsplit.
  now rewrite (assert_columns_first_missing pre var rest _ Hpre Hvar).
Qed.

(** X15: on a compatible pair of layers [_get_cell_event_scores] returns a
    new layer that is the grid, record by record (CRS, geometry and
    columns), with one more column [event_score] holding one score per
    cell; the grid and every other object of the store stay as they
    were, and the layer of reaggregated indicators it builds on the way
    is the only other object added. *)
Theorem cell_event_scores_layer (self : EventSitingModel) (h : list (GeoDataFrame geom))
    td g td' ids c :
  h !! tract_data self = Some td ->
  h !! grid self = Some g ->
  crs g = Some c ->
  align g td = Ok td' ->
  compatible_layers g td (_grid_id_varname self) ids ->
  (forall x, x ∈ tract_positive_vars self ++ tract_negative_vars self ->
     Table.has_col x (columns td) = true) ->
  NoDup (tract_positive_vars self ++ tract_negative_vars self) ->
  length ids = nrows g ->
  exists indicators out score,
    _get_cell_event_scores self h = (Ok (S (length h)), h ++ [indicators; out])
    /\ crs out = Some c
    /\ geometry out = geometry g
    /\ col_lookup "event_score" (columns out) = Some score
    /\ length score = nrows g
    /\ forall k, k <> "event_score"%string ->
         col_lookup k (columns out) = col_lookup k (columns g).
Proof.
  intros Htd Hg Hc Ha Hcompat Hvars Hnd Hlen.
  set (all_vars := tract_positive_vars self ++ tract_negative_vars self) in *.
  destruct (reaggregate_frames_shape td g td' (_grid_id_varname self) ids all_vars c
              Hc Ha Hcompat Hvars Hlen)
    as (ind & Hframes & Hcrs & Hgeo & Hkeep & Hcols).
  assert (Hrun : reaggregate (tract_data self) (grid self) (_grid_id_varname self) all_vars h
                 = (Ok (length h), h ++ [ind])).
  { rewrite (run_reaggregate _ _ _ _ _ _ _ Htd Hg), Hframes. reflexivity. }
  unfold _get_cell_event_scores. fold all_vars.
  rewrite run_bind, (run_load _ _ _ Htd), run_bind, run_lift.
  rewrite (assert_columns_ok all_vars _ Hvars).
  rewrite run_bind, Hrun, run_bind.
  assert (Hg' : (h ++ [ind]) !! grid self = Some g).
  { apply lookup_app_l_Some. exact Hg. }
  rewrite (run_load _ _ _ Hg'), run_bind. unfold alloc at 1. rewrite run_bind.
  assert (Hind : ((h ++ [ind]) ++ [g]) !! length h = Some ind).
  { rewrite <- app_assoc. apply list_lookup_middle. reflexivity. }
  destruct (index_score_ok ((h ++ [ind]) ++ [g]) (length h) ind
              (tract_positive_vars self) (tract_negative_vars self) Hind Hnd)
    as (s & ind' & Hscore & Hslen).
  { intros x Hx. destruct (Hcols x Hx) as (o & -> & _). eauto. }
  rewrite Hscore, run_bind.
  assert (Hout : (<[length h := ind']> ((h ++ [ind]) ++ [g])) !! length (h ++ [ind]) = Some g).
  { rewrite list_lookup_insert_ne by (rewrite length_app; simpl; lia).
    apply list_lookup_middle. reflexivity. }
  rewrite (run_setitem _ _ _ _ _ Hout), run_ret.
  exists ind', (df_set "event_score" s g), s.
  split.
  { f_equal; [f_equal; rewrite length_app; simpl; lia|].
    rewrite <- app_assoc. simpl.
    rewrite insert_app_r_alt by lia. rewrite Nat.sub_diag. simpl.
    rewrite insert_app_r_alt by (rewrite length_app; simpl; lia).
    rewrite length_app. simpl.
    replace (length h + 1 - length h)%nat with 1%nat by lia. reflexivity. }
  unfold df_set. cbn [crs geometry columns].
  split; [exact Hc|]. split; [reflexivity|]. split; [apply col_lookup_set_eq|].
  split.
  - rewrite Hslen. unfold nrows. now rewrite Hgeo.
  - intros k Hk. now apply col_lookup_set_ne.
Qed.

End CellEventScores.

(* ===================================================================== *)
(** ** The statements above on the example layers *)
(* ===================================================================== *)

Lemma naive_layer_rejected_witness :
  (forall size filter, exists msg,
      create_grid 0%nat size filter [Examples.naive_layer]
      = (Raise (ValueError msg), [Examples.naive_layer]))
  /\ (forall size, exists msg,
        create_buffer 0%nat size [Examples.naive_layer]
        = (Raise (ValueError msg), [Examples.naive_layer])).
Proof.
  exact (naive_layer_rejected [Examples.naive_layer] 0%nat Examples.naive_layer eq_refl eq_refl).
Defined.

Lemma create_buffer_layer_witness :
  exists out,
    create_buffer 0%nat 10 [Examples.reference_layer]
    = (Ok 1%nat, [Examples.reference_layer] ++ [out])
    /\ crs out = Some EPSG_3857
    /\ columns out = []
    /\ (nrows out <= 1)%nat.
Proof.
  destruct (create_buffer_layer [Examples.reference_layer] 0%nat Examples.reference_layer
              EPSG_3857 10 eq_refl eq_refl) as (out & Hrun & Hcrs & Hcols & Hn & _).
  exists out. auto.
Defined.

Lemma reference_bounds :
  total_bounds (map (transform EPSG_3857 EPSG_3857) (geometry Examples.reference_layer))
  = (Fin 0, Fin 0, Fin 2000, Fin 1000).
Proof.
  simpl. unfold Boxes.bounds_of. simpl.
  repeat (unfold Rmin, Rmax; repeat destruct (Rle_dec _ _); try lra).
  reflexivity.
Qed.

Lemma create_grid_cells_witness :
  exists out ids,
    create_grid 0%nat 1000 true [Examples.reference_layer]
    = (Ok 1%nat, [Examples.reference_layer] ++ [out])
    /\ crs out = Some EPSG_3857
    /\ columns out = [("cell_id"%string, ids)]
    /\ length ids = nrows out
    /\ NoDup ids.
Proof.
  destruct (create_grid_cells [Examples.reference_layer] 0%nat Examples.reference_layer
              EPSG_3857 1000 true (Fin 0) (Fin 0) (Fin 2000) (Fin 1000) [0; 1000] [0]
              eq_refl eq_refl reference_bounds)
    as (out & ids & Hrun & Hcrs & Hcols & Hlen & _ & Hnd & _).
  - rewrite (create_grid_coords_whole 0 2000 1000). exact arange_0_2000.
  - rewrite (create_grid_coords_whole 0 1000 1000). exact arange_0_1000.
  - exists out, ids. auto.
Defined.

Lemma reaggregate_rejects_naive_layer_witness :
  (exists msg, reaggregate 0%nat 1%nat "cell_id" ["pop"%string]
                 [Examples.naive_cells; Examples.two_cells]
               = (Raise (ValueError msg), [Examples.naive_cells; Examples.two_cells]))
  /\ (exists msg, reaggregate 1%nat 0%nat "cell_id" ["pop"%string]
                    [Examples.naive_cells; Examples.two_cells]
                  = (Raise (ValueError msg), [Examples.naive_cells; Examples.two_cells])).
Proof.
  exact (reaggregate_rejects_naive_layer [Examples.naive_cells; Examples.two_cells]
           0%nat Examples.naive_cells 1%nat Examples.two_cells "cell_id" ["pop"%string]
           eq_refl eq_refl eq_refl).
Defined.

Lemma reaggregate_output_layer_witness :
  exists out,
    reaggregate 0%nat 1%nat "cell_id" ["pop"%string] [Examples.county; Examples.two_cells]
    = (Ok 2%nat, [Examples.county; Examples.two_cells] ++ [out])
    /\ crs out = Some EPSG_3857
    /\ geometry out = geometry Examples.two_cells.
Proof.
  destruct (reaggregate_output_layer [Examples.county; Examples.two_cells] 0%nat 1%nat
              Examples.county Examples.two_cells Examples.county "cell_id"
              [Fin 0; Fin 1] ["pop"%string] EPSG_3857
              eq_refl eq_refl eq_refl eq_refl county_compatible pop_in_county eq_refl)
    as (out & Hrun & Hcrs & Hgeo & _).
  exists out. auto.
Defined.

Lemma west_compatible :
  compatible_layers Examples.two_cells Examples.west_county "cell_id" [Fin 0; Fin 1].
Proof.
  split; [reflexivity|]. split.
  - intros k Hk. unfold Table.has_col, Examples.two_cells in Hk.
    cbn [columns col_lookup] in Hk.
    destruct (String.eqb "cell_id" k) eqn:E; [|discriminate].
    apply String.eqb_eq in E. subst k. reflexivity.
  - repeat split; try reflexivity; discriminate.
Qed.

Lemma west_fragments :
  fragments_in [Fin 0; Fin 1] (Fin 1)
    (overlay_parents (geometry Examples.two_cells) (geometry Examples.west_county))
  = [(Some 1%nat, None, [(2%Z, 1%N)])].
Proof.
  unfold fragments_in, overlay_parents, frag_key, Examples.two_cells, Examples.west_county.
  feval. reflexivity.
Qed.

Lemma singleton_NoDup (x : string) : NoDup [x].
Proof. apply NoDup_singleton. Qed.

Lemma not_in_singleton (x y : string) : x <> y -> x ∉ [y].
Proof. intros Hne Hin. apply list_elem_of_singleton in Hin. contradiction. Qed.

Lemma reaggregate_uncovered_record_witness :
  exists out o,
    reaggregate 0%nat 1%nat "cell_id" ["pop"%string] [Examples.west_county; Examples.two_cells]
    = (Ok 2%nat, [Examples.west_county; Examples.two_cells] ++ [out])
    /\ col_lookup "pop" (columns out) = Some o
    /\ o !! 1%nat = Some (Fin 0).
Proof.
  destruct (reaggregate_uncovered_record [Examples.west_county; Examples.two_cells]
              0%nat 1%nat Examples.west_county Examples.two_cells Examples.west_county
              "cell_id" [Fin 0; Fin 1] ["pop"%string] EPSG_3857 "pop"%string [Fin 100]
              1%nat (Fin 1)
              eq_refl eq_refl eq_refl eq_refl west_compatible pop_in_county
              (singleton_NoDup _)
              (not_in_singleton "fragment_area_pct" "pop" ltac:(discriminate))
              (not_in_singleton "fragment_area" "pop" ltac:(discriminate))
              ltac:(left) eq_refl eq_refl)
    as (out & o & Hrun & Hcol & Hzero & _).
  exists out, o. split; [exact Hrun|]. split; [exact Hcol|].
  apply Hzero.
  - rewrite west_fragments. discriminate.
  - intros q Hq. rewrite west_fragments in Hq.
    apply list_elem_of_singleton in Hq as ->. reflexivity.
Defined.

Lemma reaggregate_missing_variable_witness :
  reaggregate 0%nat 1%nat "cell_id" ["pop"%string; "zz"%string]
    [Examples.county; Examples.two_cells]
  = (Raise (KeyError "zz"), [Examples.county; Examples.two_cells]).
Proof.
  apply (reaggregate_missing_variable [Examples.county; Examples.two_cells] 0%nat 1%nat
           Examples.county Examples.two_cells Examples.county "cell_id" [Fin 0; Fin 1]
           ["pop"%string; "zz"%string] EPSG_3857 ["pop"%string] "zz"%string []
           eq_refl eq_refl eq_refl eq_refl county_compatible eq_refl pop_in_county
           eq_refl eq_refl).
  intros Hin. repeat (apply elem_of_cons in Hin as [Hin|Hin]; [discriminate|]).
  now apply elem_of_nil in Hin.
Defined.



Lemma cell_event_scores_asserts_columns_witness :
  _get_cell_event_scores (Examples.scoring_model ["pop"%string; "zz"%string])
    [Examples.county; Examples.two_cells]
  = (Raise (AssertionError ("zz" +:+ " not found in data")),
     [Examples.county; Examples.two_cells]).
Proof.
  apply (cell_event_scores_asserts_columns
           (Examples.scoring_model ["pop"%string; "zz"%string])
           [Examples.county; Examples.two_cells] Examples.county
           ["pop"%string] "zz"%string [] eq_refl eq_refl pop_in_county eq_refl).
Defined.

Lemma cell_event_scores_layer_witness :
  exists indicators out score,
    _get_cell_event_scores (Examples.scoring_model ["pop"%string])
      [Examples.county; Examples.two_cells]
    = (Ok 3%nat, [Examples.county; Examples.two_cells] ++ [indicators; out])
    /\ geometry out = geometry Examples.two_cells
    /\ col_lookup "event_score" (columns out) = Some score
    /\ length score = 2%nat.
Proof.
  destruct (cell_event_scores_layer (Examples.scoring_model ["pop"%string])
              [Examples.county; Examples.two_cells] Examples.county Examples.two_cells
              Examples.county [Fin 0; Fin 1] EPSG_3857
              eq_refl eq_refl eq_refl eq_refl county_compatible pop_in_county
              (singleton_NoDup _) eq_refl)
    as (ind & out & score & Hrun & _ & Hgeo & Hcol & Hlen & _).
  exists ind, out, score. auto.
Defined.

(* ===================================================================== *)
(** ** What _standardize_projections does *)
(* ===================================================================== *)

Section Projections.
Context {geom : Type} `{Projection geom} `{Overlay geom}.

Lemma for_each_projection target_epsg ls : forall (h : list (GeoDataFrame geom)),
  (forall l, l ∈ ls -> exists d c, h !! l = Some d /\ crs d = Some c) ->
  exists copies,
    for_each (standardize_projection target_epsg) ls h = (Ok tt, h ++ copies)
    /\ Forall (fun d => crs d = Some target_epsg) copies
    /\ (length copies <= length ls)%nat
    /\ ((forall l, l ∈ ls -> exists d, h !! l = Some d /\ crs d = Some target_epsg) ->
        copies = []).
Proof.
  induction ls as [|l ls IH]; intros h Hall; simpl.
  - exists []. rewrite app_nil_r. repeat split; auto.
  - destruct (Hall l) as (d & c & Hd & Hc); [left|].
    rewrite run_bind. unfold standardize_projection at 1.
    rewrite run_bind, (run_load _ _ _ Hd).
    destruct (crs_eqb (crs d) (Some target_epsg)) eqn:E; cbn [negb].
    + rewrite run_ret.
      destruct (IH h) as (copies & Hrun & Hcrs & Hlen & Hnone).
      { intros l' Hl'. apply Hall. now right. }
      exists copies. split; [exact Hrun|]. split; [exact Hcrs|]. split; [lia|].
      intros Hin. apply Hnone. intros l' Hl'. apply Hin. now right.
    + rewrite run_bind, run_lift. unfold to_crs. rewrite Hc. unfold alloc.
      set (copy := mkGDF (Some target_epsg) (map (transform c target_epsg) (geometry d))
                         (columns d)).
      destruct (IH (h ++ [copy])) as (copies & Hrun & Hcrs & Hlen & Hnone).
      { intros l' Hl'. destruct (Hall l') as (d' & c' & Hd' & Hc'); [now right|].
        exists d', c'. split; [now apply lookup_app_l_Some|exact Hc']. }
      exists (copy :: copies). rewrite Hrun, <- app_assoc. simpl.
      split; [reflexivity|]. split; [now constructor|]. split; [lia|].
      intros Hin. exfalso. destruct (Hin l) as (d' & Hd' & Hc'); [left|].
      rewrite Hd in Hd'. injection Hd' as <-.
      rewrite Hc' in E. simpl in E. rewrite Z.eqb_refl in E. discriminate.
Qed.

(** X16: when the three layers of the model each have a CRS,
    [_standardize_projections] returns without error and only adds to
    the store: at most three reprojected copies, each in the target CRS,
    one for each layer whose CRS differs from the target, and none when
    all three layers are in the target CRS already.  When the tracts
    layer has no CRS it raises [ValueError] and adds nothing. *)
Theorem standardize_projections_adds_copies (self : EventSitingModel) (target_epsg : Z)
    (h : list (GeoDataFrame geom)) :
  ((forall l, l ∈ [tracts self; pois self; grid self] ->
      exists d c, h !! l = Some d /\ crs d = Some c) ->
   exists copies,
     _standardize_projections self target_epsg h = (Ok tt, h ++ copies)
     /\ Forall (fun d => crs d = Some target_epsg) copies
     /\ (length copies <= 3)%nat
     /\ ((forall l, l ∈ [tracts self; pois self; grid self] ->
            exists d, h !! l = Some d /\ crs d = Some target_epsg) ->
         copies = []))
  /\ (forall d, h !! tracts self = Some d -> crs d = None ->
        exists msg, _standardize_projections self target_epsg h = (Raise (ValueError msg), h)).
Proof.
  split.
  - intros Hall. unfold _standardize_projections.
    destruct (for_each_projection target_epsg _ h Hall) as (copies & Hrun & Hcrs & Hlen & Hnone).
    exists copies. auto.
  - intros d Hd Hc. unfold _standardize_projections. simpl.
    rewrite run_bind. unfold standardize_projection at 1.
    rewrite run_bind, (run_load _ _ _ Hd), Hc. cbn [crs_eqb negb].
    rewrite run_bind, run_lift. unfold to_crs. rewrite Hc. eauto.
Qed.

End Projections.

Lemma standardize_projections_adds_copies_witness :
  exists copies,
    _standardize_projections Examples.model 4326 Examples.three_layers
    = (Ok tt, Examples.three_layers ++ copies)
    /\ Forall (fun d => crs d = Some 4326%Z) copies
    /\ (length copies <= 3)%nat.
Proof.
  destruct (proj1 (standardize_projections_adds_copies Examples.model 4326 Examples.three_layers))
    as (copies & Hrun & Hcrs & Hlen & _).
  - intros l Hl. simpl in Hl.
    repeat (apply elem_of_cons in Hl as [->|Hl]; [eexists; eexists; split; reflexivity|]).
    now apply elem_of_nil in Hl.
  - exists copies. auto.
Defined.

(* ===================================================================== *)
(** ** Address parsing *)
(* ===================================================================== *)

Import AddressParser.

Lemma merge_cons {V} k (v : V) rest :
  exists vs groups,
    _merge_tuples_by_key ((k, v) :: rest) = (k, v :: vs) :: groups
    /\ (_merge_tuples_by_key rest = (k, vs) :: groups
        \/ (vs = [] /\ _merge_tuples_by_key rest = groups
            /\ forall k' vs' gs, groups = (k', vs') :: gs -> k <> k')).
Proof.
  simpl. destruct (_merge_tuples_by_key rest) as [|[k' vs] groups] eqn:E.
  - exists [], []. split; [reflexivity|]. right. repeat split; auto; discriminate.
  - destruct (String.eqb_spec k k') as [<-|Hne].
    + exists vs, groups. split; [reflexivity|]. now left.
    + exists [], ((k', vs) :: groups). split; [reflexivity|]. right.
      repeat split; auto. intros k'' vs' gs [= <- <- <-]. exact Hne.
Qed.

(** X17: [_merge_tuples_by_key] cuts the list into its runs of
    consecutive equal keys: spelling every group out again gives the
    input back, no group is empty, and two neighbouring groups never
    have the same key. *)
Theorem merge_tuples_by_key_runs {V} (tups : list (string * V)) :
  ungroup (_merge_tuples_by_key tups) = tups
  /\ Forall (fun g => g.2 <> []) (_merge_tuples_by_key tups)
  /\ forall i k1 v1 k2 v2,
       _merge_tuples_by_key tups !! i = Some (k1, v1) ->
       _merge_tuples_by_key tups !! S i = Some (k2, v2) ->
       k1 <> k2.
Proof.
  induction tups as [|[k v] rest (IH1 & IH2 & IH3)].
  - simpl. repeat split; [constructor|]. intros i k1 v1 k2 v2 Hi. discriminate.
  - destruct (merge_cons k v rest) as (vs & groups & -> & [Hm|(-> & Hm & Hne)]).
    + rewrite Hm in IH1, IH2, IH3. simpl in *. split; [|split].
      * now rewrite <- IH1.
      * apply Forall_cons in IH2 as [_ IH2]. constructor; [discriminate|exact IH2].
      * intros [|i] k1 v1 k2 v2 H1 H2; simpl in *.
        -- injection H1 as <- <-. apply (IH3 0%nat k vs k2 v2); [reflexivity|exact H2].
        -- apply (IH3 (S i) k1 v1 k2 v2); assumption.
    + rewrite Hm in IH1, IH2, IH3. simpl. split; [|split].
      * now rewrite IH1.
      * constructor; [discriminate|exact IH2].
      * intros [|i] k1 v1 k2 v2 H1 H2; simpl in *.
        -- injection H1 as <- <-. destruct groups as [|[k' vs'] gs]; [discriminate|].
           injection H2 as <- <-. now apply (Hne k' vs' gs).
        -- apply (IH3 i k1 v1 k2 v2); assumption.
Qed.

Lemma dict_get_app {V} k (a b : list (string * V)) :
  dict_get k (a ++ b) = match dict_get k a with Some v => Some v | None => dict_get k b end.
Proof.
  induction a as [|[k' v] a IH]; simpl; [reflexivity|].
  destruct (String.eqb k' k); [reflexivity|exact IH].
Qed.

Lemma dict_get_tags (tag k : string) (v : list string) :
  dict_get tag (map (fun i => (i, k)) v) = if str_in tag v then Some k else None.
Proof.
  unfold str_in. induction v as [|i v IH]; simpl; [reflexivity|].
  rewrite (String.eqb_sym tag i). destruct (String.eqb i tag); [reflexivity|exact IH].
Qed.

Lemma str_in_not_In x l : str_in x l = false <-> ~ In x l.
Proof.
  rewrite <- str_in_In. destruct (str_in x l); split; intros; easy.
Qed.

Lemma reverse_crosswalk_cons k v cw tag :
  dict_get tag (_reverse_crosswalk ((k, v) :: cw))
  = if str_in tag v then Some k else dict_get tag (_reverse_crosswalk cw).
Proof.
  unfold _reverse_crosswalk. simpl. rewrite dict_get_app, dict_get_tags.
  now destruct (str_in tag v).
Qed.

Lemma reverse_crosswalk_none cw tag :
  dict_get tag (_reverse_crosswalk cw) = None <-> ~ categorized cw tag.
Proof.
  induction cw as [|[k v] cw IH].
  - simpl. split; [|reflexivity]. intros _ (k & v & [] & _).
  - rewrite reverse_crosswalk_cons. destruct (str_in tag v) eqn:E.
    + split; [discriminate|]. intros H. exfalso. apply H.
      exists k, v. split; [now left|]. now apply str_in_In.
    + rewrite IH. apply str_in_not_In in E. split.
      * intros H (k' & v' & [[= <- <-]|Hin] & Ht); [easy|]. apply H. now exists k', v'.
      * intros H (k' & v' & Hin & Ht). apply H. exists k', v'. split; [now right|easy].
Qed.

Lemma reverse_crosswalk_some cw tag k :
  dict_get tag (_reverse_crosswalk cw) = Some k
  <-> exists pre v post,
        cw = pre ++ (k, v) :: post /\ In tag v
        /\ Forall (fun kv => ~ In tag kv.2) pre.
Proof.
  induction cw as [|[k' v'] cw IH].
  - simpl. split; [discriminate|]. intros (pre & v & post & H & _). now destruct pre.
  - rewrite reverse_crosswalk_cons. destruct (str_in tag v') eqn:E.
    + apply str_in_In in E. split.
      * intros [= <-]. exists [], v', cw. repeat split; [exact E|constructor].
      * intros ([|[k0 v0] pre] & v & post & H & Hin & Hpre).
        -- now injection H as -> _ _.
        -- injection H as <- <- _. apply Forall_cons in Hpre as [Hn _]. now destruct Hn.
    + apply str_in_not_In in E. rewrite IH. split.
      * intros (pre & v & post & -> & Hin & Hpre).
        exists ((k', v') :: pre), v, post. repeat split; [exact Hin|now constructor].
      * intros ([|[k0 v0] pre] & v & post & H & Hin & Hpre).
        -- injection H as _ <- _. now destruct E.
        -- injection H as _ _ ->. apply Forall_cons in Hpre as [_ Hpre].
           now exists pre, v, post.
Qed.

Lemma categorized_lookup cw tag :
  categorized cw tag -> dict_get tag (_reverse_crosswalk cw) = Some (category cw tag).
Proof.
  intros H. unfold category.
  destruct (dict_get tag (_reverse_crosswalk cw)) eqn:E; [reflexivity|].
  now apply reverse_crosswalk_none in E.
Qed.

(** X18: a lookup in [_reverse_crosswalk(crosswalk)] gives a tag the
    key of the first item of the crosswalk whose list has the tag, and
    finds nothing exactly when no list has it (a tag listed under two
    keys silently goes to the first). *)
Theorem reverse_crosswalk_first_key (cw : list (string * list string)) (tag : string) :
  (forall k,
     dict_get tag (_reverse_crosswalk cw) = Some k
     <-> exists pre v post,
           cw = pre ++ (k, v) :: post /\ In tag v
           /\ Forall (fun kv => ~ In tag kv.2) pre)
  /\ (dict_get tag (_reverse_crosswalk cw) = None <-> ~ categorized cw tag).
Proof.
  split.
  - intros k. apply reverse_crosswalk_some.
  - apply reverse_crosswalk_none.
Qed.

Lemma dict_get_set_eq {V} k (v : V) d : dict_get k (dict_set k v d) = Some v.
Proof.
  induction d as [|[k' w] d IH]; simpl.
  - now rewrite String.eqb_refl.
  - destruct (String.eqb k' k) eqn:E; simpl; rewrite E; [reflexivity|exact IH].
Qed.

Lemma dict_get_set_ne {V} k k' (v : V) d :
  k <> k' -> dict_get k' (dict_set k v d) = dict_get k' d.
Proof.
  intros Hne. induction d as [|[k0 w] d IH]; simpl.
  - apply String.eqb_neq in Hne. now rewrite Hne.
  - destruct (String.eqb k0 k) eqn:E; simpl.
    + apply String.eqb_eq in E. subst k0. apply String.eqb_neq in Hne. now rewrite Hne.
    + now rewrite IH.
Qed.

Lemma dict_set_new {V} k (v : V) d :
  dict_get k d = None -> dict_set k v d = d ++ [(k, v)].
Proof.
  induction d as [|[k' w] d IH]; simpl; [reflexivity|].
  destruct (String.eqb k' k); [discriminate|]. intros H. now rewrite IH.
Qed.

Lemma enforce_cons d k v cw :
  _enforce_crosswalk_keys d ((k, v) :: cw)
  = _enforce_crosswalk_keys
      (if negb (is_some (dict_get k d)) && negb (String.eqb k "_other")
       then dict_set k None d else d) cw.
Proof. reflexivity. Qed.

Lemma enforce_lookup d cw K :
  dict_get K (_enforce_crosswalk_keys d cw)
  = match dict_get K d with
    | Some v => Some v
    | None => if str_in K (map fst cw) && negb (String.eqb K "_other")
              then Some None else None
    end.
Proof.
  revert d. induction cw as [|[k v] cw IH]; intros d.
  - unfold str_in, _enforce_crosswalk_keys. simpl. now destruct (dict_get K d).
  - rewrite enforce_cons, IH. unfold str_in. cbn [map fst existsb].
    fold (str_in K (map fst cw)).
    destruct (String.eqb_spec K k) as [->|Hne].
    + destruct (dict_get k d) eqn:E; cbn [is_some negb andb orb].
      * now rewrite E.
      * destruct (String.eqb k "_other") eqn:Eo; cbn [negb andb].
        -- rewrite E. now rewrite andb_false_r.
        -- now rewrite dict_get_set_eq.
    + cbn [orb].
      destruct (negb (is_some (dict_get k d)) && negb (String.eqb k "_other")); [|reflexivity].
      rewrite dict_get_set_ne by congruence. reflexivity.
Qed.

Lemma enforce_appends d cw :
  exists added,
    _enforce_crosswalk_keys d cw = d ++ map (fun k => (k, None)) added.
Proof.
  revert d. induction cw as [|[k v] cw IH]; intros d.
  - exists []. unfold _enforce_crosswalk_keys. simpl. now rewrite app_nil_r.
  - rewrite enforce_cons.
    destruct (dict_get k d) eqn:E; cbn [is_some negb andb]; [apply IH|].
    destruct (String.eqb k "_other"); cbn [negb]; [apply IH|].
    rewrite (dict_set_new _ _ _ E).
    destruct (IH (d ++ [(k, None)])) as (added & ->).
    exists (k :: added). now rewrite <- app_assoc.
Qed.

(** X19: [_enforce_crosswalk_keys] only appends entries with value
    [None] after the entries of the dict it is given; afterwards a key
    that was in the dict still has its value, a key of the crosswalk
    other than "_other" that was not in it has [None], and no other key
    is present. *)
Theorem enforce_crosswalk_keys_lookup (d : list (string * option string))
    (cw : list (string * list string)) :
  (exists added, _enforce_crosswalk_keys d cw = d ++ map (fun k => (k, None)) added)
  /\ forall K,
       dict_get K (_enforce_crosswalk_keys d cw)
       = match dict_get K d with
         | Some v => Some v
         | None => if str_in K (map fst cw) && negb (String.eqb K "_other")
                   then Some None else None
         end.
Proof.
  split.
  - apply enforce_appends.
  - intros K. apply enforce_lookup.
Qed.

Lemma merge_step {V} k (v : V) rest :
  _merge_tuples_by_key ((k, v) :: rest)
  = match _merge_tuples_by_key rest with
    | (k', vs) :: groups =>
        if String.eqb k k' then (k, v :: vs) :: groups else (k, [v]) :: (k', vs) :: groups
    | [] => [(k, [v])]
    end.
Proof. reflexivity. Qed.

Lemma merge_head {V} k (v : V) rest :
  exists vs groups, _merge_tuples_by_key ((k, v) :: rest) = (k, v :: vs) :: groups.
Proof.
  destruct (merge_cons k v rest) as (vs & groups & H & _). now exists vs, groups.
Qed.

Lemma merge_head_value {V} k (a a' : V) rest W G :
  _merge_tuples_by_key ((k, a) :: rest) = (k, a :: W) :: G ->
  _merge_tuples_by_key ((k, a') :: rest) = (k, a' :: W) :: G.
Proof.
  rewrite !merge_step. destruct (_merge_tuples_by_key rest) as [|[k' vs] gs].
  - now intros [= <- <-].
  - destruct (String.eqb k k'); now intros [= <- <-].
Qed.

Lemma merge_nil {V} (l : list (string * V)) : _merge_tuples_by_key l = [] -> l = [].
Proof.
  destruct l as [|[k v] rest]; [reflexivity|].
  destruct (merge_head k v rest) as (vs & groups & ->). discriminate.
Qed.

Lemma merge_keys {V} (P : string -> Prop) (l : list (string * V)) :
  Forall (fun kv => P kv.1) l -> Forall (fun g => P g.1) (_merge_tuples_by_key l).
Proof.
  induction 1 as [|[k v] rest Hk _ IH]; [constructor|].
  rewrite merge_step. destruct (_merge_tuples_by_key rest) as [|[k' vs] gs].
  - now constructor.
  - apply Forall_cons in IH as [Hk' IH]. destruct (String.eqb k k'); repeat constructor; assumption.
Qed.

(** Grouping by tag and then by category is grouping by category. *)
Lemma merge_rekey_merge {V} (f : string -> string) (l : list (string * V)) :
  map (fun g => (g.1, concat g.2))
      (_merge_tuples_by_key (map (fun g => (f g.1, g.2)) (_merge_tuples_by_key l)))
  = _merge_tuples_by_key (map (fun kv => (f kv.1, kv.2)) l).
Proof.
  induction l as [|[k v] rest IH]; [reflexivity|].
  cbn [map fst snd]. rewrite (merge_step k v rest), (merge_step (f k) v).
  destruct (_merge_tuples_by_key rest) as [|[k' vs] gs] eqn:E.
  - apply merge_nil in E. subst rest. reflexivity.
  - cbn [map fst snd] in IH.
    destruct (merge_head (f k') vs (map (fun g => (f g.1, g.2)) gs)) as (W & G & HB).
    rewrite HB in IH. cbn [map fst snd concat] in IH. rewrite <- IH.
    destruct (String.eqb_spec k k') as [<-|Hne].
    + cbn [map fst snd]. rewrite (merge_head_value _ _ (v :: vs) _ _ _ HB).
      rewrite String.eqb_refl. reflexivity.
    + cbn [map fst snd]. rewrite merge_step, HB.
      destruct (String.eqb (f k) (f k')); reflexivity.
Qed.

Lemma replace_tags_ok {V} cw (l : list (string * V)) :
  Forall (fun kv => categorized cw kv.1) l ->
  replace_tags (_reverse_crosswalk cw) l = Ok (map (fun kv => (category cw kv.1, kv.2)) l).
Proof.
  induction 1 as [|[x y] rest Hx _ IH]; [reflexivity|].
  cbn [fst] in Hx. cbn [replace_tags map fst snd].
  now rewrite (categorized_lookup _ _ Hx), IH.
Qed.

Lemma replace_tags_first_missing {V} cw (pre post : list (string * V)) x y :
  Forall (fun kv => categorized cw kv.1) pre ->
  ~ categorized cw x ->
  replace_tags (_reverse_crosswalk cw) (_merge_tuples_by_key (pre ++ (x, y) :: post))
  = Raise (KeyError x).
Proof.
  intros Hpre Hx. apply reverse_crosswalk_none in Hx.
  induction Hpre as [|[k v] pre Hk _ IH].
  - cbn [app]. destruct (merge_head x y post) as (vs & groups & ->).
    cbn [replace_tags]. now rewrite Hx.
  - cbn [app]. cbn [fst] in Hk.
    destruct (merge_cons k v (pre ++ (x, y) :: post))
      as (vs & groups & -> & [Hm|(-> & Hm & _)]);
      rewrite Hm in IH; cbn [replace_tags] in *;
      rewrite (categorized_lookup _ _ Hk) in *.
    + destruct (replace_tags (_reverse_crosswalk cw) groups); [discriminate|exact IH].
    + now rewrite IH.
Qed.

Lemma last_cons_match {A} (x : A) l :
  last (x :: l) = match last l with Some y => Some y | None => Some x end.
Proof. destruct l as [|y l]; [reflexivity|]. rewrite last_cons. reflexivity. Qed.

Lemma tuple_to_dict_lookup (K : string) (tup : list (string * list (list string))) d0 :
  dict_get K (foldl (fun d '(k, v) => dict_set k (String.concat " " (concat v)) d) d0 tup)
  = match last (List.filter (fun g => String.eqb g.1 K) tup) with
    | Some g => Some (String.concat " " (concat g.2))
    | None => dict_get K d0
    end.
Proof.
  revert d0. induction tup as [|[k v] tup IH]; intros d0; [reflexivity|].
  cbn [foldl List.filter fst]. rewrite IH.
  destruct (String.eqb_spec k K) as [->|Hne].
  - rewrite last_cons_match.
    destruct (last (List.filter (fun g => String.eqb g.1 K) tup)); [reflexivity|].
    now rewrite dict_get_set_eq.
  - destruct (last (List.filter (fun g => String.eqb g.1 K) tup)); [reflexivity|].
    now rewrite dict_get_set_ne.
Qed.

Lemma last_run_flatten K (merged : list (string * list (list string))) :
  last_run K (map (fun g => (g.1, concat g.2)) merged)
  = (fun g => concat g.2) <$> last (List.filter (fun g => String.eqb g.1 K) merged).
Proof.
  unfold last_run. rewrite <- fmap_last. f_equal.
  induction merged as [|[k v] merged IH]; [reflexivity|].
  cbn [map List.filter fst snd]. destruct (String.eqb k K); cbn [map fmap list_fmap snd];
    now rewrite IH.
Qed.

Lemma dict_get_map_some {V} K (d : list (string * V)) :
  dict_get K (map (fun '(k, v) => (k, Some v)) d) = Some <$> dict_get K d.
Proof.
  induction d as [|[k v] d IH]; [reflexivity|].
  simpl. destruct (String.eqb k K); [reflexivity|exact IH].
Qed.

Lemma categorized_of_lookup cw tag :
  is_some (dict_get tag (_reverse_crosswalk cw)) = true -> categorized cw tag.
Proof.
  intros H. destruct (dict_get tag (_reverse_crosswalk cw)) as [k|] eqn:E; [|discriminate].
  apply reverse_crosswalk_some in E as (pre & v & post & -> & Hin & _).
  exists k, v. split; [|exact Hin]. apply in_or_app. right. now left.
Qed.

Lemma token_runs_reverse cw (tagged : list (string * string)) :
  _merge_tuples_by_key
    (map (fun kv => (category cw kv.1, kv.2)) (map (fun '(x, y) => (y, x)) tagged))
  = token_runs cw tagged.
Proof.
  unfold token_runs. f_equal. rewrite map_map. apply map_ext. now intros [x y].
Qed.

Lemma first_uncategorized cw (tagged : list (string * string)) :
  Forall (fun tt => categorized cw tt.2) tagged
  \/ exists pre token tag post,
       tagged = pre ++ (token, tag) :: post
       /\ Forall (fun tt => categorized cw tt.2) pre
       /\ ~ categorized cw tag.
Proof.
  induction tagged as [|[token tag] tagged IH]; [left; constructor|].
  destruct (dict_get tag (_reverse_crosswalk cw)) as [k|] eqn:E.
  - assert (Hc : categorized cw tag) by (apply categorized_of_lookup; now rewrite E).
    destruct IH as [IH|(pre & token' & tag' & post & -> & Hpre & Hn)].
    + left. now constructor.
    + right. exists ((token, tag) :: pre), token', tag', post.
      repeat split; [now constructor|exact Hn].
  - right. exists [], token, tag, tagged. repeat split; [constructor|].
    now apply reverse_crosswalk_none.
Qed.

Lemma parse_outcome (usaddress_parse : string -> list (string * string)) address cw :
  (exists r, parse usaddress_parse address cw = Ok r)
  \/ exists token tag,
       In (token, tag) (usaddress_parse (remove_commas address))
       /\ ~ categorized cw tag
       /\ parse usaddress_parse address cw = Raise (KeyError tag).
Proof.
  unfold parse.
  destruct (first_uncategorized cw (usaddress_parse (remove_commas address)))
    as [Hall|(pre & token & tag & post & -> & Hpre & Hn)].
  - left. rewrite replace_tags_ok; [now eexists|].
    apply merge_keys, Forall_map. eapply Forall_impl; [exact Hall|]. now intros [x y].
  - right. exists token, tag. split; [apply in_or_app; right; now left|].
    split; [exact Hn|]. rewrite map_app. cbn [map].
    rewrite replace_tags_first_missing; [reflexivity| |exact Hn].
    apply Forall_map. eapply Forall_impl; [exact Hpre|]. now intros [x y].
Qed.

Section ParseSpec.

Variable usaddress_parse : string -> list (string * string).

(** X20: when usaddress gives a token a tag that no list of the
    crosswalk has, [parse] raises [KeyError] with the first such tag,
    whatever the other tokens are. *)
Theorem parse_uncategorized_tag (address : string) (cw : list (string * list string))
    (pre post : list (string * string)) (token tag : string) :
  usaddress_parse (remove_commas address) = pre ++ (token, tag) :: post ->
  Forall (fun tt => categorized cw tt.2) pre ->
  ~ categorized cw tag ->
  parse usaddress_parse address cw = Raise (KeyError tag).
Proof.
  intros Htagged Hpre Htag. unfold parse. rewrite Htagged, map_app. cbn [map].
  rewrite replace_tags_first_missing; [reflexivity| |exact Htag].
  apply Forall_map. eapply Forall_impl; [exact Hpre|]. now intros [x y].
Qed.

(** X21: when every tag usaddress gives is in a list of the crosswalk,
    [parse] returns a dict in which a category has the tokens of its
    LAST run of consecutive tokens, joined by spaces (so the tokens of
    an earlier run of the same category, separated from it by tokens of
    another one, are lost); a key of the crosswalk other than "_other"
    with no token has [None]; no other key is present. *)
Theorem parse_last_run_wins (address : string) (cw : list (string * list string)) :
  Forall (fun tt => categorized cw tt.2) (usaddress_parse (remove_commas address)) ->
  exists r,
    parse usaddress_parse address cw = Ok r
    /\ forall K,
         dict_get K r
         = match last_run K (token_runs cw (usaddress_parse (remove_commas address))) with
           | Some tokens => Some (Some (String.concat " " tokens))
           | None => if str_in K (map fst cw) && negb (String.eqb K "_other")
                     then Some None else None
           end.
Proof.
  intros Hall. unfold parse.
  set (tagged := usaddress_parse (remove_commas address)) in *.
  assert (Hrev : Forall (fun kv => categorized cw kv.1) (map (fun '(x, y) => (y, x)) tagged)).
  { apply Forall_map. eapply Forall_impl; [exact Hall|]. now intros [x y]. }
  rewrite (replace_tags_ok cw _ (merge_keys _ _ Hrev)).
  eexists. split; [reflexivity|]. intros K.
  rewrite enforce_lookup, dict_get_map_some.
  unfold _tuple_with_list_to_dict. rewrite tuple_to_dict_lookup.
  rewrite <- token_runs_reverse.
  rewrite <- (merge_rekey_merge (category cw) (map (fun '(x, y) => (y, x)) tagged)).
  rewrite last_run_flatten.
  destruct (last (List.filter _ _)) as [g|]; reflexivity.
Qed.

End ParseSpec.

Lemma parse_uncategorized_tag_witness :
  parse emmett_usaddress "705 W. EMMETT ST KISSIMMEE FL 34741"
        [("Street_Address_1", ["AddressNumber"; "StreetName"])]%string
  = Raise (KeyError "StreetNamePreDirectional").
Proof.
  apply (parse_uncategorized_tag emmett_usaddress _ _
           [("705", "AddressNumber")]%string
           [("EMMETT", "StreetName"); ("ST", "StreetNamePostType");
            ("KISSIMMEE", "PlaceName"); ("FL", "StateName"); ("34741", "ZipCode")]%string
           "W." "StreetNamePreDirectional").
  - reflexivity.
  - repeat constructor. apply categorized_of_lookup. reflexivity.
  - apply reverse_crosswalk_none. reflexivity.
Defined.

Lemma parse_last_run_wins_witness :
  exists r,
    parse emmett_usaddress "705 W. EMMETT ST KISSIMMEE FL 34741" FEAT_CROSSWALK = Ok r
    /\ forall K,
         dict_get K r
         = match last_run K (token_runs FEAT_CROSSWALK emmett_tagged) with
           | Some tokens => Some (Some (String.concat " " tokens))
           | None => if str_in K (map fst FEAT_CROSSWALK) && negb (String.eqb K "_other")
                     then Some None else None
           end.
Proof.
  apply (parse_last_run_wins emmett_usaddress
           "705 W. EMMETT ST KISSIMMEE FL 34741" FEAT_CROSSWALK).
  repeat constructor; apply categorized_of_lookup; reflexivity.
Defined.

(** The test of the repository: the parsed address has the street, the
    city, the state and the zip code, and [None] for the two other
    fields. *)
Example parse_emmett :
  parse emmett_usaddress "705 W. EMMETT ST KISSIMMEE FL 34741" FEAT_CROSSWALK
  = Ok [("Street_Address_1", Some "705 W. EMMETT ST"); ("City", Some "KISSIMMEE");
        ("State", Some "FL"); ("Zip", Some "34741");
        ("Street_Address_2", None); ("Country", None)]%string.
Proof. vm_compute. reflexivity. Qed.

Lemma series_map_total {A B} (f : A -> B) (col : list A) :
  series_map (fun x => Ok (f x)) col = Ok (map f col).
Proof. induction col as [|x col IH]; [reflexivity|]. simpl. now rewrite IH. Qed.

Lemma categorized_concat cw tag :
  categorized cw tag <-> tag ∈ concat (map snd cw).
Proof.
  unfold categorized. rewrite list_elem_of_In, in_concat. split.
  - intros (k & v & Hin & Ht). exists v. split; [|exact Ht].
    apply in_map_iff. now exists (k, v).
  - intros (v & Hv & Ht). apply in_map_iff in Hv as ([k v'] & <- & Hin). now exists k, v'.
Qed.

Section UncategorizedTags.

Variable usaddress_parse : string -> list (string * string).
Variable usaddress_parse_nan : result (list (string * string)).

Lemma get_unique_tags_filled col :
  get_unique_tags usaddress_parse usaddress_parse_nan col true
  = Ok (list_to_set
          (map snd (concat (map (fun x => usaddress_parse (default EmptyString x)) col)))).
Proof.
  unfold get_unique_tags, fillna_empty.
  assert (H : series_map (usaddress_parse_cell usaddress_parse usaddress_parse_nan)
                (map (fun x => Some (default EmptyString x)) col)
              = Ok (map (fun x => usaddress_parse (default EmptyString x)) col)).
  { induction col as [|x col IH]; [reflexivity|]. cbn [map series_map usaddress_parse_cell].
    now rewrite IH. }
  now rewrite H.
Qed.

Lemma uncategorized_elem col cw S tag :
  list_uncategorized_tags usaddress_parse usaddress_parse_nan col cw = Ok S ->
  tag ∈ S
  <-> (exists cell token, In cell col
         /\ In (token, tag) (usaddress_parse (default EmptyString cell)))
      /\ ~ categorized cw tag.
Proof.
  unfold list_uncategorized_tags. rewrite get_unique_tags_filled. intros [= <-].
  rewrite elem_of_difference, !elem_of_list_to_set, <- categorized_concat.
  apply and_iff_compat_r.
  rewrite list_elem_of_In, in_map_iff. split.
  - intros ([token tag'] & Ht & Hin). simpl in Ht. subst tag'.
    apply in_concat in Hin as (l & Hl & Hin). apply in_map_iff in Hl as (cell & <- & Hcell).
    now exists cell, token.
  - intros (cell & token & Hcell & Hin). exists (token, tag). split; [reflexivity|].
    apply in_concat. exists (usaddress_parse (default EmptyString cell)). split; [|exact Hin].
    apply in_map_iff. now exists cell.
Qed.

(** X22: on a Series of addresses without commas (a missing cell
    counts as the empty address, as in [parse_series]),
    [list_uncategorized_tags] returns a set, and this set is empty
    exactly when [parse] returns a dict for every cell; the tag of a
    [KeyError] that [parse] raises on a cell is always in the set. *)
Theorem list_uncategorized_tags_predicts_parse (col : list (option string))
    (cw : list (string * list string)) :
  (forall cell, In cell col ->
     remove_commas (default EmptyString cell) = default EmptyString cell) ->
  exists S,
    list_uncategorized_tags usaddress_parse usaddress_parse_nan col cw = Ok S
    /\ (S = empty
        <-> forall cell, In cell col ->
              exists r, parse usaddress_parse (default EmptyString cell) cw = Ok r)
    /\ forall cell tag, In cell col ->
         parse usaddress_parse (default EmptyString cell) cw = Raise (KeyError tag) ->
         tag ∈ S.
Proof.
  intros Hcommas.
  destruct (list_uncategorized_tags usaddress_parse usaddress_parse_nan col cw) as [S|e] eqn:HS.
  2:{ unfold list_uncategorized_tags in HS. rewrite get_unique_tags_filled in HS.
      discriminate. }
  exists S. split; [reflexivity|].
  assert (Hraise : forall cell tag, In cell col ->
            parse usaddress_parse (default EmptyString cell) cw = Raise (KeyError tag) ->
            tag ∈ S).
  { intros cell tag Hcell Hp.
    destruct (parse_outcome usaddress_parse (default EmptyString cell) cw)
      as [(r & Hr)|(token & tag' & Hin & Hn & Hr)]; rewrite Hr in Hp; [discriminate|].
    injection Hp as <-. rewrite (Hcommas _ Hcell) in Hin.
    apply (uncategorized_elem col cw S tag' HS). split; [|exact Hn]. now exists cell, token. }
  split; [|exact Hraise]. split.
  - intros -> cell Hcell.
    destruct (parse_outcome usaddress_parse (default EmptyString cell) cw)
      as [Hr|(token & tag' & _ & _ & Hr)]; [exact Hr|].
    apply (Hraise _ _ Hcell) in Hr. now apply not_elem_of_empty in Hr.
  - intros Hok. apply leibniz_equiv. apply elem_of_equiv_empty. intros tag Htag.
    apply (uncategorized_elem col cw S tag HS) in Htag as ((cell & token & Hcell & Hin) & Hn).
    destruct (Hok _ Hcell) as (r & Hr).
    destruct (first_uncategorized cw (usaddress_parse (default EmptyString cell)))
      as [Hall|(pre & token' & tag' & post & Ht & Hpre & Hn')].
    + apply Hn. rewrite Forall_forall in Hall. apply (Hall (token, tag)).
      now apply list_elem_of_In.
    + rewrite <- (Hcommas _ Hcell) in Ht. unfold parse in Hr. rewrite Ht, map_app in Hr.
      cbn [map] in Hr. rewrite replace_tags_first_missing in Hr; [discriminate| |exact Hn'].
      apply Forall_map. eapply Forall_impl; [exact Hpre|]. now intros [x y].
Qed.

End UncategorizedTags.

Lemma list_uncategorized_tags_predicts_parse_witness :
  let col := [Some "705 W. EMMETT ST KISSIMMEE FL 34741"%string; None] in
  exists S,
    list_uncategorized_tags emmett_usaddress (Raise (ValueError "nan")) col FEAT_CROSSWALK = Ok S
    /\ (S = empty
        <-> forall cell, In cell col ->
              exists r, parse emmett_usaddress (default EmptyString cell) FEAT_CROSSWALK = Ok r)
    /\ forall cell tag, In cell col ->
         parse emmett_usaddress (default EmptyString cell) FEAT_CROSSWALK
         = Raise (KeyError tag) ->
         tag ∈ S.
Proof.
  apply (list_uncategorized_tags_predicts_parse emmett_usaddress (Raise (ValueError "nan"))
           [Some "705 W. EMMETT ST KISSIMMEE FL 34741"%string; None] FEAT_CROSSWALK).
  intros cell [<-|[<-|[]]]; reflexivity.
Defined.
